(** * bvhio: the animated joint ([bvhio/lib/hierarchy/Joint.py])

    A shallow embedding of the keyframe store, the rest-pose recording and the
    rest-pose rebasing of [Joint], and the properties of its specification.

    Frame ids are Python integers ([Z]); list positions are [nat].  The vector,
    quaternion and matrix arithmetic comes from [glm] and from the
    [SpatialTransform] package, which are not part of this repository: it is
    taken as an interface ([Glm]) of total functions, and every result holds
    for all its implementations.

    A joint is a value here: a keyframe holds a pose of its own, and an
    assignment to a property of a pose is a new pose in its place.  Where
    the question is which object a joint holds, the rest pose handed to the
    constructor or to the setter, [Pose] objects live in a heap and the joint
    holds an address (section [Objects]).  Where it is what the assignments
    of [writeRestPose] do to a [Pose] object that several joints or
    keyframes hold, the poses of a whole subtree live in the heap (section
    [InPlace]); on a subtree that holds no object twice the two views agree.

    An operation that can raise returns an [option], [None] for the
    exception. *)

From Stdlib Require Import QArith.
From stdpp Require Import base decidable option numbers list sorting strings gmap.

Local Open Scope Z_scope.

(** ** The arithmetic consumed from [glm] and [SpatialTransform] *)

(** [SpatialTransform.Pose]: local position, rotation and scale. *)
Record Pose_of (V Q : Type) := mkPose {
  Position : V;
  Rotation : Q;
  Scale : V;
}.
Arguments mkPose {V Q} _ _ _.
Arguments Position {V Q} _.
Arguments Rotation {V Q} _.
Arguments Scale {V Q} _.

Class Glm := {
  vec3 : Type;
  quat : Type;
  mat4 : Type;
  float : Type;
  (** [glm.vec3(0,0,0)], [glm.quat(1,0,0,0)] and [glm.vec3(1,1,1)], the
      properties of a default [Pose()]. *)
  vec3_zero : vec3;
  quat_identity : quat;
  vec3_one : vec3;
  (** Python's [/] on two integers, for a quotient in the range of a float;
      beyond it Python raises [OverflowError], which frame ids that are not
      negative rule out ([weight_in_range]). *)
  truediv : Z → Z → float;
  (** [glm.lerp] on vectors and on quaternions. *)
  lerp_vec3 : vec3 → vec3 → float → vec3;
  lerp_quat : quat → quat → float → quat;
  (** [mat4 * mat4], [mat4 * vec3], [quat * quat], [glm.inverse(quat)],
      [vec3 * vec3] and [vec3 / vec3]. *)
  mat4_mul : mat4 → mat4 → mat4;
  mat4_apply : mat4 → vec3 → vec3;
  quat_mul : quat → quat → quat;
  quat_inverse : quat → quat;
  vec3_mul : vec3 → vec3 → vec3;
  vec3_div : vec3 → vec3 → vec3;
  (** [Pose.Space] and [Transform.SpaceInverse], as functions of the
      position, rotation and scale they are computed from. *)
  Pose_Space : vec3 → quat → vec3 → mat4;
  Transform_SpaceInverse : vec3 → quat → vec3 → mat4;
  (** [p < q] on two [Pose] objects, as Python's tuple comparison asks for it
      when two keyframe tuples agree on the frame id; [None] when the
      comparison raises [TypeError]. *)
  Pose_lt : Pose_of vec3 quat → Pose_of vec3 quat → option bool;
  (** [Transform.applyPosition(position, recursive=False)]: the new position,
      rotation and scale of the transform itself, and of one child given
      the properties the parent had before the call. *)
  Transform_applyPosition_self :
    option vec3 → Pose_of vec3 quat → Pose_of vec3 quat;
  Transform_applyPosition_child :
    option vec3 → Pose_of vec3 quat → Pose_of vec3 quat → Pose_of vec3 quat;
  (** [Transform.applyRotation(rotation, recursive=False)], likewise. *)
  Transform_applyRotation_self :
    option quat → Pose_of vec3 quat → Pose_of vec3 quat;
  Transform_applyRotation_child :
    option quat → Pose_of vec3 quat → Pose_of vec3 quat → Pose_of vec3 quat;
}.

(** ** Data model *)

(** A [Pose] over the vectors and quaternions of the interface. *)
Abbreviation Pose := (Pose_of vec3 quat).

(** A keyframe is the tuple [(frame id, pose)]. *)
Abbreviation Keyframe := (Z * Pose_of vec3 quat)%type.

Section Joint.
Context `{Glm}.

(** [Pose()] *)
Definition Pose_default : Pose := mkPose vec3_zero quat_identity vec3_one.

(** [Pose.duplicate()]: a new [Pose] with the same three properties. *)
Definition duplicate (p : Pose) : Pose :=
  mkPose (Position p) (Rotation p) (Scale p).

(** ** [bisect] on the frame ids

    [bisect.bisect_left(a, x)]:
<<
    lo, hi = 0, len(a)
    while lo < hi:
        mid = (lo + hi) // 2
        if a[mid] < x: lo = mid + 1
        else: hi = mid
    return lo
>>
    The loop runs on fuel; [hi - lo] shrinks at every turn, so [length a]
    turns are enough (lemma [bisect_left_loop_fuel]). *)
Fixpoint bisect_left_loop (fuel : nat) (a : list Z) (x : Z) (lo hi : nat) : nat :=
  match fuel with
  | O => lo
  | S fuel' =>
      if decide (lo < hi)%nat then
        let mid := ((lo + hi) / 2)%nat in
        match a !! mid with
        | Some am =>
            if decide (am < x) then bisect_left_loop fuel' a x (mid + 1)%nat hi
            else bisect_left_loop fuel' a x lo mid
        | None => lo
        end
      else lo
  end.

Definition bisect_left (a : list Z) (x : Z) : nat :=
  bisect_left_loop (length a) a x 0 (length a).

(** [(frame, pose) < (frame', pose')] on Python tuples: the frames decide
    when they differ, and on a tie the two [Pose] objects are compared. *)
Definition Keyframe_lt (x y : Keyframe) : option bool :=
  if decide (x.1 = y.1) then Pose_lt x.2 y.2 else Some (bool_decide (x.1 < y.1)).

(** [bisect.insort(a, x)] is [insort_right]:
<<
    lo, hi = 0, len(a)
    while lo < hi:
        mid = (lo + hi) // 2
        if x < a[mid]: hi = mid
        else: lo = mid + 1
    a.insert(lo, x)
>> *)
Fixpoint bisect_right_loop (fuel : nat) (a : list Keyframe) (x : Keyframe)
    (lo hi : nat) : option nat :=
  match fuel with
  | O => Some lo
  | S fuel' =>
      if decide (lo < hi)%nat then
        let mid := ((lo + hi) / 2)%nat in
        match a !! mid with
        | Some am =>
            match Keyframe_lt x am with
            | Some true => bisect_right_loop fuel' a x lo mid
            | Some false => bisect_right_loop fuel' a x (mid + 1)%nat hi
            | None => None
            end
        | None => Some lo
        end
      else Some lo
  end.

(** [list.insert(i, x)] *)
Definition list_insert_at {A} (i : nat) (x : A) (l : list A) : list A :=
  take i l ++ x :: drop i l.

Definition insort (a : list Keyframe) (x : Keyframe) : option (list Keyframe) :=
  lo ← bisect_right_loop (length a) a x 0 (length a);
  Some (list_insert_at lo x a).

(** [Joint], with the properties it inherits from [Transform].  [Children] is
    the owned list of child joints; the [Parent] back-reference and the name
    are read by none of the operations below and are left out. *)
Local Unset Elimination Schemes.
Inductive Joint := mkJoint {
  Joint_Position : vec3;
  Joint_Rotation : quat;
  Joint_Scale : vec3;
  RestPose : Pose;
  Keyframes : list Keyframe;
  CurrentFrame : Z;
  Children : list Joint;
}.
Local Set Elimination Schemes.

Definition set_Keyframes (kfs : list Keyframe) (j : Joint) : Joint :=
  mkJoint (Joint_Position j) (Joint_Rotation j) (Joint_Scale j) (RestPose j)
    kfs (CurrentFrame j) (Children j).

Definition set_Children (cs : list Joint) (j : Joint) : Joint :=
  mkJoint (Joint_Position j) (Joint_Rotation j) (Joint_Scale j) (RestPose j)
    (Keyframes j) (CurrentFrame j) cs.

(** ** The keyframe store *)

(** [Joint.getKeyframeRange] (lines 267-282) *)
Fixpoint getKeyframeRange (includeChildren : bool) (j : Joint) : Z * Z :=
  match Keyframes j with
  | [] => (0, 0)
  | first :: _ =>
      let range := (first.1, (List.last (Keyframes j) first).1) in
      if includeChildren then
        fold_left
          (λ range child,
             let childRange := getKeyframeRange true child in
             (Z.min range.1 childRange.1, Z.max range.2 childRange.2))
          (Children j) range
      else range
  end.

(** [Joint.getKeyframePose] (lines 68-99); [None] stands for an [IndexError]
    or a [ZeroDivisionError] ([getKeyframePose_total]: neither is ever
    raised). *)
Definition getKeyframePose (j : Joint) (frame : Z) : option Pose :=
  if decide (length (Keyframes j) = 0%nat) then Some Pose_default else
  let frame :=
    if decide (frame < 0)
    then Z.max 0 ((getKeyframeRange false j).2 + 1 - frame) else frame in
  let index := bisect_left (Keyframes j).*1 frame in
  if decide (index = length (Keyframes j)) then
    key ← last (Keyframes j); Some (duplicate key.2)
  else
    key ← Keyframes j !! index;
    if decide (key.1 = frame) then Some (duplicate key.2)
    else if decide (index = 0%nat) then
      key ← last (Keyframes j); Some (duplicate key.2)
    else
      before ← Keyframes j !! (index - 1)%nat;
      after ← Keyframes j !! index;
      if decide (after.1 = 0) then None else
      let weight := truediv (before.1 + frame) after.1 in
      Some (mkPose
              (lerp_vec3 (Position before.2) (Position after.2) weight)
              (lerp_quat (Rotation before.2) (Rotation after.2) weight)
              (lerp_vec3 (Scale before.2) (Scale after.2) weight)).

(** [Joint.insertKeyframePose] (lines 101-115); [None] when [insort] raises. *)
Definition insertKeyframePose (frame : Z) (pose : Pose) (j : Joint) : option Joint :=
  let frame :=
    if decide (frame < 0)
    then Z.max 0 ((getKeyframeRange false j).2 + 1 - frame) else frame in
  let index := bisect_left (Keyframes j).*1 frame in
  if decide (index = length (Keyframes j) ∨
             (λ key : Keyframe, key.1) <$> Keyframes j !! index ≠ Some frame)
  then kfs ← insort (Keyframes j) (frame, pose); Some (set_Keyframes kfs j)
  else Some (set_Keyframes (<[index := (frame, pose)]> (Keyframes j)) j).

(** [Joint.removeKeyframe] (lines 117-132) *)
Fixpoint removeKeyframe (frame : Z) (recursive : bool) (j : Joint) : Joint :=
  let index := bisect_left (Keyframes j).*1 frame in
  let kfs :=
    if decide (index ≠ length (Keyframes j) ∧
               (λ key : Keyframe, key.1) <$> Keyframes j !! index = Some frame)
    then delete index (Keyframes j) else Keyframes j in
  mkJoint (Joint_Position j) (Joint_Rotation j) (Joint_Scale j) (RestPose j)
    kfs (CurrentFrame j)
    (if recursive then removeKeyframe frame true <$> Children j else Children j).

(** [Joint.loadPose] (lines 215-239): the rest pose composed with the
    keyframe pose. *)
Fixpoint loadPose (frame : Z) (recursive : bool) (j : Joint) : option Joint :=
  key ← getKeyframePose j frame;
  children ← (if recursive then mapM (loadPose frame true) (Children j)
              else Some (Children j));
  let rest := RestPose j in
  Some (mkJoint
          (mat4_apply (Pose_Space (Position rest) (Rotation rest) (Scale rest))
             (Position key))
          (quat_mul (Rotation rest) (Rotation key))
          (vec3_mul (Scale rest) (Scale key))
          rest (Keyframes j) frame children).

(** ** Rest pose: loading, recording, rebasing *)

(** The current [Position], [Rotation] and [Scale] of the joint. *)
Definition Joint_properties (j : Joint) : Pose :=
  mkPose (Joint_Position j) (Joint_Rotation j) (Joint_Scale j).

Definition set_properties (p : Pose) (j : Joint) : Joint :=
  mkJoint (Position p) (Rotation p) (Scale p) (RestPose j)
    (Keyframes j) (CurrentFrame j) (Children j).

(** [Joint.loadRestPose] (lines 170-186) *)
Fixpoint loadRestPose (recursive : bool) (j : Joint) : Joint :=
  mkJoint (Position (RestPose j)) (Rotation (RestPose j)) (Scale (RestPose j))
    (RestPose j) (Keyframes j) (CurrentFrame j)
    (if recursive then loadRestPose true <$> Children j else Children j).

(** One turn of the loop of [writeRestPose] over the keyframes: the pose of
    a keyframe after the assignments guarded by [keep]. *)
Definition rebase (keep : list string) (j : Joint) (key : Pose) : Pose :=
  let rest := RestPose j in
  mkPose
    (if decide ("position" ∈ keep)
     then mat4_apply
            (mat4_mul
               (Transform_SpaceInverse (Joint_Position j) (Joint_Rotation j) (Joint_Scale j))
               (Pose_Space (Position rest) (Rotation rest) (Scale rest)))
            (Position key)
     else Position key)
    (if decide ("rotation" ∈ keep)
     then quat_mul (quat_mul (Rotation rest) (quat_inverse (Joint_Rotation j)))
            (Rotation key)
     else Rotation key)
    (if decide ("scale" ∈ keep)
     then vec3_mul (vec3_div (Scale rest) (Joint_Scale j)) (Scale key)
     else Scale key).

(** [Joint.writeRestPose] (lines 188-213); [keep] is [None] or a list of
    property names, and [if keep:] holds for a list that is not empty. *)
Fixpoint writeRestPose (recursive : bool) (keep : option (list string))
    (j : Joint) : Joint :=
  let kfs :=
    match keep with
    | Some (name :: names) =>
        (λ key : Keyframe, (key.1, rebase (name :: names) j key.2)) <$> Keyframes j
    | _ => Keyframes j
    end in
  mkJoint (Joint_Position j) (Joint_Rotation j) (Joint_Scale j)
    (mkPose (Joint_Position j) (Joint_Rotation j) (Joint_Scale j))
    kfs (CurrentFrame j)
    (if recursive then writeRestPose true keep <$> Children j else Children j).

(** [Joint.applyPosition(position, recursive=False)], handed to [Transform]:
    it moves the joint and its immediate children. *)
Definition applyPosition (position : option vec3) (j : Joint) : Joint :=
  let parent := Joint_properties j in
  set_Children
    ((λ child,
        set_properties
          (Transform_applyPosition_child position parent (Joint_properties child))
          child) <$> Children j)
    (set_properties (Transform_applyPosition_self position parent) j).

(** [Joint.applyRotation(rotation, recursive=False)] *)
Definition applyRotation (rotation : option quat) (j : Joint) : Joint :=
  let parent := Joint_properties j in
  set_Children
    ((λ child,
        set_properties
          (Transform_applyRotation_child rotation parent (Joint_properties child))
          child) <$> Children j)
    (set_properties (Transform_applyRotation_self rotation parent) j).

(** The body of [Joint.applyRestposePosition] (lines 330-338) up to its
    recursive part. *)
Definition applyRestposePosition_self (position : option vec3) (j : Joint) : Joint :=
  let j := loadRestPose false j in
  let j := set_Children (loadRestPose false <$> Children j) j in
  let j := applyPosition position j in
  let j := writeRestPose false None j in
  set_Children (writeRestPose false None <$> Children j) j.

(** The joint at the moment [applyRestposePosition] writes its rest pose. *)
Definition before_write (position : option vec3) (j : Joint) : Joint :=
  let j := loadRestPose false j in
  applyPosition position (set_Children (loadRestPose false <$> Children j) j).

(** The body of [Joint.applyRestposeRotation] (lines 360-368) up to its
    recursive part. *)
Definition applyRestposeRotation_self (rotation : option quat) (j : Joint) : Joint :=
  let j := loadRestPose false j in
  let j := set_Children (loadRestPose false <$> Children j) j in
  let j := applyRotation rotation j in
  let j := writeRestPose false (Some ["position"]) j in
  set_Children (writeRestPose false None <$> Children j) j.

(** The number of levels below a joint. *)
Fixpoint height (j : Joint) : nat :=
  foldr (λ child h, Nat.max (S (height child)) h) 0%nat (Children j).

(** The recursive part of both: after its own body a joint runs the whole
    operation on each child, as the body left it.  The recursion is not on
    the structure of the argument, so it runs on fuel; the height of the
    joint is enough ([descend_fuel]). *)
Fixpoint descend (body : Joint → Joint) (fuel : nat) (j : Joint) : Joint :=
  let j := body j in
  match fuel with
  | O => j
  | S fuel' => set_Children (descend body fuel' <$> Children j) j
  end.

(** A body keeps the shape of the tree when it keeps the children of a
    joint in place, up to a change that keeps theirs. *)
Definition keeps_shape (body : Joint → Joint) : Prop :=
  ∀ j, ∃ g, Children (body j) = g <$> Children j ∧
            ∀ child, Children (g child) = Children child.

(** [Joint.applyRestposePosition] (lines 319-344) *)
Definition applyRestposePosition (position : option vec3) (recursive : bool)
    (j : Joint) : Joint :=
  if recursive then descend (applyRestposePosition_self position) (height j) j
  else applyRestposePosition_self position j.

(** [Joint.applyRestposeRotation] (lines 349-374) *)
Definition applyRestposeRotation (rotation : option quat) (recursive : bool)
    (j : Joint) : Joint :=
  if recursive then descend (applyRestposeRotation_self rotation) (height j) j
  else applyRestposeRotation_self rotation j.

(** ** Vocabulary of the specification *)

(** The invariant of the keyframe list: frame ids strictly ascending, hence
    no frame id twice. *)
Definition ascending (kfs : list Keyframe) : Prop :=
  StronglySorted Z.lt kfs.*1.

(** The frame id [getKeyframePose] and [insertKeyframePose] work with: their
    argument, or what they put in the place of a negative one. *)
Definition resolved (j : Joint) (frame : Z) : Z :=
  if decide (frame < 0)
  then Z.max 0 ((getKeyframeRange false j).2 + 1 - frame) else frame.

(** A call of one of the two operations that edit the keyframe list. *)
Inductive KeyframeCall :=
  | call_insertKeyframePose (frame : Z) (pose : Pose)
  | call_removeKeyframe (frame : Z) (recursive : bool).

Definition call (c : KeyframeCall) (j : Joint) : option Joint :=
  match c with
  | call_insertKeyframePose frame pose => insertKeyframePose frame pose j
  | call_removeKeyframe frame recursive => Some (removeKeyframe frame recursive j)
  end.

(** A sequence of calls, one after the other on the same joint. *)
Fixpoint calls (cs : list KeyframeCall) (j : Joint) : option Joint :=
  match cs with
  | [] => Some j
  | c :: cs => j' ← call c j; calls cs j'
  end.

(** The joints of a subtree, the root first. *)
Fixpoint subtree (j : Joint) : list Joint :=
  j :: mbind subtree (Children j).

(** Every frame id stored in the subtree. *)
Definition subtree_frames (j : Joint) : list Z :=
  mbind (λ j', (Keyframes j').*1) (subtree j).

(** Smallest and largest element of a list of frame ids that starts with
    [x]. *)
Definition minimum (x : Z) (l : list Z) : Z := foldr Z.min x l.
Definition maximum (x : Z) (l : list Z) : Z := foldr Z.max x l.

End Joint.

(** ** Pose objects and references

    Python passes a [Pose] by reference.  [heap] holds the [Pose] objects by
    address, and a joint object holds the address of its rest pose in its
    [_RestPose] attribute. *)
Abbreviation heap := (gmap nat (Pose_of vec3 quat)).

Section Objects.
Context `{Glm}.

(** A new object, at an address not in use. *)
Definition new_Pose (p : Pose) (σ : heap) : nat * heap :=
  let l := fresh (dom σ) in (l, <[l := p]> σ).

(** [value.duplicate()] on the object at [value]; [None] when no object is
    there. *)
Definition duplicate_at (value : nat) (σ : heap) : option (nat * heap) :=
  p ← σ !! value; Some (new_Pose (duplicate p) σ).

Record JointObject := mkJointObject {
  _RestPose : nat;
}.

(** [Joint.__init__], the [restPose] argument (line 64):
    [self._RestPose = Pose() if restPose is None else restPose] *)
Definition Joint_init (restPose : option nat) (σ : heap) : JointObject * heap :=
  match restPose with
  | None => let '(l, σ') := new_Pose Pose_default σ in (mkJointObject l, σ')
  | Some l => (mkJointObject l, σ)
  end.

(** The [RestPose] setter (lines 48-50):
    [self._RestPose = value.duplicate()] *)
Definition RestPose_setter (value : nat) (self : JointObject) (σ : heap) :
    option (JointObject * heap) :=
  '(l, σ') ← duplicate_at value σ; Some (mkJointObject l, σ').

(** The [RestPose] getter, read through to the object. *)
Definition RestPose_getter (self : JointObject) (σ : heap) : option Pose :=
  σ !! _RestPose self.

(** An assignment to the properties of the [Pose] object at [l]. *)
Definition mutate (l : nat) (p : Pose) (σ : heap) : heap :=
  if decide (is_Some (σ !! l)) then <[l := p]> σ else σ.

End Objects.

(** ** An implementation of the interface in exact arithmetic

    Vectors and quaternions over the rationals, every result in lowest
    terms; a [mat4] is the affine map [v ↦ rows · v + column].  The examples
    are evaluated in it. *)
Module Exact.
Local Open Scope Q_scope.

Definition V3 : Type := Q * Q * Q.
Definition Q4 : Type := Q * Q * Q * Q.
Record M4 := mkM4 { rows : V3 * V3 * V3; column : V3 }.

Definition add (a b : Q) : Q := Qred (a + b).
Definition sub (a b : Q) : Q := Qred (a - b).
Definition mul (a b : Q) : Q := Qred (a * b).
Definition div (a b : Q) : Q := Qred (a / b).

Definition zip3 (f : Q → Q → Q) (a b : V3) : V3 :=
  let '(a1, a2, a3) := a in let '(b1, b2, b3) := b in (f a1 b1, f a2 b2, f a3 b3).

Definition dot (a b : V3) : Q :=
  let '(c1, c2, c3) := zip3 mul a b in add (add c1 c2) c3.

Definition apply (m : M4) (v : V3) : V3 :=
  let '(r1, r2, r3) := rows m in zip3 add (dot r1 v, dot r2 v, dot r3 v) (column m).

Definition columns (r : V3 * V3 * V3) : V3 * V3 * V3 :=
  let '((a11, a12, a13), (a21, a22, a23), (a31, a32, a33)) := r in
  ((a11, a21, a31), (a12, a22, a32), (a13, a23, a33)).

Definition compose (m n : M4) : M4 :=
  let '(r1, r2, r3) := rows m in
  let '(c1, c2, c3) := columns (rows n) in
  mkM4 ((dot r1 c1, dot r1 c2, dot r1 c3),
        (dot r2 c1, dot r2 c2, dot r2 c3),
        (dot r3 c1, dot r3 c2, dot r3 c3))
       (apply m (column n)).

Definition hamilton (p q : Q4) : Q4 :=
  let '(pw, px, py, pz) := p in
  let '(qw, qx, qy, qz) := q in
  (Qred (pw * qw - px * qx - py * qy - pz * qz),
   Qred (pw * qx + px * qw + py * qz - pz * qy),
   Qred (pw * qy + py * qw + pz * qx - px * qz),
   Qred (pw * qz + pz * qw + px * qy - py * qx)).

Definition inverse (q : Q4) : Q4 :=
  let '(w, x, y, z) := q in
  let n := w * w + x * x + y * y + z * z in
  (Qred (w / n), Qred (- x / n), Qred (- y / n), Qred (- z / n)).

(** The rotation matrix of a quaternion. *)
Definition rotation (q : Q4) : V3 * V3 * V3 :=
  let '(w, x, y, z) := q in
  ((Qred (1 - 2 * (y * y + z * z)), Qred (2 * (x * y - w * z)), Qred (2 * (x * z + w * y))),
   (Qred (2 * (x * y + w * z)), Qred (1 - 2 * (x * x + z * z)), Qred (2 * (y * z - w * x))),
   (Qred (2 * (x * z - w * y)), Qred (2 * (y * z + w * x)), Qred (1 - 2 * (x * x + y * y)))).

(** translate · rotate · scale *)
Definition space (p : V3) (q : Q4) (s : V3) : M4 :=
  let '(r1, r2, r3) := rotation q in
  mkM4 (zip3 mul r1 s, zip3 mul r2 s, zip3 mul r3 s) p.

Definition space_inverse (p : V3) (q : Q4) (s : V3) : M4 :=
  let '(c1, c2, c3) := columns (rotation q) in
  let '(s1, s2, s3) := s in
  let r := (zip3 div c1 (s1, s1, s1), zip3 div c2 (s2, s2, s2), zip3 div c3 (s3, s3, s3)) in
  mkM4 r (apply (mkM4 r (0, 0, 0)) (zip3 sub (0, 0, 0) p)).

Definition lerp (a b w : Q) : Q := Qred (a * (1 - w) + b * w).

Definition lerp3 (a b : V3) (w : Q) : V3 := zip3 (λ x y, lerp x y w) a b.

Definition lerp4 (a b : Q4) (w : Q) : Q4 :=
  let '(aw, ax, ay, az) := a in
  let '(bw, bx, by', bz) := b in
  (lerp aw bw w, lerp ax bx w, lerp ay by' w, lerp az bz w).

(** The transform keeps its children where they are in world space: a child
    is carried from the old space of the parent into the new one. *)
Definition carry (old new child : Pose_of V3 Q4) : Pose_of V3 Q4 :=
  mkPose
    (apply
       (compose (space_inverse (Position new) (Rotation new) (Scale new))
                (space (Position old) (Rotation old) (Scale old)))
       (Position child))
    (hamilton (hamilton (inverse (Rotation new)) (Rotation old)) (Rotation child))
    (Scale child).

Definition move (position : option V3) (self : Pose_of V3 Q4) : Pose_of V3 Q4 :=
  mkPose
    (match position with
     | None => (0, 0, 0)
     | Some d => zip3 add (Position self) d
     end)
    (Rotation self) (Scale self).

Definition turn (rotation : option Q4) (self : Pose_of V3 Q4) : Pose_of V3 Q4 :=
  mkPose (Position self)
    (match rotation with
     | None => (1, 0, 0, 0)
     | Some d => hamilton (Rotation self) d
     end)
    (Scale self).

#[export] Instance glm : Glm := {|
  vec3 := V3;
  quat := Q4;
  mat4 := M4;
  float := Q;
  vec3_zero := (0, 0, 0);
  quat_identity := (1, 0, 0, 0);
  vec3_one := (1, 1, 1);
  truediv := λ a b, Qred (inject_Z a / inject_Z b);
  lerp_vec3 := lerp3;
  lerp_quat := lerp4;
  mat4_mul := compose;
  mat4_apply := apply;
  quat_mul := hamilton;
  quat_inverse := inverse;
  vec3_mul := zip3 mul;
  vec3_div := zip3 div;
  Pose_Space := space;
  Transform_SpaceInverse := space_inverse;
  Pose_lt := λ _ _, None;
  Transform_applyPosition_self := move;
  Transform_applyPosition_child := λ position old, carry old (move position old);
  Transform_applyRotation_self := turn;
  Transform_applyRotation_child := λ rotation old, carry old (turn rotation old);
|}.

End Exact.

(** ** Joints the examples are evaluated on *)
Module Example.
Import Exact.

(** The pose at [(x, 0, 0)], not rotated, not scaled. *)
Definition at_x (x : Z) : Pose :=
  mkPose (inject_Z x, 0%Q, 0%Q) (1%Q, 0%Q, 0%Q, 0%Q) (1%Q, 1%Q, 1%Q).

(** A joint in its rest pose [rest], never loaded. *)
Definition joint (rest : Pose) (kfs : list Keyframe) (children : list Joint) : Joint :=
  mkJoint (Position rest) (Rotation rest) (Scale rest) rest kfs (-1) children.

(** Keyframes at the frames 0, 10 and 20. *)
Definition three : Joint :=
  joint (at_x 0) [(0, at_x 1); (10, at_x 2); (20, at_x 4)] [].

(** Keyframes at the frames 3, 7 and 12, and a child with keyframes at 1
    and 15. *)
Definition parent : Joint :=
  joint (at_x 0) [(3, at_x 1); (7, at_x 2); (12, at_x 3)]
    [joint (at_x 1) [(1, at_x 0); (15, at_x 5)] []].

(** Keyframes at 3 and 7, and a child without keyframes. *)
Definition bare_child : Joint :=
  joint (at_x 0) [(3, at_x 1); (7, at_x 2)] [joint (at_x 1) [] []].

(** No keyframes, and a child with keyframes at 5 and 9. *)
Definition bare_parent : Joint :=
  joint (at_x 0) [] [joint (at_x 1) [(5, at_x 1); (9, at_x 2)] []].

(** Rest pose at [(1, 0, 0)], one keyframe that moves by [(2, 0, 0)]. *)
Definition shifted : Joint :=
  joint (at_x 1) [(0, at_x 2)] [].

(** A heap with one [Pose] object, at address 0. *)
Definition one_pose : heap := {[ 0%nat := at_x 1 ]}.

End Example.

(** ** Loading and recording poses and keyframes *)
Section Recording.
Context `{Glm}.

(** [Joint.loadKeyframe] (lines 134-150) *)
Fixpoint loadKeyframe (frame : Z) (recursive : bool) (j : Joint) : option Joint :=
  key ← getKeyframePose j frame;
  children ← (if recursive then mapM (loadKeyframe frame true) (Children j)
              else Some (Children j));
  Some (mkJoint (Position key) (Rotation key) (Scale key)
          (RestPose j) (Keyframes j) (CurrentFrame j) children).

(** [Joint.writeKeyframe] (lines 152-168) *)
Fixpoint writeKeyframe (frame : Z) (recursive : bool) (j : Joint) : option Joint :=
  j' ← insertKeyframePose frame
         (mkPose (Joint_Position j) (Joint_Rotation j) (Joint_Scale j)) j;
  children ← (if recursive then mapM (writeKeyframe frame true) (Children j)
              else Some (Children j));
  Some (set_Children children j').

(** [Pose.SpaceInverse], as a function of the position, rotation and scale
    it is computed from. *)
Context (Pose_SpaceInverse : vec3 → quat → vec3 → mat4).

(** The keyframe [writePose] records: the current properties relative to
    the rest pose. *)
Definition newKey (j : Joint) : Pose :=
  let rest := RestPose j in
  mkPose
    (mat4_apply (Pose_SpaceInverse (Position rest) (Rotation rest) (Scale rest))
       (Joint_Position j))
    (quat_mul (quat_inverse (Rotation rest)) (Joint_Rotation j))
    (vec3_div (Joint_Scale j) (Scale rest)).

(** The current properties of the joint and its rest pose undo each other:
    what [writePose] divides out, [loadPose] multiplies back in. *)
Definition invertible_at (j : Joint) : Prop :=
  let rest := RestPose j in
  mat4_apply (Pose_Space (Position rest) (Rotation rest) (Scale rest))
    (mat4_apply (Pose_SpaceInverse (Position rest) (Rotation rest) (Scale rest))
       (Joint_Position j)) = Joint_Position j ∧
  quat_mul (Rotation rest) (quat_mul (quat_inverse (Rotation rest)) (Joint_Rotation j))
    = Joint_Rotation j ∧
  vec3_mul (Scale rest) (vec3_div (Joint_Scale j) (Scale rest)) = Joint_Scale j.

(** [Joint.writePose] (lines 241-265) *)
Fixpoint writePose (frameId : Z) (recursive : bool) (j : Joint) : option Joint :=
  j' ← insertKeyframePose frameId (newKey j) j;
  children ← (if recursive then mapM (writePose frameId true) (Children j)
              else Some (Children j));
  Some (set_Children children j').

(** [glm.angleAxis(glm.radians(degrees), (0, 1, 0))] and [quat * vec3]. *)
Context (angleAxis_up : float → quat) (quat_rotate : quat → vec3 → vec3).

(** [Joint.roll] (lines 284-302).  The loop assigns a child its new position
    and rotation and then, when recursive, rolls it: [properties] are the
    position, rotation and scale the joint has when its own roll starts. *)
Fixpoint roll_from (degrees : float) (recursive : bool) (properties : Pose)
    (j : Joint) : Joint :=
  let change := angleAxis_up degrees in
  let changeInverse := quat_inverse change in
  mkJoint (Position properties) (quat_mul (Rotation properties) change)
    (Scale properties) (RestPose j) (Keyframes j) (CurrentFrame j)
    ((λ child,
        let turned :=
          mkPose (quat_rotate changeInverse (Joint_Position child))
            (quat_mul changeInverse (Joint_Rotation child))
            (Joint_Scale child) in
        if recursive then roll_from degrees true turned child
        else set_properties turned child) <$> Children j).

Definition roll (degrees : float) (recursive : bool) (j : Joint) : Joint :=
  roll_from degrees recursive (Joint_properties j) j.

(** A joint is at rest when its position, rotation and scale are those of
    its rest pose. *)
Definition at_rest (j : Joint) : Prop := Joint_properties j = RestPose j.

(** The animation data of a subtree: rest pose and keyframes of every
    joint, the root first. *)
Definition animation (j : Joint) : list (Pose * list Keyframe) :=
  (λ j', (RestPose j', Keyframes j')) <$> subtree j.

(** The current position, rotation and scale of every joint of a subtree,
    the root first. *)
Definition placement (j : Joint) : list Pose :=
  Joint_properties <$> subtree j.

(** The frame ids of every joint of a subtree, joint by joint. *)
Definition frame_ids (j : Joint) : list (list Z) :=
  (λ j', (Keyframes j').*1) <$> subtree j.

(** The division of line 94 stays in range: where [getKeyframePose]
    interpolates, between the keyframes at [index - 1] and [index], the
    divisor is positive and the dividend lies between 0 and twice the
    divisor, so that the weight is a float in [0, 2). *)
Definition weight_in_range (j : Joint) (frame : Z) : Prop :=
  let index := bisect_left (Keyframes j).*1 (resolved j frame) in
  ∀ before after,
    index ≠ 0%nat →
    Keyframes j !! (index - 1)%nat = Some before →
    Keyframes j !! index = Some after →
    after.1 ≠ resolved j frame →
    0 < after.1 ∧ 0 ≤ before.1 + resolved j frame < 2 * after.1.

(** The joints an operation reaches: the whole subtree when it is
    recursive, the joint alone when it is not. *)
Definition reached (recursive : bool) (j : Joint) : list Joint :=
  if recursive then subtree j else [j].

End Recording.

(** ** Joints whose poses are objects in the store

    [writeRestPose] assigns into [Pose] objects: the rest pose of the joint
    and the poses in its keyframe list.  Here a joint holds the addresses of
    these objects, its keyframe list pairs a frame id with an address, and
    an assignment to a property of a [Pose] changes the object in the
    store, for every joint and keyframe that holds its address. *)
Section InPlace.
Context `{Glm}.

Local Unset Elimination Schemes.
Inductive Stored := mkStored {
  Stored_Position : vec3;
  Stored_Rotation : quat;
  Stored_Scale : vec3;
  RestPose_at : nat;
  Keyframes_at : list (Z * nat);
  Stored_CurrentFrame : Z;
  Stored_Children : list Stored;
}.
Local Set Elimination Schemes.

(** [pose.Position = value], [pose.Rotation = value], [pose.Scale = value]
    on the object at [l]. *)
Definition assign_Position (l : nat) (value : vec3) (σ : heap) : option heap :=
  p ← σ !! l; Some (<[l := mkPose value (Rotation p) (Scale p)]> σ).

Definition assign_Rotation (l : nat) (value : quat) (σ : heap) : option heap :=
  p ← σ !! l; Some (<[l := mkPose (Position p) value (Scale p)]> σ).

Definition assign_Scale (l : nat) (value : vec3) (σ : heap) : option heap :=
  p ← σ !! l; Some (<[l := mkPose (Position p) (Rotation p) value]> σ).

(** A loop whose turns change the store. *)
Definition each {A} (turn : A → heap → option heap) :
    list A → heap → option heap :=
  fix go l σ :=
    match l with
    | [] => Some σ
    | x :: l => σ' ← turn x σ; go l σ'
    end.

(** One turn of the loop of [writeRestPose] over the keyframes (lines
    199-201), on the object at [key]: each assignment reads the rest pose
    and the keyframe as the store has them at that moment. *)
Definition rebase_at (keep : list string) (self : Stored) (key : nat)
    (σ : heap) : option heap :=
  σ ← (if decide ("position" ∈ keep) then
         rest ← σ !! RestPose_at self;
         k ← σ !! key;
         assign_Position key
           (mat4_apply
              (mat4_mul
                 (Transform_SpaceInverse (Stored_Position self)
                    (Stored_Rotation self) (Stored_Scale self))
                 (Pose_Space (Position rest) (Rotation rest) (Scale rest)))
              (Position k)) σ
       else Some σ);
  σ ← (if decide ("rotation" ∈ keep) then
         rest ← σ !! RestPose_at self;
         k ← σ !! key;
         assign_Rotation key
           (quat_mul
              (quat_mul (Rotation rest) (quat_inverse (Stored_Rotation self)))
              (Rotation k)) σ
       else Some σ);
  if decide ("scale" ∈ keep) then
    rest ← σ !! RestPose_at self;
    k ← σ !! key;
    assign_Scale key
      (vec3_mul (vec3_div (Scale rest) (Stored_Scale self)) (Scale k)) σ
  else Some σ.

(** [Joint.writeRestPose] (lines 188-213) on the store; [None] when an
    address holds no object. *)
Fixpoint writeRestPose_stored (recursive : bool) (keep : option (list string))
    (self : Stored) (σ : heap) : option heap :=
  σ ← match keep with
      | Some (name :: names) =>
          each (λ key : Z * nat, rebase_at (name :: names) self key.2)
            (Keyframes_at self) σ
      | _ => Some σ
      end;
  σ ← assign_Position (RestPose_at self) (Stored_Position self) σ;
  σ ← assign_Rotation (RestPose_at self) (Stored_Rotation self) σ;
  σ ← assign_Scale (RestPose_at self) (Stored_Scale self) σ;
  if recursive
  then each (writeRestPose_stored true keep) (Stored_Children self) σ
  else Some σ.

(** [Joint.loadRestPose] (lines 170-186), reading the rest pose from the
    store. *)
Fixpoint loadRestPose_stored (recursive : bool) (σ : heap) (self : Stored) :
    option Stored :=
  rest ← σ !! RestPose_at self;
  children ← (if recursive
              then mapM (loadRestPose_stored true σ) (Stored_Children self)
              else Some (Stored_Children self));
  Some (mkStored (Position rest) (Rotation rest) (Scale rest)
          (RestPose_at self) (Keyframes_at self) (Stored_CurrentFrame self)
          children).

(** The keyframe list with the poses the store has for it. *)
Definition read_Keyframes (σ : heap) (keys : list (Z * nat)) :
    option (list Keyframe) :=
  mapM (λ key : Z * nat, pose ← σ !! key.2; Some (key.1, pose)) keys.

(** The joint a stored joint stands for: every address replaced by the pose
    the store has there. *)
Fixpoint view (σ : heap) (self : Stored) : option Joint :=
  rest ← σ !! RestPose_at self;
  kfs ← read_Keyframes σ (Keyframes_at self);
  children ← mapM (view σ) (Stored_Children self);
  Some (mkJoint (Stored_Position self) (Stored_Rotation self)
          (Stored_Scale self) rest kfs (Stored_CurrentFrame self) children).

(** The addresses a subtree holds: of each joint its rest pose, then its
    keyframes, then those of its children. *)
Fixpoint addresses (self : Stored) : list nat :=
  RestPose_at self :: (Keyframes_at self).*2
    ++ mbind addresses (Stored_Children self).

(** No [Pose] object is held twice in the subtree. *)
Definition unshared (self : Stored) : Prop := NoDup (addresses self).

Definition Stored_properties (self : Stored) : Pose :=
  mkPose (Stored_Position self) (Stored_Rotation self) (Stored_Scale self).

Definition set_Stored_properties (p : Pose) (self : Stored) : Stored :=
  mkStored (Position p) (Rotation p) (Scale p) (RestPose_at self)
    (Keyframes_at self) (Stored_CurrentFrame self) (Stored_Children self).

Definition set_Stored_Children (cs : list Stored) (self : Stored) : Stored :=
  mkStored (Stored_Position self) (Stored_Rotation self) (Stored_Scale self)
    (RestPose_at self) (Keyframes_at self) (Stored_CurrentFrame self) cs.

(** [Joint.applyPosition(position, recursive=False)] and
    [Joint.applyRotation(rotation, recursive=False)], handed to [Transform]:
    they assign to the properties of the joint and of its immediate
    children, and to no [Pose] object. *)
Definition applyPosition_stored (position : option vec3) (self : Stored) :
    Stored :=
  let parent := Stored_properties self in
  set_Stored_Children
    ((λ child,
        set_Stored_properties
          (Transform_applyPosition_child position parent (Stored_properties child))
          child) <$> Stored_Children self)
    (set_Stored_properties (Transform_applyPosition_self position parent) self).

Definition applyRotation_stored (rotation : option quat) (self : Stored) :
    Stored :=
  let parent := Stored_properties self in
  set_Stored_Children
    ((λ child,
        set_Stored_properties
          (Transform_applyRotation_child rotation parent (Stored_properties child))
          child) <$> Stored_Children self)
    (set_Stored_properties (Transform_applyRotation_self rotation parent) self).

(** The body of [Joint.applyRestposePosition] (lines 330-338) up to its
    recursive part, on the store. *)
Definition applyRestposePosition_self_stored (position : option vec3)
    (self : Stored) (σ : heap) : option (Stored * heap) :=
  self ← loadRestPose_stored false σ self;
  children ← mapM (loadRestPose_stored false σ) (Stored_Children self);
  let self := applyPosition_stored position (set_Stored_Children children self) in
  σ ← writeRestPose_stored false None self σ;
  σ ← each (writeRestPose_stored false None) (Stored_Children self) σ;
  Some (self, σ).

(** The body of [Joint.applyRestposeRotation] (lines 360-368) up to its
    recursive part, on the store. *)
Definition applyRestposeRotation_self_stored (rotation : option quat)
    (self : Stored) (σ : heap) : option (Stored * heap) :=
  self ← loadRestPose_stored false σ self;
  children ← mapM (loadRestPose_stored false σ) (Stored_Children self);
  let self := applyRotation_stored rotation (set_Stored_Children children self) in
  σ ← writeRestPose_stored false (Some ["position"]) self σ;
  σ ← each (writeRestPose_stored false None) (Stored_Children self) σ;
  Some (self, σ).

(** A loop over the children whose turns change the child and the store. *)
Definition thread (turn : Stored → heap → option (Stored * heap)) :
    list Stored → heap → option (list Stored * heap) :=
  fix go l σ :=
    match l with
    | [] => Some ([], σ)
    | child :: l =>
        '(child', σ') ← turn child σ;
        '(l', σ'') ← go l σ';
        Some (child' :: l', σ'')
    end.

(** The number of levels below a stored joint. *)
Fixpoint Stored_height (self : Stored) : nat :=
  foldr (λ child h, Nat.max (S (Stored_height child)) h) 0%nat
    (Stored_Children self).

(** The recursive part of both, on fuel as [descend]. *)
Fixpoint descend_stored (body : Stored → heap → option (Stored * heap))
    (fuel : nat) (self : Stored) (σ : heap) : option (Stored * heap) :=
  '(self, σ) ← body self σ;
  match fuel with
  | O => Some (self, σ)
  | S fuel' =>
      '(children, σ) ← thread (descend_stored body fuel') (Stored_Children self) σ;
      Some (set_Stored_Children children self, σ)
  end.

(** [Joint.applyRestposePosition] (lines 319-344) on the store *)
Definition applyRestposePosition_stored (position : option vec3)
    (recursive : bool) (self : Stored) (σ : heap) : option (Stored * heap) :=
  if recursive
  then descend_stored (applyRestposePosition_self_stored position)
         (Stored_height self) self σ
  else applyRestposePosition_self_stored position self σ.

(** [Joint.applyRestposeRotation] (lines 349-374) on the store *)
Definition applyRestposeRotation_stored (rotation : option quat)
    (recursive : bool) (self : Stored) (σ : heap) : option (Stored * heap) :=
  if recursive
  then descend_stored (applyRestposeRotation_self_stored rotation)
         (Stored_height self) self σ
  else applyRestposeRotation_self_stored rotation self σ.

End InPlace.

(** ** More joints for the examples *)
Module Sample.
Import Exact Example.

(** A joint away from its rest pose, with a child away from its own. *)
Definition posed : Joint :=
  mkJoint (5%Q, 0%Q, 0%Q) (1%Q, 0%Q, 0%Q, 0%Q) (2%Q, 2%Q, 2%Q) (at_x 1)
    [(0, at_x 1); (10, at_x 2)] (-1)
    [mkJoint (0%Q, 3%Q, 0%Q) (1%Q, 0%Q, 0%Q, 0%Q) (1%Q, 1%Q, 1%Q) (at_x 2)
       [(4, at_x 7)] (-1) []].

(** The same joint with its poses in the store, every pose an object of
    its own. *)
Definition store : heap :=
  <[0%nat := at_x 1]> (<[1%nat := at_x 1]> (<[2%nat := at_x 2]>
    (<[3%nat := at_x 2]> (<[4%nat := at_x 7]> ∅)))).

Definition posed_stored : Stored :=
  mkStored (5%Q, 0%Q, 0%Q) (1%Q, 0%Q, 0%Q, 0%Q) (2%Q, 2%Q, 2%Q) 0%nat
    [(0, 1%nat); (10, 2%nat)] (-1)
    [mkStored (0%Q, 3%Q, 0%Q) (1%Q, 0%Q, 0%Q, 0%Q) (1%Q, 1%Q, 1%Q) 3%nat
       [(4, 4%nat)] (-1) []].

(** A joint whose only keyframe holds the rest pose object of the joint. *)
Definition shared_rest : Stored :=
  mkStored (5%Q, 0%Q, 0%Q) (1%Q, 0%Q, 0%Q, 0%Q) (2%Q, 2%Q, 2%Q) 0%nat
    [(0, 0%nat)] (-1) [].

End Sample.

(** A concrete keyframe list is ascending by inspection. *)
Ltac ascending_by_computation :=
  unfold ascending; simpl; repeat (constructor; try lia).

(** * Properties *)

Section Properties.
Context `{Glm}.

(** ** Induction over a joint and its descendants *)

Lemma Joint_ind (P : Joint → Prop) :
  (∀ position rotation scale rest kfs frame children,
      Forall P children →
      P (mkJoint position rotation scale rest kfs frame children)) →
  ∀ j, P j.
Proof.
  intros step.
  fix IH 1. intros [position rotation scale rest kfs frame children].
  apply step. induction children as [|child children IHchildren].
  - constructor.
  - constructor; [apply IH | exact IHchildren].
Qed.

(** ** The binary searches *)

Lemma midpoint (lo hi : nat) :
  (lo < hi)%nat → (lo ≤ (lo + hi) / 2 < hi)%nat.
Proof.
  intros Hlt.
  pose proof (Nat.div_mod_eq (lo + hi) 2) as Heq.
  pose proof (Nat.mod_upper_bound (lo + hi) 2) as Hmod.
  lia.
Qed.

Lemma bisect_left_loop_S fuel (a : list Z) x lo hi :
  bisect_left_loop (S fuel) a x lo hi =
  if decide (lo < hi)%nat then
    match a !! ((lo + hi) / 2)%nat with
    | Some am =>
        if decide (am < x)
        then bisect_left_loop fuel a x ((lo + hi) / 2 + 1)%nat hi
        else bisect_left_loop fuel a x lo ((lo + hi) / 2)%nat
    | None => lo
    end
  else lo.
Proof. reflexivity. Qed.

(** On a list cut in two at the frame [x], smaller ids before and the others
    behind, the search of [bisect_left] ends at the cut.  Sorting is used in
    no other way. *)
Lemma bisect_left_loop_cut fuel (l1 l2 : list Z) x lo hi :
  Forall (λ y, y < x) l1 → Forall (λ y, x ≤ y) l2 →
  (lo ≤ length l1 ≤ hi)%nat → (hi ≤ length l1 + length l2)%nat →
  (hi - lo ≤ fuel)%nat →
  bisect_left_loop fuel (l1 ++ l2) x lo hi = length l1.
Proof.
  intros Hl1 Hl2. revert lo hi.
  induction fuel as [|fuel IH]; intros lo hi Hlo Hhi Hfuel.
  - simpl. lia.
  - rewrite bisect_left_loop_S.
    destruct (decide (lo < hi)%nat) as [Hlt|Hge]; [|lia].
    pose proof (midpoint lo hi Hlt) as Hmid.
    set (mid := ((lo + hi) / 2)%nat) in *.
    destruct (decide (mid < length l1)%nat) as [Hin|Hout].
    + destruct (lookup_lt_is_Some_2 l1 mid Hin) as [am Ham].
      rewrite (lookup_app_l_Some _ _ _ _ Ham).
      rewrite Forall_lookup in Hl1. specialize (Hl1 _ _ Ham). simpl in Hl1.
      rewrite decide_True by done. apply IH; lia.
    + assert (mid - length l1 < length l2)%nat as Hin by lia.
      destruct (lookup_lt_is_Some_2 l2 _ Hin) as [am Ham].
      rewrite lookup_app_r by lia. rewrite Ham.
      rewrite Forall_lookup in Hl2. specialize (Hl2 _ _ Ham). simpl in Hl2.
      rewrite decide_False by lia. apply IH; lia.
Qed.

Lemma bisect_left_cut (l1 l2 : list Z) x :
  Forall (λ y, y < x) l1 → Forall (λ y, x ≤ y) l2 →
  bisect_left (l1 ++ l2) x = length l1.
Proof.
  intros Hl1 Hl2. unfold bisect_left. rewrite length_app.
  apply bisect_left_loop_cut; auto; lia.
Qed.

(** The search does not depend on the fuel once it covers the interval. *)
Lemma bisect_left_loop_fuel fuel fuel' (a : list Z) x lo hi :
  (hi - lo ≤ fuel)%nat → (hi - lo ≤ fuel')%nat →
  bisect_left_loop fuel a x lo hi = bisect_left_loop fuel' a x lo hi.
Proof.
  revert fuel' lo hi.
  induction fuel as [|fuel IH]; intros [|fuel'] lo hi Hfuel Hfuel';
    rewrite ?bisect_left_loop_S; auto.
  - simpl. destruct (decide (lo < hi)%nat); [lia|done].
  - simpl. destruct (decide (lo < hi)%nat); [lia|done].
  - destruct (decide (lo < hi)%nat) as [Hlt|]; [|done].
    pose proof (midpoint lo hi Hlt) as Hmid.
    destruct (a !! ((lo + hi) / 2)%nat) as [am|]; [|done].
    destruct (decide (am < x)); apply IH; lia.
Qed.

(** What the search of [bisect_left] guarantees on any list, sorted or not:
    the result is a position of the list or its length, the neighbour
    before it is smaller than [x] and the element at it is not. *)
Lemma bisect_left_loop_bounds fuel (a : list Z) x lo hi :
  (lo ≤ hi ≤ length a)%nat → (hi - lo ≤ fuel)%nat →
  (lo = 0%nat ∨ ∃ y, a !! (lo - 1)%nat = Some y ∧ y < x) →
  (hi = length a ∨ ∃ y, a !! hi = Some y ∧ x ≤ y) →
  let r := bisect_left_loop fuel a x lo hi in
  (lo ≤ r ≤ hi)%nat ∧
  (r = 0%nat ∨ ∃ y, a !! (r - 1)%nat = Some y ∧ y < x) ∧
  (r = length a ∨ ∃ y, a !! r = Some y ∧ x ≤ y).
Proof.
  revert lo hi.
  induction fuel as [|fuel IH]; intros lo hi Hlo Hfuel Hbefore Hat.
  - simpl. assert (lo = hi) as -> by lia. auto with lia.
  - rewrite bisect_left_loop_S.
    destruct (decide (lo < hi)%nat) as [Hlt|Hge].
    2:{ assert (lo = hi) as -> by lia. auto with lia. }
    pose proof (midpoint lo hi Hlt) as Hmid.
    set (mid := ((lo + hi) / 2)%nat) in *.
    assert (mid < length a)%nat as Hin by lia.
    destruct (lookup_lt_is_Some_2 a mid Hin) as [am Ham]. rewrite Ham.
    destruct (decide (am < x)) as [Hsmall|Hbig].
    + destruct (IH (mid + 1)%nat hi) as (Hr & ? & ?); try lia; auto.
      { right. exists am. by replace (mid + 1 - 1)%nat with mid by lia. }
      split_and!; auto; lia.
    + destruct (IH lo mid) as (Hr & ? & ?); try lia; auto.
      { right. exists am. split; [done|lia]. }
      split_and!; auto; lia.
Qed.

Lemma bisect_left_bounds (a : list Z) x :
  let r := bisect_left a x in
  (r ≤ length a)%nat ∧
  (r = 0%nat ∨ ∃ y, a !! (r - 1)%nat = Some y ∧ y < x) ∧
  (r = length a ∨ ∃ y, a !! r = Some y ∧ x ≤ y).
Proof.
  intros r.
  destruct (bisect_left_loop_bounds (length a) a x 0 (length a))
    as (? & ? & ?); [lia|lia|by left|by left|].
  subst r. unfold bisect_left. split_and!; [lia|done|done].
Qed.

Lemma bisect_right_loop_S fuel (a : list Keyframe) x lo hi :
  bisect_right_loop (S fuel) a x lo hi =
  if decide (lo < hi)%nat then
    match a !! ((lo + hi) / 2)%nat with
    | Some am =>
        match Keyframe_lt x am with
        | Some true => bisect_right_loop fuel a x lo ((lo + hi) / 2)%nat
        | Some false => bisect_right_loop fuel a x ((lo + hi) / 2 + 1)%nat hi
        | None => None
        end
    | None => Some lo
    end
  else Some lo.
Proof. reflexivity. Qed.

(** The search of [insort] for a keyframe whose frame id is not in the list:
    no tie, no comparison of poses, and it ends at the cut. *)
Lemma bisect_right_loop_cut fuel (k1 k2 : list Keyframe) x lo hi :
  Forall (λ k, k.1 < x.1) k1 → Forall (λ k, x.1 < k.1) k2 →
  (lo ≤ length k1 ≤ hi)%nat → (hi ≤ length k1 + length k2)%nat →
  (hi - lo ≤ fuel)%nat →
  bisect_right_loop fuel (k1 ++ k2) x lo hi = Some (length k1).
Proof.
  intros Hk1 Hk2. revert lo hi.
  induction fuel as [|fuel IH]; intros lo hi Hlo Hhi Hfuel.
  - simpl. f_equal. lia.
  - rewrite bisect_right_loop_S.
    destruct (decide (lo < hi)%nat) as [Hlt|Hge]; [|f_equal; lia].
    pose proof (midpoint lo hi Hlt) as Hmid.
    set (mid := ((lo + hi) / 2)%nat) in *.
    destruct (decide (mid < length k1)%nat) as [Hin|Hout].
    + destruct (lookup_lt_is_Some_2 k1 mid Hin) as [am Ham].
      rewrite (lookup_app_l_Some _ _ _ _ Ham).
      rewrite Forall_lookup in Hk1. specialize (Hk1 _ _ Ham). simpl in Hk1.
      unfold Keyframe_lt. rewrite decide_False by lia.
      rewrite bool_decide_eq_false_2 by lia. apply IH; lia.
    + assert (mid - length k1 < length k2)%nat as Hin by lia.
      destruct (lookup_lt_is_Some_2 k2 _ Hin) as [am Ham].
      rewrite lookup_app_r by lia. rewrite Ham.
      rewrite Forall_lookup in Hk2. specialize (Hk2 _ _ Ham). simpl in Hk2.
      unfold Keyframe_lt. rewrite decide_False by lia.
      rewrite bool_decide_eq_true_2 by lia. apply IH; lia.
Qed.

Lemma insort_cut (k1 k2 : list Keyframe) x :
  Forall (λ k, k.1 < x.1) k1 → Forall (λ k, x.1 < k.1) k2 →
  insort (k1 ++ k2) x = Some (k1 ++ x :: k2).
Proof.
  intros Hk1 Hk2. unfold insort.
  rewrite (bisect_right_loop_cut _ k1 k2) by (rewrite ?length_app; auto; lia).
  simpl. unfold list_insert_at.
  by rewrite take_app_length, drop_app_length.
Qed.

(** ** Ascending keyframe lists *)

Lemma ascending_app (k1 k2 : list Keyframe) :
  ascending (k1 ++ k2) ↔
  (∀ a b, a ∈ k1 → b ∈ k2 → a.1 < b.1) ∧ ascending k1 ∧ ascending k2.
Proof.
  unfold ascending. rewrite fmap_app, StronglySorted_app. split.
  - intros (Hcross & ? & ?). split_and!; [|done|done].
    intros a b Ha Hb. apply Hcross; by apply list_elem_of_fmap_2.
  - intros (Hcross & ? & ?). split_and!; [|done|done].
    intros x y (a & -> & Ha)%list_elem_of_fmap (b & -> & Hb)%list_elem_of_fmap.
    by apply Hcross.
Qed.

Lemma ascending_cons (k : Keyframe) (kfs : list Keyframe) :
  ascending (k :: kfs) ↔ Forall (λ k', k.1 < k'.1) kfs ∧ ascending kfs.
Proof.
  unfold ascending. rewrite fmap_cons, StronglySorted_cons, Forall_fmap.
  done.
Qed.

(** An ascending list is cut in two at any frame id. *)
Lemma ascending_cut (kfs : list Keyframe) (x : Z) :
  ascending kfs →
  ∃ k1 k2, kfs = k1 ++ k2 ∧
    Forall (λ k, k.1 < x) k1 ∧ Forall (λ k, x ≤ k.1) k2.
Proof.
  induction kfs as [|k kfs IH]; intros Hasc.
  - exists [], []. by repeat constructor.
  - apply ascending_cons in Hasc as [Hk Hasc].
    destruct (decide (k.1 < x)) as [Hsmall|Hbig].
    + destruct (IH Hasc) as (k1 & k2 & -> & ? & ?).
      exists (k :: k1), k2. split_and!; [done| |done]. by constructor.
    + exists [], (k :: kfs). split_and!; [done|constructor|].
      constructor; [lia|]. eapply Forall_impl; [exact Hk|]. simpl. intros; lia.
Qed.

Lemma bisect_left_frames_cut (k1 k2 : list Keyframe) x :
  Forall (λ k, k.1 < x) k1 → Forall (λ k, x ≤ k.1) k2 →
  bisect_left (k1 ++ k2).*1 x = length k1.
Proof.
  intros Hk1 Hk2. rewrite fmap_app, bisect_left_cut.
  - by rewrite length_fmap.
  - by apply Forall_fmap.
  - by apply Forall_fmap.
Qed.

(** ** The frame id the operations work with *)

Lemma List_last_last {A} (l : list A) (d : A) :
  List.last l d = default d (last l).
Proof.
  induction l as [|x [|y l] IH]; [done|done|].
  rewrite last_cons_cons. rewrite <- IH. done.
Qed.

(** The range of the joint's own keyframes. *)
Lemma getKeyframeRange_own j :
  getKeyframeRange false j =
  match Keyframes j with
  | [] => (0, 0)
  | first :: _ => (first.1, default first.1 ((λ k : Keyframe, k.1) <$> last (Keyframes j)))
  end.
Proof.
  destruct j as [? ? ? ? kfs ? ?]. simpl.
  destruct kfs as [|first rest]; [done|].
  rewrite List_last_last. by destruct (last (first :: rest)).
Qed.

Lemma getKeyframeRange_own_last j key :
  last (Keyframes j) = Some key → (getKeyframeRange false j).2 = key.1.
Proof.
  intros Hlast. rewrite getKeyframeRange_own.
  destruct (Keyframes j) as [|first rest]; [done|]. by rewrite Hlast.
Qed.

Lemma resolved_nonneg j frame : 0 ≤ resolved j frame.
Proof. unfold resolved. destruct (decide (frame < 0)); lia. Qed.

Lemma resolved_of_nonneg j frame : 0 ≤ frame → resolved j frame = frame.
Proof. intros. unfold resolved. by rewrite decide_False by lia. Qed.

(** A negative argument is sent behind the last keyframe. *)
Lemma resolved_negative_beyond j frame key :
  last (Keyframes j) = Some key → frame < 0 → key.1 < resolved j frame.
Proof.
  intros Hlast Hneg. unfold resolved. rewrite decide_True by done.
  rewrite (getKeyframeRange_own_last _ _ Hlast). lia.
Qed.

(** ** [getKeyframePose] *)

Lemma getKeyframePose_empty j frame :
  Keyframes j = [] → getKeyframePose j frame = Some Pose_default.
Proof. intros Hkfs. unfold getKeyframePose. by rewrite Hkfs. Qed.

(** Past the last keyframe: the pose of the last keyframe. *)
Lemma getKeyframePose_beyond j frame key :
  last (Keyframes j) = Some key →
  Forall (λ k, k.1 < resolved j frame) (Keyframes j) →
  getKeyframePose j frame = Some (duplicate key.2).
Proof.
  intros Hlast Hall. unfold getKeyframePose. fold (resolved j frame).
  destruct (decide (length (Keyframes j) = 0%nat)) as [Hnil|_].
  { apply nil_length_inv in Hnil. by rewrite Hnil in Hlast. }
  assert (bisect_left (Keyframes j).*1 (resolved j frame) = length (Keyframes j))
    as ->.
  { pose proof (bisect_left_frames_cut (Keyframes j) [] (resolved j frame) Hall
                  (Forall_nil_2 _)) as Hcut.
    by rewrite app_nil_r in Hcut. }
  rewrite decide_True by done. by rewrite Hlast.
Qed.

(** At a stored frame id: the pose stored there. *)
Lemma getKeyframePose_exact j frame k1 pose k2 :
  Keyframes j = k1 ++ (resolved j frame, pose) :: k2 →
  Forall (λ k, k.1 < resolved j frame) k1 →
  Forall (λ k, resolved j frame ≤ k.1) k2 →
  getKeyframePose j frame = Some (duplicate pose).
Proof.
  intros Hkfs Hk1 Hk2. unfold getKeyframePose. fold (resolved j frame).
  rewrite Hkfs.
  rewrite decide_False by (rewrite length_app; simpl; lia).
  rewrite bisect_left_frames_cut by (done || by constructor).
  rewrite decide_False by (rewrite length_app; simpl; lia).
  rewrite list_lookup_middle by done. simpl.
  by rewrite decide_True by done.
Qed.

(** Before the first keyframe: the pose of the last keyframe. *)
Lemma getKeyframePose_before j frame first rest key :
  Keyframes j = first :: rest →
  last (Keyframes j) = Some key →
  resolved j frame < first.1 →
  Forall (λ k, resolved j frame ≤ k.1) rest →
  getKeyframePose j frame = Some (duplicate key.2).
Proof.
  intros Hkfs Hlast Hfirst Hrest. unfold getKeyframePose.
  fold (resolved j frame). rewrite Hkfs in Hlast |- *.
  rewrite decide_False by done.
  rewrite (bisect_left_frames_cut [] (first :: rest));
    [|constructor|constructor; [lia|done]].
  rewrite decide_False by done. simpl.
  rewrite decide_False by lia. by rewrite Hlast.
Qed.

(** Between two neighbours: the interpolation the code computes. *)
Lemma getKeyframePose_interpolate j frame k1 before after k2 :
  Keyframes j = k1 ++ before :: after :: k2 →
  Forall (λ k, k.1 < resolved j frame) (k1 ++ [before]) →
  Forall (λ k, resolved j frame ≤ k.1) (after :: k2) →
  resolved j frame ≠ after.1 →
  getKeyframePose j frame =
  let weight := truediv (before.1 + resolved j frame) after.1 in
  Some (mkPose
          (lerp_vec3 (Position before.2) (Position after.2) weight)
          (lerp_quat (Rotation before.2) (Rotation after.2) weight)
          (lerp_vec3 (Scale before.2) (Scale after.2) weight)).
Proof.
  intros Hkfs Hsmall Hbig Hne. unfold getKeyframePose.
  fold (resolved j frame). pose proof (resolved_nonneg j frame) as Hnonneg.
  assert (resolved j frame ≤ after.1) as Hafter by by inversion Hbig.
  rewrite Hkfs. rewrite (cons_middle before k1), (assoc_L (++)).
  rewrite decide_False by (rewrite !length_app; simpl; lia).
  rewrite bisect_left_frames_cut by done.
  rewrite decide_False by (rewrite !length_app; simpl; lia).
  rewrite list_lookup_middle by done. simpl.
  rewrite decide_False by lia.
  rewrite decide_False by (rewrite length_app; simpl; lia).
  rewrite lookup_app_l by (rewrite length_app; simpl; lia).
  replace (length (k1 ++ [before]) - 1)%nat with (length k1)
    by (rewrite length_app; simpl; lia).
  rewrite list_lookup_middle by done. simpl.
  by rewrite decide_False by lia.
Qed.

(** No lookup leaves the list and no weight is divided by zero: the
    function returns a pose for every joint and every frame, whatever the
    order of the keyframes. *)
Lemma getKeyframePose_total j frame : is_Some (getKeyframePose j frame).
Proof.
  unfold getKeyframePose. fold (resolved j frame).
  pose proof (resolved_nonneg j frame) as Hnonneg.
  destruct (decide (length (Keyframes j) = 0%nat)) as [|Hlen]; [done|].
  assert (is_Some (last (Keyframes j))) as [lastkey Hlast].
  { apply last_is_Some. intros Hnil. by rewrite Hnil in Hlen. }
  destruct (bisect_left_bounds (Keyframes j).*1 (resolved j frame))
    as (Hle & Hbefore & Hat).
  set (index := bisect_left (Keyframes j).*1 (resolved j frame)) in *.
  rewrite length_fmap in Hle, Hat.
  destruct (decide (index = length (Keyframes j))) as [|Hin].
  { rewrite Hlast. done. }
  destruct Hat as [|(y & Hy & Hxy)]; [done|].
  rewrite list_lookup_fmap in Hy.
  destruct (Keyframes j !! index) as [after|] eqn:Hafter; [|done].
  simpl in Hy. injection Hy as <-. simpl.
  destruct (decide (after.1 = resolved j frame)); [done|].
  destruct (decide (index = 0%nat)) as [|Hpos].
  { rewrite Hlast. done. }
  destruct Hbefore as [|(y & Hy & _)]; [done|].
  rewrite list_lookup_fmap in Hy.
  destruct (Keyframes j !! (index - 1)%nat) as [before|]; [|done]. simpl.
  rewrite decide_False by lia. done.
Qed.

(** ** [insertKeyframePose] and [removeKeyframe] on an ascending list *)

Lemma ascending_locate (kfs : list Keyframe) (x : Z) :
  ascending kfs →
  ∃ k1 k2, Forall (λ k, k.1 < x) k1 ∧ Forall (λ k, x < k.1) k2 ∧
    ((∃ pose, kfs = k1 ++ (x, pose) :: k2) ∨ (kfs = k1 ++ k2 ∧ x ∉ kfs.*1)).
Proof.
  intros Hasc. destruct (ascending_cut kfs x Hasc) as (k1 & k2 & -> & Hk1 & Hk2).
  apply ascending_app in Hasc as (_ & _ & Hasc2).
  assert (x ∉ k1.*1) as Hnotin1.
  { intros (k & -> & Hk)%list_elem_of_fmap.
    rewrite Forall_forall in Hk1. specialize (Hk1 _ Hk). simpl in Hk1. lia. }
  destruct k2 as [|[y pose] k2].
  { exists k1, []. split_and!; [done|done|]. right. split; [done|].
    by rewrite app_nil_r. }
  apply ascending_cons in Hasc2 as [Hy _]. simpl in Hy.
  apply Forall_cons in Hk2 as [Hxy _]. simpl in Hxy.
  destruct (decide (y = x)) as [->|Hne].
  - exists k1, k2. split_and!; [done|done|]. left. by exists pose.
  - assert (Forall (λ k : Keyframe, x < k.1) ((y, pose) :: k2)) as Hbig.
    { constructor; [simpl; lia|].
      eapply Forall_impl; [exact Hy|]. simpl. intros; lia. }
    exists k1, ((y, pose) :: k2). split_and!; [done|done|]. right.
    split; [done|]. rewrite fmap_app, elem_of_app. intros [?|Hin]; [done|].
    apply list_elem_of_fmap in Hin as (k & -> & Hk).
    rewrite Forall_forall in Hbig. specialize (Hbig _ Hk). simpl in Hbig. lia.
Qed.

Lemma Forall_lt_le (x : Z) (kfs : list Keyframe) :
  Forall (λ k, x < k.1) kfs → Forall (λ k, x ≤ k.1) kfs.
Proof. intros Hall. eapply Forall_impl; [exact Hall|]. simpl. intros; lia. Qed.

(** A frame id that is not stored yet: the keyframe goes in at the cut. *)
Lemma insertKeyframePose_new frame pose j k1 k2 :
  Keyframes j = k1 ++ k2 →
  Forall (λ k, k.1 < resolved j frame) k1 →
  Forall (λ k, resolved j frame < k.1) k2 →
  insertKeyframePose frame pose j =
  Some (set_Keyframes (k1 ++ (resolved j frame, pose) :: k2) j).
Proof.
  intros Hkfs Hk1 Hk2. unfold insertKeyframePose. fold (resolved j frame).
  rewrite Hkfs.
  rewrite bisect_left_frames_cut by auto using Forall_lt_le.
  rewrite decide_True.
  - by rewrite insort_cut.
  - destruct k2 as [|k k2]; [left; by rewrite app_nil_r|right].
    rewrite list_lookup_middle by done. simpl.
    apply Forall_cons in Hk2 as [Hk _]. intros [= Heq]. lia.
Qed.

(** A frame id that is stored: its keyframe is replaced where it is. *)
Lemma insertKeyframePose_overwrite frame pose j k1 old k2 :
  Keyframes j = k1 ++ (resolved j frame, old) :: k2 →
  Forall (λ k, k.1 < resolved j frame) k1 →
  Forall (λ k, resolved j frame < k.1) k2 →
  insertKeyframePose frame pose j =
  Some (set_Keyframes (k1 ++ (resolved j frame, pose) :: k2) j).
Proof.
  intros Hkfs Hk1 Hk2. unfold insertKeyframePose. fold (resolved j frame).
  rewrite Hkfs.
  rewrite bisect_left_frames_cut
    by (try constructor; simpl; auto using Forall_lt_le; lia).
  rewrite decide_False.
  - do 2 f_equal. rewrite insert_app_r_alt by done.
    by rewrite Nat.sub_diag.
  - rewrite list_lookup_middle by done. simpl.
    rewrite length_app. simpl. intros [?|?]; [lia|done].
Qed.

Lemma Keyframes_removeKeyframe frame recursive j :
  Keyframes (removeKeyframe frame recursive j) =
  let index := bisect_left (Keyframes j).*1 frame in
  if decide (index ≠ length (Keyframes j) ∧
             (λ key : Keyframe, key.1) <$> Keyframes j !! index = Some frame)
  then delete index (Keyframes j) else Keyframes j.
Proof. by destruct j. Qed.

Lemma removeKeyframe_present frame recursive j k1 pose k2 :
  Keyframes j = k1 ++ (frame, pose) :: k2 →
  Forall (λ k, k.1 < frame) k1 → Forall (λ k, frame < k.1) k2 →
  Keyframes (removeKeyframe frame recursive j) = k1 ++ k2.
Proof.
  intros Hkfs Hk1 Hk2. rewrite Keyframes_removeKeyframe. simpl.
  rewrite Hkfs.
  rewrite bisect_left_frames_cut
    by (try constructor; simpl; auto using Forall_lt_le; lia).
  rewrite decide_True.
  - apply delete_middle.
  - rewrite list_lookup_middle by done. simpl.
    rewrite length_app. simpl. split; [lia|done].
Qed.

Lemma removeKeyframe_absent frame recursive j k1 k2 :
  Keyframes j = k1 ++ k2 →
  Forall (λ k, k.1 < frame) k1 → Forall (λ k, frame < k.1) k2 →
  Keyframes (removeKeyframe frame recursive j) = Keyframes j.
Proof.
  intros Hkfs Hk1 Hk2. rewrite Keyframes_removeKeyframe. simpl.
  rewrite Hkfs.
  rewrite bisect_left_frames_cut by auto using Forall_lt_le.
  rewrite decide_False; [done|].
  intros [Hlen Hat]. destruct k2 as [|k k2].
  - by rewrite app_nil_r in Hlen.
  - rewrite list_lookup_middle in Hat by done. simpl in Hat.
    apply Forall_cons in Hk2 as [Hk _]. injection Hat as Heq. lia.
Qed.

Lemma ascending_insert (k1 k2 : list Keyframe) x pose :
  ascending (k1 ++ k2) →
  Forall (λ k, k.1 < x) k1 → Forall (λ k, x < k.1) k2 →
  ascending (k1 ++ (x, pose) :: k2).
Proof.
  rewrite !ascending_app, ascending_cons.
  intros (Hcross & Hk1 & Hk2) Hsmall Hbig.
  rewrite Forall_forall in Hsmall. split_and!; [|done|done|done].
  intros a b Ha [->|Hb]%elem_of_cons.
  - by apply Hsmall.
  - by apply Hcross.
Qed.

Lemma ascending_delete (k1 k2 : list Keyframe) k :
  ascending (k1 ++ k :: k2) → ascending (k1 ++ k2).
Proof.
  rewrite !ascending_app, ascending_cons.
  intros (Hcross & Hk1 & _ & Hk2). split_and!; [|done|done].
  intros a b Ha Hb. apply Hcross; [done|]. by apply elem_of_cons; right.
Qed.

Lemma ascending_last (kfs : list Keyframe) key :
  ascending kfs → last kfs = Some key → Forall (λ k, k.1 ≤ key.1) kfs.
Proof.
  intros Hasc (kfs' & ->)%last_Some.
  apply ascending_app in Hasc as (Hcross & _ & _).
  apply Forall_app. split.
  - apply Forall_forall. intros k Hk.
    specialize (Hcross k key Hk). rewrite list_elem_of_singleton in Hcross.
    specialize (Hcross eq_refl). lia.
  - by constructor.
Qed.

Lemma Keyframes_set_Keyframes kfs j : Keyframes (set_Keyframes kfs j) = kfs.
Proof. done. Qed.

(** The call of [insertKeyframePose] returns on every ascending list, with
    the keyframe at the resolved frame id and the list still ascending. *)
Lemma insertKeyframePose_ascending frame pose j :
  ascending (Keyframes j) →
  ∃ k1 k2,
    Forall (λ k, k.1 < resolved j frame) k1 ∧
    Forall (λ k, resolved j frame < k.1) k2 ∧
    ((∃ old, Keyframes j = k1 ++ (resolved j frame, old) :: k2) ∨
     (Keyframes j = k1 ++ k2 ∧ resolved j frame ∉ (Keyframes j).*1)) ∧
    insertKeyframePose frame pose j =
      Some (set_Keyframes (k1 ++ (resolved j frame, pose) :: k2) j) ∧
    ascending (k1 ++ (resolved j frame, pose) :: k2).
Proof.
  intros Hasc.
  destruct (ascending_locate _ (resolved j frame) Hasc)
    as (k1 & k2 & Hk1 & Hk2 & Hcase).
  exists k1, k2. split_and!; [done|done|done| |].
  - destruct Hcase as [[old Hkfs]|[Hkfs _]].
    + by eapply insertKeyframePose_overwrite.
    + by apply insertKeyframePose_new.
  - destruct Hcase as [[old Hkfs]|[Hkfs _]]; rewrite Hkfs in Hasc.
    + apply ascending_insert; [|done|done]. by eapply ascending_delete.
    + by apply ascending_insert.
Qed.

Lemma removeKeyframe_ascending frame recursive j :
  ascending (Keyframes j) →
  ascending (Keyframes (removeKeyframe frame recursive j)).
Proof.
  intros Hasc.
  destruct (ascending_locate _ frame Hasc)
    as (k1 & k2 & Hk1 & Hk2 & [[old Hkfs]|[Hkfs _]]).
  - rewrite (removeKeyframe_present _ _ _ _ _ _ Hkfs Hk1 Hk2).
    rewrite Hkfs in Hasc. by eapply ascending_delete.
  - by rewrite (removeKeyframe_absent _ _ _ _ _ Hkfs Hk1 Hk2).
Qed.

Lemma getKeyframePose_resolved j frame :
  getKeyframePose j frame = getKeyframePose j (resolved j frame).
Proof.
  unfold getKeyframePose. fold (resolved j frame).
  fold (resolved j (resolved j frame)).
  by rewrite (resolved_of_nonneg j (resolved j frame)) by apply resolved_nonneg.
Qed.

Lemma insertKeyframePose_resolved frame pose j :
  insertKeyframePose frame pose j = insertKeyframePose (resolved j frame) pose j.
Proof.
  unfold insertKeyframePose. fold (resolved j frame).
  fold (resolved j (resolved j frame)).
  by rewrite (resolved_of_nonneg j (resolved j frame)) by apply resolved_nonneg.
Qed.

Lemma getKeyframeRange_false_set_Keyframes kfs j :
  getKeyframeRange false (set_Keyframes kfs j) =
  match kfs with
  | [] => (0, 0)
  | first :: _ => (first.1, (List.last kfs first).1)
  end.
Proof. by destruct kfs. Qed.

Lemma duplicate_eq (p : Pose) : duplicate p = p.
Proof. by destruct p. Qed.

(** ** The keyframe store: the claims *)

(** C4.  On a joint whose keyframe list is ascending (the invariant of the
    data model), [insertKeyframePose(f, p)] returns, and [getKeyframePose(f)]
    on the joint it leaves returns a pose whose position, rotation and scale
    are those of [p]; [f] may be negative. *)
Theorem insert_then_get frame pose j :
  ascending (Keyframes j) →
  ∃ j' got,
    insertKeyframePose frame pose j = Some j' ∧
    getKeyframePose j' frame = Some got ∧
    Position got = Position pose ∧
    Rotation got = Rotation pose ∧
    Scale got = Scale pose.
Proof.
  intros Hasc.
  destruct (insertKeyframePose_ascending frame pose j Hasc)
    as (k1 & k2 & Hk1 & Hk2 & Hcase & Hinsert & Hasc').
  set (j' := set_Keyframes (k1 ++ (resolved j frame, pose) :: k2) j) in *.
  exists j', (duplicate pose). split_and!; [done| |done|done|done].
  destruct (decide (frame < 0)) as [Hneg|Hnonneg].
  - (* the new keyframe lies behind every other one *)
    assert (k2 = []) as ->.
    { destruct k2 as [|k k2]; [done|exfalso].
      apply Forall_cons in Hk2 as [Hk _].
      assert (k ∈ Keyframes j) as Hin.
      { destruct Hcase as [[old ->]|[-> _]]; set_solver. }
      destruct (last (Keyframes j)) as [key|] eqn:Hlast.
      2:{ apply last_None in Hlast. rewrite Hlast in Hin. set_solver. }
      pose proof (resolved_negative_beyond j frame key Hlast Hneg).
      pose proof (ascending_last _ _ Hasc Hlast) as Hle.
      rewrite Forall_forall in Hle. specialize (Hle _ Hin). simpl in Hle. lia. }
    assert (last (Keyframes j') = Some (resolved j frame, pose)) as Hlast'.
    { subst j'. rewrite Keyframes_set_Keyframes. apply last_snoc. }
    pose proof (resolved_negative_beyond j' frame _ Hlast' Hneg) as Hbeyond.
    simpl in Hbeyond.
    rewrite (getKeyframePose_beyond j' frame _ Hlast'); [done|].
    subst j'. rewrite Keyframes_set_Keyframes in *.
    apply Forall_app. split.
    + eapply Forall_impl; [exact Hk1|]. simpl. intros; lia.
    + by repeat constructor.
  - assert (resolved j frame = frame) as Hr by (apply resolved_of_nonneg; lia).
    subst j'. rewrite Hr in *.
    apply (getKeyframePose_exact _ frame k1 pose k2);
      rewrite resolved_of_nonneg by lia; [done|done|by apply Forall_lt_le].
Qed.

(** C3, as amended.  On a joint whose keyframe list is ascending, for a frame
    [f >= 0] at which no keyframe is stored, [insertKeyframePose(f, p)]
    followed by [removeKeyframe(f)] leaves the keyframe list as it was before
    the insertion. *)
Theorem insert_then_remove frame pose recursive j :
  ascending (Keyframes j) →
  0 ≤ frame →
  frame ∉ (Keyframes j).*1 →
  ∃ j',
    insertKeyframePose frame pose j = Some j' ∧
    Keyframes (removeKeyframe frame recursive j') = Keyframes j.
Proof.
  intros Hasc Hnonneg Hnew.
  destruct (insertKeyframePose_ascending frame pose j Hasc)
    as (k1 & k2 & Hk1 & Hk2 & Hcase & Hinsert & _).
  rewrite (resolved_of_nonneg j frame Hnonneg) in *.
  eexists. split; [exact Hinsert|].
  destruct Hcase as [[old Hkfs]|[Hkfs _]].
  { exfalso. apply Hnew. rewrite Hkfs, fmap_app, fmap_cons. set_solver. }
  rewrite Hkfs. by eapply removeKeyframe_present.
Qed.

(** C5.  On a joint whose keyframe list is ascending and not empty, for a
    resolved frame id below the first stored one, [getKeyframePose] returns a
    copy of the pose of the last keyframe, which is also what it returns for
    every frame id past the last stored one. *)
Theorem getKeyframePose_before_first j frame first rest :
  Keyframes j = first :: rest →
  ascending (Keyframes j) →
  resolved j frame < first.1 →
  ∃ key,
    last (Keyframes j) = Some key ∧
    getKeyframePose j frame = Some (duplicate key.2) ∧
    ∀ frame', key.1 < resolved j frame' →
      getKeyframePose j frame' = getKeyframePose j frame.
Proof.
  intros Hkfs Hasc Hbefore.
  destruct (last (Keyframes j)) as [key|] eqn:Hlast.
  2:{ apply last_None in Hlast. by rewrite Hkfs in Hlast. }
  exists key.
  assert (getKeyframePose j frame = Some (duplicate key.2)) as Hget.
  { apply (getKeyframePose_before j frame first rest); [done|done|done|].
    rewrite Hkfs in Hasc. apply ascending_cons in Hasc as [Hrest _].
    eapply Forall_impl; [exact Hrest|]. simpl. intros; lia. }
  split_and!; [done|done|].
  intros frame' Hbeyond. rewrite Hget.
  apply getKeyframePose_beyond; [done|].
  eapply Forall_impl; [exact (ascending_last _ _ Hasc Hlast)|].
  simpl. intros; lia.
Qed.

(** C6.  On a joint whose keyframe list is ascending, for a resolved frame id
    strictly between the frame ids of two neighbouring keyframes [before]
    and [after], [getKeyframePose] returns the pose whose position, rotation
    and scale are the [lerp] of the two keyframes' values with the weight
    [(before.frame + frame) / after.frame].  In particular, with keyframes
    at the frames 0, 10 and 20, [getKeyframePose(5)] interpolates the first
    two with the weight [(0 + 5) / 10], and [getKeyframePose(25)] is the pose
    at frame 20. *)
Theorem getKeyframePose_between :
  (∀ j frame k1 before after k2,
     Keyframes j = k1 ++ before :: after :: k2 →
     ascending (Keyframes j) →
     before.1 < resolved j frame < after.1 →
     getKeyframePose j frame =
     let weight := truediv (before.1 + resolved j frame) after.1 in
     Some (mkPose
             (lerp_vec3 (Position before.2) (Position after.2) weight)
             (lerp_quat (Rotation before.2) (Rotation after.2) weight)
             (lerp_vec3 (Scale before.2) (Scale after.2) weight))) ∧
  (∀ j first second third,
     Keyframes j = [(0, first); (10, second); (20, third)] →
     getKeyframePose j 5 =
       (let weight := truediv (0 + 5) 10 in
        Some (mkPose
                (lerp_vec3 (Position first) (Position second) weight)
                (lerp_quat (Rotation first) (Rotation second) weight)
                (lerp_vec3 (Scale first) (Scale second) weight))) ∧
     getKeyframePose j 25 = Some (duplicate third)).
Proof.
  assert (∀ j frame k1 before after k2,
     Keyframes j = k1 ++ before :: after :: k2 →
     ascending (Keyframes j) →
     before.1 < resolved j frame < after.1 →
     getKeyframePose j frame =
     let weight := truediv (before.1 + resolved j frame) after.1 in
     Some (mkPose
             (lerp_vec3 (Position before.2) (Position after.2) weight)
             (lerp_quat (Rotation before.2) (Rotation after.2) weight)
             (lerp_vec3 (Scale before.2) (Scale after.2) weight))) as Hbetween.
  { intros j frame k1 before after k2 Hkfs Hasc [Hbefore Hafter].
    rewrite Hkfs in Hasc.
    apply ascending_app in Hasc as (Hcross & _ & Hasc).
    apply ascending_cons in Hasc as [_ Hasc].
    apply ascending_cons in Hasc as [Hk2 _].
    apply (getKeyframePose_interpolate j frame k1 before after k2);
      [done| | |lia].
    - apply Forall_app. split; [|by repeat constructor].
      apply Forall_forall. intros k Hk.
      assert (before ∈ before :: after :: k2) as Hin by apply list_elem_of_here.
      specialize (Hcross k before Hk Hin). lia.
    - constructor; [lia|].
      eapply Forall_impl; [exact Hk2|]. simpl. intros; lia. }
  split; [exact Hbetween|].
  intros j first second third Hkfs. split.
  - assert (ascending (Keyframes j)) as Hasc.
    { rewrite Hkfs. unfold ascending. simpl. repeat (constructor; try lia). }
    rewrite (Hbetween j 5 [] (0, first) (10, second) [(20, third)] Hkfs Hasc);
      rewrite resolved_of_nonneg by lia; [done|simpl; lia].
  - apply (getKeyframePose_beyond j 25 (20, third)).
    + by rewrite Hkfs.
    + rewrite Hkfs, resolved_of_nonneg by lia.
      repeat (constructor; try (simpl; lia)).
Qed.

(** Whenever [insertKeyframePose] returns, the pose is in the list, under
    the frame id the argument was resolved to. *)
Lemma insertKeyframePose_stores frame pose j j' :
  insertKeyframePose frame pose j = Some j' →
  (resolved j frame, pose) ∈ Keyframes j'.
Proof.
  unfold insertKeyframePose. fold (resolved j frame).
  set (index := bisect_left (Keyframes j).*1 (resolved j frame)).
  destruct (decide _) as [_|Hstored].
  - unfold insort.
    destruct (bisect_right_loop _ _ _ _ _) as [lo|]; simpl; [|done].
    intros [= <-]. rewrite Keyframes_set_Keyframes. unfold list_insert_at.
    apply elem_of_app. right. apply list_elem_of_here.
  - intros [= <-]. rewrite Keyframes_set_Keyframes.
    assert (index < length (Keyframes j))%nat as Hlt.
    { destruct (Keyframes j !! index) as [key|] eqn:Hkey.
      - by apply lookup_lt_Some in Hkey.
      - exfalso. apply Hstored. by right. }
    apply (list_elem_of_lookup_2 _ index).
    by apply list_lookup_insert_eq.
Qed.


(** C8.  On a joint whose keyframe list is ascending, every sequence of
    [insertKeyframePose] and [removeKeyframe] calls returns and leaves the
    keyframe list ascending: sorted by frame id, no frame id twice.  An
    insertion replaces the keyframe stored at the resolved frame id, where it
    is, or puts the new one between the smaller and the larger frame ids. *)
Theorem calls_preserve_ascending cs j :
  ascending (Keyframes j) →
  (∃ j', calls cs j = Some j' ∧ ascending (Keyframes j')) ∧
  (∀ frame pose, ∃ k1 k2,
     Forall (λ k, k.1 < resolved j frame) k1 ∧
     Forall (λ k, resolved j frame < k.1) k2 ∧
     ((∃ old, Keyframes j = k1 ++ (resolved j frame, old) :: k2) ∨
      (Keyframes j = k1 ++ k2 ∧ resolved j frame ∉ (Keyframes j).*1)) ∧
     insertKeyframePose frame pose j =
       Some (set_Keyframes (k1 ++ (resolved j frame, pose) :: k2) j)).
Proof.
  intros Hasc. split.
  - revert j Hasc. induction cs as [|c cs IH]; intros j Hasc; simpl.
    + by exists j.
    + destruct c as [frame pose|frame recursive]; simpl.
      * destruct (insertKeyframePose_ascending frame pose j Hasc)
          as (k1 & k2 & _ & _ & _ & -> & Hasc').
        simpl. by apply IH.
      * apply IH. by apply removeKeyframe_ascending.
  - intros frame pose.
    destruct (insertKeyframePose_ascending frame pose j Hasc)
      as (k1 & k2 & Hk1 & Hk2 & Hcase & Hinsert & _).
    by exists k1, k2.
Qed.

Lemma subtree_children j : subtree j = j :: (Children j ≫= subtree).
Proof. by destruct j. Qed.

Lemma subtree_frames_children j :
  subtree_frames j = (Keyframes j).*1 ++ (Children j ≫= subtree_frames).
Proof.
  unfold subtree_frames. rewrite subtree_children, bind_cons. f_equal.
  induction (Children j) as [|child children IH]; [done|].
  by rewrite !bind_cons, bind_app, IH.
Qed.

(** C10.  [removeKeyframe] resolves no negative frame: when the frame ids
    stored in the subtree are all non-negative, [removeKeyframe(f,
    recursive=True)] with [f < 0] leaves the joint and every descendant, and
    so every keyframe list, as they are. *)
Theorem removeKeyframe_negative_noop frame j :
  frame < 0 →
  Forall (λ f, 0 ≤ f) (subtree_frames j) →
  removeKeyframe frame true j = j.
Proof.
  intros Hneg.
  induction j as [position rotation scale rest kfs cur children IH]
    using Joint_ind.
  rewrite subtree_frames_children. simpl.
  intros [Hown Hbelow]%Forall_app.
  assert (bisect_left kfs.*1 frame = 0%nat) as Hindex.
  { pose proof (bisect_left_cut [] kfs.*1 frame (Forall_nil_2 _)) as Hcut.
    simpl in Hcut. apply Hcut.
    eapply Forall_impl; [exact Hown|]. simpl. intros; lia. }
  rewrite Hindex. f_equal.
  - rewrite decide_False; [done|]. intros [_ Hat].
    destruct kfs as [|k kfs]; [done|]. simpl in Hat.
    apply Forall_cons in Hown as [Hk _]. simpl in Hk.
    injection Hat as Heq. lia.
  - rewrite Forall_bind in Hbelow.
    induction children as [|child children IHchildren]; [done|].
    apply Forall_cons in IH as [IHchild IH].
    apply Forall_cons in Hbelow as [Hchild Hbelow].
    rewrite fmap_cons. f_equal; [by apply IHchild|by apply IHchildren].
Qed.

(** ** [getKeyframeRange] over the subtree *)

Lemma minimum_swap x y (l : list Z) :
  Z.min y (minimum x l) = Z.min x (minimum y l).
Proof. unfold minimum. induction l as [|a l IH]; simpl; lia. Qed.

Lemma maximum_swap x y (l : list Z) :
  Z.max y (maximum x l) = Z.max x (maximum y l).
Proof. unfold maximum. induction l as [|a l IH]; simpl; lia. Qed.

Lemma minimum_app x (l : list Z) y l' :
  minimum x (l ++ y :: l') = Z.min (minimum x l) (minimum y l').
Proof.
  induction l as [|a l IH].
  - apply minimum_swap.
  - unfold minimum in *. simpl. rewrite IH. lia.
Qed.

Lemma maximum_app x (l : list Z) y l' :
  maximum x (l ++ y :: l') = Z.max (maximum x l) (maximum y l').
Proof.
  induction l as [|a l IH].
  - apply maximum_swap.
  - unfold maximum in *. simpl. rewrite IH. lia.
Qed.

(** [minimum] and [maximum] are what their names say. *)
Lemma minimum_least x (l : list Z) :
  minimum x l ∈ x :: l ∧ Forall (λ y, minimum x l ≤ y) (x :: l).
Proof.
  unfold minimum. induction l as [|a l [Hin Hall]]; simpl.
  - split; [apply list_elem_of_here|]. repeat constructor. lia.
  - apply Forall_cons in Hall as [Hx Hall]. split.
    + destruct (Z.min_spec a (foldr Z.min x l)) as [[_ Heq]|[_ Heq]]; rewrite Heq.
      all: try apply list_elem_of_further, list_elem_of_here.
      all: apply elem_of_cons in Hin as [Hhere|Hthere].
      all: try (rewrite Hhere; apply list_elem_of_here).
      all: by do 2 apply list_elem_of_further.
    + repeat constructor; try lia.
      eapply Forall_impl; [exact Hall|]. simpl. intros; lia.
Qed.

Lemma maximum_greatest x (l : list Z) :
  maximum x l ∈ x :: l ∧ Forall (λ y, y ≤ maximum x l) (x :: l).
Proof.
  unfold maximum. induction l as [|a l [Hin Hall]]; simpl.
  - split; [apply list_elem_of_here|]. repeat constructor. lia.
  - apply Forall_cons in Hall as [Hx Hall]. split.
    + destruct (Z.max_spec a (foldr Z.max x l)) as [[_ Heq]|[_ Heq]]; rewrite Heq.
      all: try apply list_elem_of_further, list_elem_of_here.
      all: apply elem_of_cons in Hin as [Hhere|Hthere].
      all: try (rewrite Hhere; apply list_elem_of_here).
      all: by do 2 apply list_elem_of_further.
    + repeat constructor; try lia.
      eapply Forall_impl; [exact Hall|]. simpl. intros; lia.
Qed.

(** On an ascending list the first frame id is the smallest and the last
    one the largest. *)
Lemma ascending_minimum (first : Keyframe) (rest : list Keyframe) :
  ascending (first :: rest) → minimum first.1 rest.*1 = first.1.
Proof.
  intros [Hrest _]%ascending_cons.
  destruct (minimum_least first.1 rest.*1) as [Hin Hall].
  apply Forall_cons in Hall as [Hle _].
  apply elem_of_cons in Hin as [|Hin]; [done|].
  apply list_elem_of_fmap in Hin as (k & Heq & Hk).
  rewrite Forall_forall in Hrest. specialize (Hrest _ Hk). simpl in Hrest. lia.
Qed.

Lemma ascending_maximum (first : Keyframe) (rest : list Keyframe) key :
  ascending (first :: rest) → last (first :: rest) = Some key →
  maximum first.1 rest.*1 = key.1.
Proof.
  intros Hasc Hlast.
  pose proof (ascending_last _ _ Hasc Hlast) as Hle.
  destruct (maximum_greatest first.1 rest.*1) as [Hin Hall].
  change (first.1 :: rest.*1) with (first :: rest).*1 in Hin, Hall.
  apply list_elem_of_fmap in Hin as (k & Heq & Hk).
  rewrite Forall_forall in Hle. specialize (Hle _ Hk). simpl in Hle.
  rewrite Forall_fmap, Forall_forall in Hall.
  specialize (Hall key (last_Some_elem_of _ _ Hlast)). simpl in Hall. lia.
Qed.

Lemma getKeyframeRange_children j :
  getKeyframeRange true j =
  match Keyframes j with
  | [] => (0, 0)
  | first :: _ =>
      fold_left
        (λ range child,
           let childRange := getKeyframeRange true child in
           (Z.min range.1 childRange.1, Z.max range.2 childRange.2))
        (Children j) (first.1, (List.last (Keyframes j) first).1)
  end.
Proof. by destruct j. Qed.

(** The loop over the children widens the range by the frame ids of their
    subtrees, when each child reports the range of its own subtree. *)
Lemma widen_children (children : list Joint) x (l : list Z) :
  Forall (λ child, ∃ y l',
            subtree_frames child = y :: l' ∧
            getKeyframeRange true child = (minimum y l', maximum y l'))
         children →
  fold_left
    (λ range child,
       let childRange := getKeyframeRange true child in
       (Z.min range.1 childRange.1, Z.max range.2 childRange.2))
    children (minimum x l, maximum x l) =
  (minimum x (l ++ (children ≫= subtree_frames)),
   maximum x (l ++ (children ≫= subtree_frames))).
Proof.
  revert l. induction children as [|child children IH]; intros l Hchildren.
  - simpl. by rewrite app_nil_r.
  - apply Forall_cons in Hchildren as [(y & l' & Hframes & Hrange) Hchildren].
    rewrite bind_cons, Hframes. cbn [fold_left]. rewrite Hrange. cbn [fst snd].
    rewrite <- minimum_app, <- maximum_app.
    etrans; [exact (IH (l ++ y :: l') Hchildren)|].
    by rewrite <- (assoc_L (++)).
Qed.

Lemma getKeyframeRange_subtree j :
  Forall (λ j', Keyframes j' ≠ [] ∧ ascending (Keyframes j')) (subtree j) →
  ∃ x l,
    subtree_frames j = x :: l ∧
    getKeyframeRange true j = (minimum x l, maximum x l).
Proof.
  induction j as [position rotation scale rest kfs cur children IH]
    using Joint_ind.
  rewrite subtree_children, subtree_frames_children, getKeyframeRange_children.
  cbn [Keyframes Children].
  intros [[Hne Hasc] Hbelow]%Forall_cons.
  destruct kfs as [|first kfs]; [done|].
  exists first.1, (kfs.*1 ++ (children ≫= subtree_frames)).
  split; [done|].
  destruct (last (first :: kfs)) as [key|] eqn:Hlast.
  2:{ by apply last_None in Hlast. }
  rewrite List_last_last, Hlast. simpl.
  rewrite <- (ascending_minimum first kfs Hasc) at 1.
  rewrite <- (ascending_maximum first kfs key Hasc Hlast).
  apply widen_children.
  rewrite Forall_bind in Hbelow.
  induction children as [|child children IHchildren]; [constructor|].
  apply Forall_cons in IH as [IHchild IH].
  apply Forall_cons in Hbelow as [Hchild Hbelow].
  constructor; [by apply IHchild|by apply IHchildren].
Qed.

(** C2, as amended.  [getKeyframeRange(includeChildren=False)] returns the
    first and the last frame id of the joint's own keyframe list, or [(0, 0)]
    when that list is empty.  [getKeyframeRange(includeChildren=True)], on a
    subtree in which every joint has at least one keyframe and an ascending
    list, returns the smallest and the largest frame id stored in the
    subtree. *)
Theorem getKeyframeRange_spec j :
  (Keyframes j = [] → getKeyframeRange false j = (0, 0)) ∧
  (∀ first rest key,
     Keyframes j = first :: rest → last (Keyframes j) = Some key →
     getKeyframeRange false j = (first.1, key.1)) ∧
  (Forall (λ j', Keyframes j' ≠ [] ∧ ascending (Keyframes j')) (subtree j) →
   ∃ x l,
     subtree_frames j = x :: l ∧
     getKeyframeRange true j = (minimum x l, maximum x l)).
Proof.
  split_and!.
  - intros Hnil. by rewrite getKeyframeRange_own, Hnil.
  - intros first rest key Hkfs Hlast.
    rewrite getKeyframeRange_own, Hlast. by rewrite Hkfs.
  - apply getKeyframeRange_subtree.
Qed.

(** ** Rest-pose rebasing *)

Lemma set_Children_Children j : set_Children (Children j) j = j.
Proof. by destruct j. Qed.

Lemma height_children j :
  height j = foldr (λ child h, Nat.max (S (height child)) h) 0%nat (Children j).
Proof. by destruct j. Qed.

Lemma height_child j child : child ∈ Children j → (height child < height j)%nat.
Proof.
  rewrite (height_children j).
  induction (Children j) as [|c cs IH]; simpl.
  - by intros ?%elem_of_nil.
  - intros [->|Hin]%elem_of_cons; [lia|]. specialize (IH Hin). lia.
Qed.

Lemma height_same_children j j' : Children j = Children j' → height j = height j'.
Proof. intros Heq. by rewrite (height_children j), (height_children j'), Heq. Qed.

Lemma keeps_shape_height body j child :
  keeps_shape body → child ∈ Children (body j) → (height child < height j)%nat.
Proof.
  intros Hshape Hin. destruct (Hshape j) as (g & Hchildren & Hg).
  rewrite Hchildren in Hin. apply list_elem_of_fmap in Hin as (c & -> & Hc).
  rewrite (height_same_children (g c) c (Hg c)). by apply height_child.
Qed.

Lemma descend_S body fuel j :
  descend body (S fuel) j =
  set_Children (descend body fuel <$> Children (body j)) (body j).
Proof. done. Qed.

(** Fuel beyond the height of the joint changes nothing: the descent has
    reached the leaves. *)
Lemma descend_fuel body fuel fuel' j :
  keeps_shape body →
  (height j ≤ fuel)%nat → (height j ≤ fuel')%nat →
  descend body fuel j = descend body fuel' j.
Proof.
  intros Hshape. revert fuel' j.
  assert (∀ n j, height j = 0%nat → descend body n j = body j) as Hleaf.
  { intros [|n] j Hheight; [done|]. rewrite descend_S.
    destruct (Children (body j)) as [|child children] eqn:Hchildren.
    - simpl. rewrite <- Hchildren.
      apply set_Children_Children.
    - pose proof (keeps_shape_height body j child Hshape) as Hlt.
      rewrite Hchildren in Hlt. specialize (Hlt (list_elem_of_here _ _)). lia. }
  induction fuel as [|fuel IH]; intros fuel' j Hfuel Hfuel'.
  - rewrite !Hleaf by lia. done.
  - destruct fuel' as [|fuel']; [rewrite !Hleaf by lia; done|].
    rewrite !descend_S. f_equal. apply list_fmap_ext. intros i child Hchild.
    apply list_elem_of_lookup_2 in Hchild.
    pose proof (keeps_shape_height body j child Hshape Hchild).
    apply IH; lia.
Qed.

Lemma applyRestposePosition_self_keeps_shape position :
  keeps_shape (applyRestposePosition_self position).
Proof.
  intros [? ? ? ? ? ? children].
  eexists (λ child,
    writeRestPose false None
      (set_properties
         (Transform_applyPosition_child position _
            (Joint_properties (loadRestPose false child)))
         (loadRestPose false child))).
  split.
  - unfold applyRestposePosition_self, applyPosition. simpl.
    rewrite <- !list_fmap_compose. done.
  - by intros [].
Qed.

Lemma applyRestposeRotation_self_keeps_shape rotation :
  keeps_shape (applyRestposeRotation_self rotation).
Proof.
  intros [? ? ? ? ? ? children].
  eexists (λ child,
    writeRestPose false None
      (set_properties
         (Transform_applyRotation_child rotation _
            (Joint_properties (loadRestPose false child)))
         (loadRestPose false child))).
  split.
  - unfold applyRestposeRotation_self, applyRotation. simpl.
    rewrite <- !list_fmap_compose. done.
  - by intros [].
Qed.

Lemma Keyframes_descend body fuel j :
  Keyframes (descend body fuel j) = Keyframes (body j).
Proof. by destruct fuel. Qed.

Lemma Keyframes_applyRestposePosition_self position j :
  Keyframes (applyRestposePosition_self position j) = Keyframes j.
Proof. by destruct j. Qed.

(** What the code does: [applyRestposePosition] writes the rest pose with
    [keep=None], so the keyframes of the joint stay as they are. *)
Lemma applyRestposePosition_keeps_keyframes position recursive j :
  Keyframes (applyRestposePosition position recursive j) = Keyframes j.
Proof.
  unfold applyRestposePosition. destruct recursive.
  - by rewrite Keyframes_descend, Keyframes_applyRestposePosition_self.
  - apply Keyframes_applyRestposePosition_self.
Qed.

(** What [writeRestPose] does to the keyframes for a [keep] that is not
    empty: every pose goes through [rebase]. *)
Lemma Keyframes_writeRestPose recursive name names j :
  Keyframes (writeRestPose recursive (Some (name :: names)) j) =
  (λ key : Keyframe, (key.1, rebase (name :: names) j key.2)) <$> Keyframes j.
Proof. by destruct j. Qed.

Lemma Keyframes_writeRestPose_None recursive j :
  Keyframes (writeRestPose recursive None j) = Keyframes j.
Proof. by destruct j. Qed.

(** The sibling [applyRestposeRotation] does rebase the positions of the
    keyframes. *)
Lemma applyRestposeRotation_rebases_keyframes rotation j :
  Keyframes (applyRestposeRotation rotation false j) =
  (λ key : Keyframe,
     (key.1,
      rebase ["position"]
        (applyRotation rotation
           (set_Children (loadRestPose false <$> Children (loadRestPose false j))
              (loadRestPose false j)))
        key.2)) <$> Keyframes j.
Proof. by destruct j. Qed.

End Properties.

(** ** Pose objects: who shares what *)

Section ObjectProperties.
Context `{Glm}.

(** The setter stores a copy: an assignment to the caller's object leaves
    the stored rest pose as it was. *)
Lemma RestPose_setter_independent value self (σ : heap) self' σ' p' :
  RestPose_setter value self σ = Some (self', σ') →
  RestPose_getter self' σ' = duplicate <$> σ !! value ∧
  RestPose_getter self' (mutate value p' σ') = RestPose_getter self' σ'.
Proof.
  unfold RestPose_setter, duplicate_at, new_Pose, RestPose_getter.
  destruct (σ !! value) as [p|] eqn:Hvalue; [|done]. simpl.
  intros [= <- <-]. simpl.
  assert (fresh (dom σ) ≠ value) as Hfresh.
  { intros Heq. apply (is_fresh (dom σ)). rewrite Heq.
    apply elem_of_dom. by eexists. }
  split; [by rewrite lookup_insert_eq|].
  unfold mutate. rewrite lookup_insert_ne by done. rewrite Hvalue.
  rewrite decide_True by by eexists.
  by rewrite lookup_insert_ne by done.
Qed.

(** The constructor stores the caller's object itself: an assignment to it
    is an assignment to the rest pose of the joint. *)
Lemma Joint_init_shares value (σ : heap) p' :
  is_Some (σ !! value) →
  let '(self, σ') := Joint_init (Some value) σ in
  RestPose_getter self σ' = σ !! value ∧
  RestPose_getter self (mutate value p' σ') = Some p'.
Proof.
  intros Hvalue. simpl. unfold RestPose_getter, mutate. simpl.
  split; [done|]. rewrite decide_True by done. by rewrite lookup_insert_eq.
Qed.

End ObjectProperties.

(** * The claims on concrete joints *)

Section Concrete.
Import Exact Example.

(** C1.  The claim is that [applyRestposePosition] writes the joint's rest
    pose with the three channels kept, so that its keyframes are rebased and
    its animated pose stays.  The code writes it with [keep=None]: for every
    joint the keyframes stay as they are.  On a joint with rest pose at
    [(1,0,0)] and a keyframe moving by [(2,0,0)], the pose at frame 0 is at
    [(3,0,0)] before [applyRestposePosition(None, recursive=False)] and at
    [(2,0,0)] after it; writing the rest pose with the three channels kept
    would have rebased the keyframe to [(3,0,0)]. *)
Theorem applyRestposePosition_skips_rebase :
  (∀ (G : Glm) position recursive (j : @Joint G),
     Keyframes (applyRestposePosition position recursive j) = Keyframes j) ∧
  Joint_Position <$> loadPose 0 false shifted = Some (3%Q, 0%Q, 0%Q) ∧
  Keyframes (applyRestposePosition None false shifted) = [(0, at_x 2)] ∧
  Joint_Position <$> loadPose 0 false (applyRestposePosition None false shifted)
    = Some (2%Q, 0%Q, 0%Q) ∧
  Keyframes
    (writeRestPose false (Some ["position"; "rotation"; "scale"])
       (before_write None shifted)) = [(0, at_x 3)].
Proof.
  split.
  - intros G position recursive j.
    apply applyRestposePosition_keeps_keyframes.
  - split_and!; vm_compute; reflexivity.
Qed.

(** C2, the claim as stated fails.  A child without keyframes widens the
    range to frame 0, and a joint without keyframes reports [(0, 0)] whatever
    its children store. *)
Lemma getKeyframeRange_not_subtree_range :
  (subtree_frames bare_child = [3; 7] ∧
   getKeyframeRange true bare_child ≠ (minimum 3 [7], maximum 3 [7])) ∧
  (subtree_frames bare_parent = [5; 9] ∧
   getKeyframeRange true bare_parent ≠ (minimum 5 [9], maximum 5 [9])).
Proof. split_and!; vm_compute; congruence. Qed.

Lemma getKeyframeRange_spec_witness :
  getKeyframeRange false bare_parent = (0, 0) ∧
  getKeyframeRange false parent = (3, 12) ∧
  Forall (λ j', Keyframes j' ≠ [] ∧ ascending (Keyframes j')) (subtree parent) ∧
  ∃ x l,
    subtree_frames parent = x :: l ∧
    getKeyframeRange true parent = (minimum x l, maximum x l).
Proof.
  assert (Forall (λ j', Keyframes j' ≠ [] ∧ ascending (Keyframes j'))
            (subtree parent)) as Hsubtree.
  { repeat constructor; try done; simpl; lia. }
  destruct (getKeyframeRange_spec bare_parent) as (Hempty & _ & _).
  destruct (getKeyframeRange_spec parent) as (_ & Hown & Hbelow).
  split_and!.
  - apply Hempty. reflexivity.
  - apply (Hown (3, at_x 1) [(7, at_x 2); (12, at_x 3)] (12, at_x 3));
      reflexivity.
  - exact Hsubtree.
  - apply Hbelow. exact Hsubtree.
Defined.

(** C3, the claim as stated fails, also on an ascending list.  At a frame
    that holds a keyframe the insertion overwrites it and the removal takes
    it out; for a negative frame the insertion goes to the resolved frame
    and the removal finds nothing at the negative one. *)
Lemma overwriting_or_negative_insert_not_undone :
  ascending (Keyframes three) ∧
  (∃ j', insertKeyframePose 10 (at_x 9) three = Some j' ∧
         Keyframes (removeKeyframe 10 false j') ≠ Keyframes three) ∧
  (∃ j', insertKeyframePose (-1) (at_x 9) three = Some j' ∧
         Keyframes (removeKeyframe (-1) false j') ≠ Keyframes three).
Proof.
  split_and!.
  - ascending_by_computation.
  - eexists. split; [reflexivity|]. vm_compute. congruence.
  - eexists. split; [reflexivity|]. vm_compute. congruence.
Qed.

Lemma insert_then_remove_witness :
  ascending (Keyframes three) ∧ 0 ≤ 5 ∧ (5 ∉ (Keyframes three).*1) ∧
  ∃ j',
    insertKeyframePose 5 (at_x 9) three = Some j' ∧
    Keyframes (removeKeyframe 5 true j') = Keyframes three.
Proof.
  assert (ascending (Keyframes three)) as Hasc by ascending_by_computation.
  assert (5 ∉ (Keyframes three).*1) as Hnew.
  { simpl. rewrite !elem_of_cons, elem_of_nil. lia. }
  split_and!; [exact Hasc|lia|exact Hnew|].
  apply (insert_then_remove 5 (at_x 9) true three Hasc); [lia|exact Hnew].
Defined.

Lemma insert_then_get_witness :
  ascending (Keyframes three) ∧
  ∃ j' got,
    insertKeyframePose (-2) (at_x 9) three = Some j' ∧
    getKeyframePose j' (-2) = Some got ∧
    Position got = Position (at_x 9) ∧
    Rotation got = Rotation (at_x 9) ∧
    Scale got = Scale (at_x 9).
Proof.
  assert (ascending (Keyframes three)) as Hasc by ascending_by_computation.
  split; [exact Hasc|].
  apply (insert_then_get (-2) (at_x 9) three Hasc).
Defined.

Lemma getKeyframePose_before_first_witness :
  Keyframes parent = (3, at_x 1) :: [(7, at_x 2); (12, at_x 3)] ∧
  ascending (Keyframes parent) ∧
  resolved parent 1 < 3 ∧
  ∃ key,
    last (Keyframes parent) = Some key ∧
    getKeyframePose parent 1 = Some (duplicate key.2) ∧
    ∀ frame', key.1 < resolved parent frame' →
      getKeyframePose parent frame' = getKeyframePose parent 1.
Proof.
  assert (ascending (Keyframes parent)) as Hasc by ascending_by_computation.
  assert (resolved parent 1 < 3) as Hbefore by (vm_compute; reflexivity).
  split_and!; [reflexivity|exact Hasc|exact Hbefore|].
  apply (getKeyframePose_before_first parent 1 (3, at_x 1)
           [(7, at_x 2); (12, at_x 3)] eq_refl Hasc Hbefore).
Defined.

(** With keyframes at the frames 0, 10 and 20: frame 5 is interpolated
    between the frames 0 and 10 with the weight (0 + 5) / 10 = 1/2, and frame
    25 has the pose of frame 20. *)
Lemma getKeyframePose_between_witness :
  Keyframes three = [] ++ (0, at_x 1) :: (10, at_x 2) :: [(20, at_x 4)] ∧
  ascending (Keyframes three) ∧
  0 < resolved three 5 < 10 ∧
  getKeyframePose three 5 =
    Some (mkPose
            (lerp_vec3 (Position (at_x 1)) (Position (at_x 2)) (truediv (0 + 5) 10))
            (lerp_quat (Rotation (at_x 1)) (Rotation (at_x 2)) (truediv (0 + 5) 10))
            (lerp_vec3 (Scale (at_x 1)) (Scale (at_x 2)) (truediv (0 + 5) 10))) ∧
  truediv (0 + 5) 10 = (1 # 2)%Q ∧
  getKeyframePose three 25 = Some (at_x 4).
Proof.
  assert (ascending (Keyframes three)) as Hasc by ascending_by_computation.
  assert (0 < resolved three 5 < 10) as Hbetween by (vm_compute; done).
  split; [reflexivity|]. split; [exact Hasc|]. split; [exact Hbetween|].
  split; [|split; reflexivity].
  exact (proj1 getKeyframePose_between three 5 [] (0, at_x 1) (10, at_x 2)
           [(20, at_x 4)] eq_refl Hasc Hbetween).
Defined.


Lemma calls_preserve_ascending_witness :
  ascending (Keyframes three) ∧
  ∃ j',
    calls [call_insertKeyframePose 5 (at_x 9);
           call_removeKeyframe 10 false;
           call_insertKeyframePose (-1) (at_x 8);
           call_insertKeyframePose 5 (at_x 7);
           call_removeKeyframe 11 true] three = Some j' ∧
    ascending (Keyframes j').
Proof.
  assert (ascending (Keyframes three)) as Hasc by ascending_by_computation.
  split; [exact Hasc|].
  apply (proj1 (calls_preserve_ascending _ three Hasc)).
Defined.

Lemma removeKeyframe_negative_noop_witness :
  -3 < 0 ∧ Forall (λ f, 0 ≤ f) (subtree_frames parent) ∧
  removeKeyframe (-3) true parent = parent.
Proof.
  assert (Forall (λ f, 0 ≤ f) (subtree_frames parent)) as Hframes.
  { repeat (constructor; try (simpl; lia)). }
  split_and!; [lia|exact Hframes|].
  apply (removeKeyframe_negative_noop (-3) parent); [lia|exact Hframes].
Defined.

(** C9.  A [Pose] object handed to the constructor is the rest pose of the
    joint: an assignment to the object is read back through the joint.  The
    setter, on the same object, stores a copy that the assignment leaves
    alone. *)
Theorem Joint_init_aliases_restPose :
  (let '(self, σ) := Joint_init (Some 0%nat) one_pose in
   RestPose_getter self σ = Some (at_x 1) ∧
   RestPose_getter self (mutate 0%nat (at_x 9) σ) = Some (at_x 9)) ∧
  (∃ self σ,
     RestPose_setter 0%nat (mkJointObject 7) one_pose = Some (self, σ) ∧
     RestPose_getter self σ = Some (at_x 1) ∧
     RestPose_getter self (mutate 0%nat (at_x 9) σ) = Some (at_x 1)).
Proof.
  assert (one_pose !! 0%nat = Some (at_x 1)) as Hpose
    by apply lookup_singleton_eq.
  split.
  - assert (is_Some (one_pose !! 0%nat)) as Hsome by by eexists.
    pose proof (Joint_init_shares 0%nat one_pose (at_x 9) Hsome) as Hshares.
    unfold Joint_init in Hshares |- *. destruct Hshares as [Hread Hwritten].
    split; [by rewrite Hread|exact Hwritten].
  - destruct (RestPose_setter 0%nat (mkJointObject 7) one_pose)
      as [[self σ]|] eqn:Hset.
    2:{ unfold RestPose_setter, duplicate_at in Hset.
        by rewrite Hpose in Hset. }
    exists self, σ.
    destruct (RestPose_setter_independent _ _ _ _ _ (at_x 9) Hset)
      as [Hread Hkept].
    rewrite Hpose in Hread. split_and!; [done|done|]. by rewrite Hkept.
Qed.

End Concrete.

(** * Further properties of the keyframe store *)

Section StoreProperties.
Context `{Glm}.

Lemma filter_all {A} (P : A → Prop) `{∀ x, Decision (P x)} (l : list A) :
  Forall P l → filter P l = l.
Proof.
  induction 1 as [|x l Hx _ IH]; [done|].
  by rewrite filter_cons_True, IH.
Qed.

Lemma filter_none {A} (P : A → Prop) `{∀ x, Decision (P x)} (l : list A) :
  Forall (λ x, ¬ P x) l → filter P l = [].
Proof.
  induction 1 as [|x l Hx _ IH]; [done|].
  by rewrite filter_cons_False.
Qed.

(** The two sides of the cut at [x], as filters. *)
Lemma filter_below_cut (k1 k2 : list Keyframe) x :
  Forall (λ k, k.1 < x) k1 → Forall (λ k, x ≤ k.1) k2 →
  filter (λ k : Keyframe, k.1 < x) (k1 ++ k2) = k1.
Proof.
  intros Hk1 Hk2. rewrite filter_app, (filter_all _ k1 Hk1), filter_none.
  - apply app_nil_r.
  - eapply Forall_impl; [exact Hk2|]. simpl. intros; lia.
Qed.

Lemma filter_above_cut (k1 k2 : list Keyframe) x :
  Forall (λ k, k.1 ≤ x) k1 → Forall (λ k, x < k.1) k2 →
  filter (λ k : Keyframe, x < k.1) (k1 ++ k2) = k2.
Proof.
  intros Hk1 Hk2. rewrite filter_app, (filter_all _ k2 Hk2), filter_none.
  - done.
  - eapply Forall_impl; [exact Hk1|]. simpl. intros; lia.
Qed.

Lemma Forall_lt_le_below (x : Z) (kfs : list Keyframe) :
  Forall (λ k, k.1 < x) kfs → Forall (λ k, k.1 ≤ x) kfs.
Proof. intros Hall. eapply Forall_impl; [exact Hall|]. simpl. intros; lia. Qed.

(** The list [insertKeyframePose] leaves, read off the old one: the
    keyframes before the resolved frame, the new keyframe, the keyframes
    behind it. *)
Lemma insertKeyframePose_filter frame pose j :
  ascending (Keyframes j) →
  insertKeyframePose frame pose j =
  Some (set_Keyframes
          (filter (λ k : Keyframe, k.1 < resolved j frame) (Keyframes j)
           ++ (resolved j frame, pose)
           :: filter (λ k : Keyframe, resolved j frame < k.1) (Keyframes j)) j).
Proof.
  intros Hasc.
  destruct (insertKeyframePose_ascending frame pose j Hasc)
    as (k1 & k2 & Hk1 & Hk2 & Hcase & -> & _).
  do 3 f_equal.
  - symmetry.
    destruct Hcase as [[old ->]|[-> _]]; apply filter_below_cut; try done.
    + constructor; [simpl; lia|by apply Forall_lt_le].
    + by apply Forall_lt_le.
  - f_equal. symmetry. destruct Hcase as [[old ->]|[-> _]].
    + rewrite (cons_middle _ k1 k2), (assoc_L (++)).
      apply filter_above_cut; [|done].
      apply Forall_app. split; [by apply Forall_lt_le_below|].
      repeat constructor. simpl. lia.
    + apply filter_above_cut; [by apply Forall_lt_le_below|done].
Qed.

(** In an ascending list a frame id has one pose. *)
Lemma ascending_stored (kfs : list Keyframe) frame pose :
  ascending kfs → (frame, pose) ∈ kfs →
  ∃ k1 k2, kfs = k1 ++ (frame, pose) :: k2 ∧
    Forall (λ k, k.1 < frame) k1 ∧ Forall (λ k, frame < k.1) k2.
Proof.
  intros Hasc Hin.
  destruct (ascending_locate kfs frame Hasc)
    as (k1 & k2 & Hk1 & Hk2 & [[old ->]|[-> Hnot]]).
  - exists k1, k2. split_and!; [|done|done].
    rewrite elem_of_app, elem_of_cons in Hin.
    destruct Hin as [Hin|[Heq|Hin]].
    + rewrite Forall_forall in Hk1. specialize (Hk1 _ Hin). simpl in Hk1. lia.
    + by injection Heq as ->.
    + rewrite Forall_forall in Hk2. specialize (Hk2 _ Hin). simpl in Hk2. lia.
  - exfalso. apply Hnot. apply list_elem_of_fmap. by exists (frame, pose).
Qed.

Lemma stored_pose_found j frame pose :
  ascending (Keyframes j) → (resolved j frame, pose) ∈ Keyframes j →
  getKeyframePose j frame = Some pose.
Proof.
  intros Hasc Hin.
  destruct (ascending_stored _ _ _ Hasc Hin) as (k1 & k2 & Hkfs & Hk1 & Hk2).
  rewrite <- (duplicate_eq pose).
  apply (getKeyframePose_exact j frame k1 pose k2);
    [done|done|by apply Forall_lt_le].
Qed.

(** X2.  On an ascending keyframe list, [getKeyframePose] at a stored frame
    id that is not negative returns the pose stored there. *)
Theorem getKeyframePose_stored j frame pose :
  ascending (Keyframes j) →
  0 ≤ frame →
  (frame, pose) ∈ Keyframes j →
  getKeyframePose j frame = Some pose.
Proof.
  intros Hasc Hnonneg Hin. apply stored_pose_found; [done|].
  by rewrite resolved_of_nonneg.
Qed.

(** X3.  On an ascending keyframe list that is not empty, every negative
    frame argument gives the pose of the last keyframe: the frame it is
    resolved to lies behind the last one. *)
Theorem getKeyframePose_negative_is_last j frame key :
  ascending (Keyframes j) →
  last (Keyframes j) = Some key →
  frame < 0 →
  getKeyframePose j frame = Some key.2.
Proof.
  intros Hasc Hlast Hneg.
  rewrite <- (duplicate_eq key.2).
  apply getKeyframePose_beyond; [done|].
  pose proof (resolved_negative_beyond j frame key Hlast Hneg).
  eapply Forall_impl; [exact (ascending_last _ _ Hasc Hlast)|].
  simpl. intros; lia.
Qed.

(** X4.  On an ascending keyframe list, [insertKeyframePose] with a negative
    frame overwrites nothing: it appends a keyframe behind the last one, at
    [max(0, lastFrame + 1 - frame)], where [lastFrame] is 0 for a joint
    without keyframes. *)
Theorem insertKeyframePose_negative_appends frame pose j :
  ascending (Keyframes j) →
  frame < 0 →
  let lastFrame := default 0 ((λ k : Keyframe, k.1) <$> last (Keyframes j)) in
  insertKeyframePose frame pose j =
  Some (set_Keyframes
          (Keyframes j ++ [(Z.max 0 (lastFrame + 1 - frame), pose)]) j) ∧
  Forall (λ k, k.1 < Z.max 0 (lastFrame + 1 - frame)) (Keyframes j).
Proof.
  intros Hasc Hneg lastFrame.
  assert (resolved j frame = Z.max 0 (lastFrame + 1 - frame)) as Hr.
  { unfold resolved. rewrite decide_True by done.
    rewrite getKeyframeRange_own. subst lastFrame.
    destruct (Keyframes j) as [|first rest] eqn:Hkfs; [done|].
    destruct (last (first :: rest)) eqn:Hlast; [done|].
    by apply last_None in Hlast. }
  assert (Forall (λ k, k.1 < resolved j frame) (Keyframes j)) as Hall.
  { destruct (last (Keyframes j)) as [key|] eqn:Hlast.
    - pose proof (resolved_negative_beyond j frame key Hlast Hneg).
      eapply Forall_impl; [exact (ascending_last _ _ Hasc Hlast)|].
      simpl. intros; lia.
    - apply last_None in Hlast. rewrite Hlast. constructor. }
  rewrite <- Hr. split; [|done].
  rewrite (insertKeyframePose_new frame pose j (Keyframes j) []);
    [done|by rewrite app_nil_r|done|constructor].
Qed.

(** X5.  On an ascending keyframe list the last insertion at a frame wins:
    inserting at a frame that is not negative and then again at the same
    frame leaves what the second insertion alone leaves. *)
Theorem insertKeyframePose_twice frame first second j :
  ascending (Keyframes j) →
  0 ≤ frame →
  ∃ j',
    insertKeyframePose frame first j = Some j' ∧
    insertKeyframePose frame second j' = insertKeyframePose frame second j.
Proof.
  intros Hasc Hnonneg.
  destruct (insertKeyframePose_ascending frame first j Hasc)
    as (k1 & k2 & Hk1 & Hk2 & Hcase & Hfirst & _).
  rewrite (resolved_of_nonneg j frame Hnonneg) in *.
  eexists. split; [exact Hfirst|].
  rewrite (insertKeyframePose_overwrite frame second _ k1 first k2);
    rewrite ?resolved_of_nonneg by done; [|done|done|done].
  destruct Hcase as [[old Hkfs]|[Hkfs _]].
  - rewrite (insertKeyframePose_overwrite frame second j k1 old k2);
      rewrite ?resolved_of_nonneg by done; done.
  - rewrite (insertKeyframePose_new frame second j k1 k2);
      rewrite ?resolved_of_nonneg by done; done.
Qed.

Lemma filter_filter_iff {A} (P Q R : A → Prop)
    `{∀ x, Decision (P x)} `{∀ x, Decision (Q x)} `{∀ x, Decision (R x)}
    (l : list A) :
  (∀ x, P x ∧ Q x ↔ R x) → filter P (filter Q l) = filter R l.
Proof.
  intros Hiff. rewrite list_filter_filter. apply list_filter_iff. done.
Qed.

Lemma filter_filter_none {A} (P Q : A → Prop)
    `{∀ x, Decision (P x)} `{∀ x, Decision (Q x)} (l : list A) :
  (∀ x, P x → Q x → False) → filter P (filter Q l) = [].
Proof.
  intros Hnot. apply filter_none. apply Forall_forall.
  intros x [HQ _]%list_elem_of_filter HP. by eapply Hnot.
Qed.

(** Two insertions at the frames [f < g], in either order, leave the same
    list. *)
Lemma insert_insert_filter (kfs : list Keyframe) f p g q :
  f < g →
  filter (λ k : Keyframe, k.1 < g)
    (filter (λ k : Keyframe, k.1 < f) kfs
     ++ (f, p) :: filter (λ k : Keyframe, f < k.1) kfs)
  ++ (g, q)
  :: filter (λ k : Keyframe, g < k.1)
       (filter (λ k : Keyframe, k.1 < f) kfs
        ++ (f, p) :: filter (λ k : Keyframe, f < k.1) kfs)
  =
  filter (λ k : Keyframe, k.1 < f)
    (filter (λ k : Keyframe, k.1 < g) kfs
     ++ (g, q) :: filter (λ k : Keyframe, g < k.1) kfs)
  ++ (f, p)
  :: filter (λ k : Keyframe, f < k.1)
       (filter (λ k : Keyframe, k.1 < g) kfs
        ++ (g, q) :: filter (λ k : Keyframe, g < k.1) kfs).
Proof.
  intros Hlt.
  rewrite !filter_app.
  rewrite (filter_cons_True (λ k : Keyframe, k.1 < g) (f, p)) by (simpl; lia).
  rewrite (filter_cons_False (λ k : Keyframe, g < k.1) (f, p)) by (simpl; lia).
  rewrite (filter_cons_False (λ k : Keyframe, k.1 < f) (g, q)) by (simpl; lia).
  rewrite (filter_cons_True (λ k : Keyframe, f < k.1) (g, q)) by (simpl; lia).
  rewrite (filter_filter_iff (λ k : Keyframe, k.1 < g) (λ k : Keyframe, k.1 < f)
             (λ k : Keyframe, k.1 < f)) by (simpl; intros; lia).
  rewrite (filter_filter_none (λ k : Keyframe, g < k.1) (λ k : Keyframe, k.1 < f))
    by (simpl; intros; lia).
  rewrite (filter_filter_iff (λ k : Keyframe, g < k.1) (λ k : Keyframe, f < k.1)
             (λ k : Keyframe, g < k.1)) by (simpl; intros; lia).
  rewrite (filter_filter_iff (λ k : Keyframe, k.1 < f) (λ k : Keyframe, k.1 < g)
             (λ k : Keyframe, k.1 < f)) by (simpl; intros; lia).
  rewrite (filter_filter_none (λ k : Keyframe, k.1 < f) (λ k : Keyframe, g < k.1))
    by (simpl; intros; lia).
  rewrite (filter_filter_iff (λ k : Keyframe, f < k.1) (λ k : Keyframe, g < k.1)
             (λ k : Keyframe, g < k.1)) by (simpl; intros; lia).
  rewrite (list_filter_filter (λ k : Keyframe, k.1 < g) (λ k : Keyframe, f < k.1)).
  rewrite (list_filter_filter (λ k : Keyframe, f < k.1) (λ k : Keyframe, k.1 < g)).
  simpl. rewrite <- !(assoc_L (++)). simpl. do 3 f_equal.
  apply list_filter_iff. intros; tauto.
Qed.

Lemma insert_then_insert f p g q j :
  ascending (Keyframes j) → 0 ≤ f → 0 ≤ g →
  insertKeyframePose f p j ≫= insertKeyframePose g q =
  Some (set_Keyframes
          (filter (λ k : Keyframe, k.1 < g)
             (filter (λ k : Keyframe, k.1 < f) (Keyframes j)
              ++ (f, p) :: filter (λ k : Keyframe, f < k.1) (Keyframes j))
           ++ (g, q)
           :: filter (λ k : Keyframe, g < k.1)
                (filter (λ k : Keyframe, k.1 < f) (Keyframes j)
                 ++ (f, p) :: filter (λ k : Keyframe, f < k.1) (Keyframes j)))
          j).
Proof.
  intros Hasc Hf Hg.
  destruct (insertKeyframePose_ascending f p j Hasc)
    as (k1 & k2 & _ & _ & _ & Hinsert & Hasc').
  rewrite (insertKeyframePose_filter f p j Hasc) in Hinsert |- *.
  injection Hinsert as Hkfs. rewrite <- Hkfs in Hasc'.
  rewrite (resolved_of_nonneg j f Hf) in *. simpl.
  rewrite insertKeyframePose_filter by done.
  rewrite resolved_of_nonneg by done. done.
Qed.

(** X6.  On an ascending keyframe list, insertions at two different frames
    that are not negative commute: both orders return, with the same
    joint. *)
Theorem insertKeyframePose_commute f p g q j :
  ascending (Keyframes j) →
  0 ≤ f → 0 ≤ g → f ≠ g →
  is_Some (insertKeyframePose f p j ≫= insertKeyframePose g q) ∧
  insertKeyframePose f p j ≫= insertKeyframePose g q =
  insertKeyframePose g q j ≫= insertKeyframePose f p.
Proof.
  intros Hasc Hf Hg Hne.
  rewrite !insert_then_insert by done. split; [done|].
  do 2 f_equal. destruct (decide (f < g)) as [Hlt|Hge].
  - by apply insert_insert_filter.
  - symmetry. apply insert_insert_filter. lia.
Qed.

(** X7.  On an ascending keyframe list an insertion leaves the other
    keyframes readable: a pose stored at a frame that is not negative and
    is not the resolved frame of the insertion is still returned for that
    frame. *)
Theorem insertKeyframePose_keeps_others f p g q j j' :
  ascending (Keyframes j) →
  0 ≤ g →
  g ≠ resolved j f →
  (g, q) ∈ Keyframes j →
  insertKeyframePose f p j = Some j' →
  getKeyframePose j' g = Some q.
Proof.
  intros Hasc Hg Hne Hin Hinsert.
  destruct (insertKeyframePose_ascending f p j Hasc)
    as (k1 & k2 & _ & _ & _ & Hinsert' & Hasc').
  rewrite (insertKeyframePose_filter f p j Hasc) in Hinsert, Hinsert'.
  injection Hinsert' as Hkfs. rewrite <- Hkfs in Hasc'.
  injection Hinsert as <-.
  apply stored_pose_found; [done|].
  rewrite resolved_of_nonneg by done.
  rewrite Keyframes_set_Keyframes, elem_of_app, elem_of_cons.
  rewrite !list_elem_of_filter. simpl.
  destruct (decide (g < resolved j f)); [left|right; right]; split; done || lia.
Qed.

(** X8.  On an ascending keyframe list [removeKeyframe] takes out the
    keyframe at the frame and nothing else: the list it leaves is the old
    one without the entries at that frame, in the old order. *)
Theorem removeKeyframe_filter frame recursive j :
  ascending (Keyframes j) →
  Keyframes (removeKeyframe frame recursive j) =
  filter (λ k : Keyframe, k.1 ≠ frame) (Keyframes j).
Proof.
  intros Hasc.
  assert (∀ l : list Keyframe,
            Forall (λ k, k.1 < frame) l ∨ Forall (λ k, frame < k.1) l →
            filter (λ k : Keyframe, k.1 ≠ frame) l = l) as Hkeep.
  { intros l Hl. apply filter_all.
    destruct Hl as [Hl|Hl]; (eapply Forall_impl; [exact Hl|]); simpl;
      intros; lia. }
  destruct (ascending_locate _ frame Hasc)
    as (k1 & k2 & Hk1 & Hk2 & [[old Hkfs]|[Hkfs _]]).
  - rewrite (removeKeyframe_present _ _ _ _ _ _ Hkfs Hk1 Hk2), Hkfs.
    rewrite filter_app, filter_cons_False by (simpl; lia).
    by rewrite !Hkeep by auto.
  - rewrite (removeKeyframe_absent _ _ _ _ _ Hkfs Hk1 Hk2), Hkfs.
    rewrite filter_app. by rewrite !Hkeep by auto.
Qed.

Lemma Children_removeKeyframe frame recursive j :
  Children (removeKeyframe frame recursive j) =
  if recursive then removeKeyframe frame true <$> Children j else Children j.
Proof. by destruct j. Qed.


(** X10.  [includeChildren=True] can only widen the range: it starts no
    later and ends no earlier than the range of the joint's own
    keyframes. *)
Theorem getKeyframeRange_widens j :
  (getKeyframeRange true j).1 ≤ (getKeyframeRange false j).1 ∧
  (getKeyframeRange false j).2 ≤ (getKeyframeRange true j).2.
Proof.
  rewrite getKeyframeRange_children.
  destruct j as [? ? ? ? kfs ? children]. cbn [Keyframes Children].
  destruct kfs as [|first kfs]; [done|].
  change (getKeyframeRange false _)
    with (first.1, (List.last (first :: kfs) first).1).
  generalize (first.1, (List.last (first :: kfs) first).1).
  intros range. cbn [fst snd].
  assert (∀ start : Z * Z,
            start.1 ≤ range.1 → range.2 ≤ start.2 →
            let widened :=
              fold_left
                (λ range child,
                   let childRange := getKeyframeRange true child in
                   (Z.min range.1 childRange.1, Z.max range.2 childRange.2))
                children start in
            widened.1 ≤ range.1 ∧ range.2 ≤ widened.2) as Hfold.
  { induction children as [|child children IHchildren];
      intros start Hlow Hhigh; [done|].
    cbn [fold_left]. apply IHchildren; cbn [fst snd]; lia. }
  apply Hfold; lia.
Qed.

(** The binary search stops between a smaller and a larger frame id, in
    whatever order the list is; with frame ids that are not negative the
    weight is then in range. *)
Lemma weight_in_range_nonneg j frame :
  Forall (λ k : Keyframe, 0 ≤ k.1) (Keyframes j) → weight_in_range j frame.
Proof.
  intros Hids. unfold weight_in_range.
  intros before after Hindex Hbefore Hafter Hne.
  pose proof (resolved_nonneg j frame) as Hnonneg.
  destruct (bisect_left_bounds (Keyframes j).*1 (resolved j frame))
    as (_ & Hlow & Hhigh).
  set (index := bisect_left (Keyframes j).*1 (resolved j frame)) in *.
  rewrite !list_lookup_fmap, Hbefore in Hlow.
  rewrite !list_lookup_fmap, Hafter, length_fmap in Hhigh. simpl in *.
  destruct Hlow as [?|(y & [= <-] & Hy)]; [done|].
  destruct Hhigh as [Hlen|(z & [= <-] & Hz)].
  { apply lookup_lt_Some in Hafter. lia. }
  assert (0 ≤ before.1) as Hb.
  { by apply (Forall_lookup_1 _ _ _ _ Hids Hbefore). }
  lia.
Qed.

(** X1.  With stored frame ids that are not negative, as the [Keyframes]
    docstring asks, and in whatever order, [getKeyframePose] returns a pose
    for every frame, negative or not: no index leaves the list, and where
    the weight of line 94 is computed the divisor is positive and the
    dividend lies between 0 and twice the divisor, so the quotient is a
    float in [0, 2) and the division raises neither [ZeroDivisionError] nor
    [OverflowError]. *)
Theorem getKeyframePose_never_raises j frame :
  Forall (λ k : Keyframe, 0 ≤ k.1) (Keyframes j) →
  (∃ pose, getKeyframePose j frame = Some pose) ∧
  let index := bisect_left (Keyframes j).*1 (resolved j frame) in
  ∀ before after,
    index ≠ 0%nat →
    Keyframes j !! (index - 1)%nat = Some before →
    Keyframes j !! index = Some after →
    after.1 ≠ resolved j frame →
    0 < after.1 ∧ 0 ≤ before.1 + resolved j frame < 2 * after.1.
Proof.
  intros Hids. split.
  - destruct (getKeyframePose_total j frame) as [pose Hpose]. by exists pose.
  - by apply weight_in_range_nonneg.
Qed.

End StoreProperties.

(** * Loading and recording *)

Section RecordingProperties.
Context `{Glm}.

Lemma getKeyframePose_ext a b frame :
  Keyframes a = Keyframes b → getKeyframePose a frame = getKeyframePose b frame.
Proof.
  intros Heq. unfold getKeyframePose.
  by rewrite (getKeyframeRange_own a), (getKeyframeRange_own b), Heq.
Qed.

(** What [insertKeyframePose] stores is what [getKeyframePose] then finds,
    and the list stays ascending. *)
Lemma inserted_pose_found frame pose j :
  ascending (Keyframes j) →
  ∃ kfs,
    insertKeyframePose frame pose j = Some (set_Keyframes kfs j) ∧
    ascending kfs ∧
    getKeyframePose (set_Keyframes kfs j) frame = Some pose.
Proof.
  intros Hasc.
  destruct (insertKeyframePose_ascending frame pose j Hasc)
    as (k1 & k2 & Hk1 & Hk2 & Hcase & Hinsert & Hasc').
  eexists. split_and!; [exact Hinsert|exact Hasc'|].
  set (j' := set_Keyframes (k1 ++ (resolved j frame, pose) :: k2) j) in *.
  destruct (decide (frame < 0)) as [Hneg|Hnonneg].
  - assert (k2 = []) as ->.
    { destruct k2 as [|k k2]; [done|exfalso].
      apply Forall_cons in Hk2 as [Hk _].
      assert (k ∈ Keyframes j) as Hin.
      { destruct Hcase as [[old ->]|[-> _]]; rewrite elem_of_app;
          right; repeat (apply elem_of_cons; try (by left); right). }
      destruct (last (Keyframes j)) as [key|] eqn:Hlast.
      2:{ apply last_None in Hlast. rewrite Hlast in Hin.
          by apply elem_of_nil in Hin. }
      pose proof (resolved_negative_beyond j frame key Hlast Hneg).
      pose proof (ascending_last _ _ Hasc Hlast) as Hle.
      rewrite Forall_forall in Hle. specialize (Hle _ Hin). simpl in Hle. lia. }
    assert (last (Keyframes j') = Some (resolved j frame, pose)) as Hlast'
      by apply last_snoc.
    pose proof (resolved_negative_beyond j' frame _ Hlast' Hneg) as Hbeyond.
    simpl in Hbeyond.
    rewrite (getKeyframePose_beyond j' frame _ Hlast'); [by destruct pose|].
    subst j'. rewrite Keyframes_set_Keyframes in *.
    apply Forall_app. split.
    + eapply Forall_impl; [exact Hk1|]. simpl. intros; lia.
    + by repeat constructor.
  - subst j'. apply stored_pose_found; [done|].
    rewrite (resolved_of_nonneg (set_Keyframes _ _) frame) by lia.
    rewrite (resolved_of_nonneg j frame) by lia.
    rewrite Keyframes_set_Keyframes, elem_of_app. right.
    apply elem_of_cons. by left.
Qed.

Lemma loadPose_unfold frame recursive j :
  loadPose frame recursive j =
  key ← getKeyframePose j frame;
  children ← (if recursive then mapM (loadPose frame true) (Children j)
              else Some (Children j));
  let rest := RestPose j in
  Some (mkJoint
          (mat4_apply (Pose_Space (Position rest) (Rotation rest) (Scale rest))
             (Position key))
          (quat_mul (Rotation rest) (Rotation key))
          (vec3_mul (Scale rest) (Scale key))
          rest (Keyframes j) frame children).
Proof. by destruct j. Qed.

Lemma loadKeyframe_unfold frame recursive j :
  loadKeyframe frame recursive j =
  key ← getKeyframePose j frame;
  children ← (if recursive then mapM (loadKeyframe frame true) (Children j)
              else Some (Children j));
  Some (mkJoint (Position key) (Rotation key) (Scale key)
          (RestPose j) (Keyframes j) (CurrentFrame j) children).
Proof. by destruct j. Qed.

Lemma writeKeyframe_unfold frame recursive j :
  writeKeyframe frame recursive j =
  j' ← insertKeyframePose frame
         (mkPose (Joint_Position j) (Joint_Rotation j) (Joint_Scale j)) j;
  children ← (if recursive then mapM (writeKeyframe frame true) (Children j)
              else Some (Children j));
  Some (set_Children children j').
Proof. by destruct j. Qed.

Lemma animation_children j :
  animation j = (RestPose j, Keyframes j) :: (Children j ≫= animation).
Proof.
  unfold animation. rewrite subtree_children, fmap_cons. f_equal.
  induction (Children j) as [|child children IH]; [done|].
  by rewrite !bind_cons, fmap_app, IH.
Qed.

(** A loop over the children that returns for each child, with a result
    that agrees with the child on [view], returns, with children that agree
    with the old ones on [view]. *)
Lemma mapM_agree {B} (f : Joint → option Joint) (view : Joint → list B)
    (children : list Joint) :
  Forall (λ child, ∃ child', f child = Some child' ∧ view child' = view child)
         children →
  ∃ children',
    mapM f children = Some children' ∧ children' ≫= view = children ≫= view.
Proof.
  induction 1 as [|child children (child' & Hchild & Hview) _ (children' & Hmap & Hviews)].
  - by exists [].
  - exists (child' :: children'). split.
    + apply mapM_Some_2. constructor; [done|]. by apply mapM_Some_1.
    + by rewrite !bind_cons, Hview, Hviews.
Qed.

Lemma loadPose_reads frame recursive j :
  ∃ j',
    loadPose frame recursive j = Some j' ∧
    animation j' = animation j ∧
    CurrentFrame j' = frame.
Proof.
  revert recursive.
  induction j as [position rotation scale rest kfs cur children IH]
    using Joint_ind.
  intros recursive. rewrite loadPose_unfold.
  destruct (getKeyframePose_total
              (mkJoint position rotation scale rest kfs cur children) frame)
    as [key ->].
  cbn [mbind option_bind Children].
  destruct recursive.
  - destruct (mapM_agree (loadPose frame true) animation children)
      as (children' & -> & Hsame).
    { eapply Forall_impl; [exact IH|]. intros child Hchild.
      destruct (Hchild true) as (child' & ? & ? & _). by exists child'. }
    eexists. split_and!; [done| |done].
    rewrite !animation_children. cbn [Children RestPose Keyframes].
    by rewrite Hsame.
  - eexists. split_and!; done.
Qed.

Lemma loadKeyframe_reads frame recursive j :
  ∃ j',
    loadKeyframe frame recursive j = Some j' ∧
    animation j' = animation j ∧
    CurrentFrame j' = CurrentFrame j.
Proof.
  revert recursive.
  induction j as [position rotation scale rest kfs cur children IH]
    using Joint_ind.
  intros recursive. rewrite loadKeyframe_unfold.
  destruct (getKeyframePose_total
              (mkJoint position rotation scale rest kfs cur children) frame)
    as [key ->].
  cbn [mbind option_bind Children].
  destruct recursive.
  - destruct (mapM_agree (loadKeyframe frame true) animation children)
      as (children' & -> & Hsame).
    { eapply Forall_impl; [exact IH|]. intros child Hchild.
      destruct (Hchild true) as (child' & ? & ? & _). by exists child'. }
    eexists. split_and!; [done| |done].
    rewrite !animation_children. cbn [Children RestPose Keyframes].
    by rewrite Hsame.
  - eexists. split_and!; done.
Qed.

(** X11.  On joints whose stored frame ids are not negative, [loadPose] and
    [loadKeyframe] return, for the joint alone or for the whole subtree,
    and only read the animation: rest poses and keyframes of the whole
    subtree stay as they are.  [loadPose] records the frame it was given, as
    given; [loadKeyframe] leaves the recorded frame alone.  In every joint
    they reach the weight of line 94 stays in range. *)
Theorem loading_reads_only frame recursive j :
  Forall (λ j', Forall (λ k : Keyframe, 0 ≤ k.1) (Keyframes j'))
         (reached recursive j) →
  (∃ j', loadPose frame recursive j = Some j' ∧
         animation j' = animation j ∧ CurrentFrame j' = frame) ∧
  (∃ j', loadKeyframe frame recursive j = Some j' ∧
         animation j' = animation j ∧ CurrentFrame j' = CurrentFrame j) ∧
  Forall (λ j', weight_in_range j' frame) (reached recursive j).
Proof.
  intros Hids. split_and!; [apply loadPose_reads|apply loadKeyframe_reads|].
  eapply Forall_impl; [exact Hids|]. intros j'. apply weight_in_range_nonneg.
Qed.

Lemma placement_children j :
  placement j = Joint_properties j :: (Children j ≫= placement).
Proof.
  unfold placement. rewrite subtree_children, fmap_cons. f_equal.
  induction (Children j) as [|child children IH]; [done|].
  by rewrite !bind_cons, fmap_app, IH.
Qed.

(** Two loops over the children, the second over the results of the
    first. *)
Lemma mapM_round_trip {B} (W L : Joint → option Joint) (view : Joint → list B)
    (children : list Joint) :
  Forall (λ child, ∃ written loaded,
            W child = Some written ∧ L written = Some loaded ∧
            view loaded = view child) children →
  ∃ written loaded,
    mapM W children = Some written ∧ mapM L written = Some loaded ∧
    loaded ≫= view = children ≫= view.
Proof.
  induction 1 as [|child children (w & l & Hw & Hl & Hview) _
                    (ws & ls & Hws & Hls & Hviews)].
  - by exists [], [].
  - exists (w :: ws), (l :: ls). split_and!.
    + apply mapM_Some_2. constructor; [done|]. by apply mapM_Some_1.
    + apply mapM_Some_2. constructor; [done|]. by apply mapM_Some_1.
    + by rewrite !bind_cons, Hview, Hviews.
Qed.

Lemma writeKeyframe_loadKeyframe_subtree frame j :
  Forall (λ j', ascending (Keyframes j')) (subtree j) →
  ∃ written loaded,
    writeKeyframe frame true j = Some written ∧
    loadKeyframe frame true written = Some loaded ∧
    placement loaded = placement j.
Proof.
  induction j as [position rotation scale rest kfs cur children IH]
    using Joint_ind.
  rewrite subtree_children. intros [Hasc Hbelow]%Forall_cons.
  rewrite Forall_bind in Hbelow.
  set (j := mkJoint position rotation scale rest kfs cur children) in *.
  destruct (inserted_pose_found frame (mkPose position rotation scale) j Hasc)
    as (kfs' & Hinsert & _ & Hget).
  destruct (mapM_round_trip (writeKeyframe frame true) (loadKeyframe frame true)
              placement children) as (ws & ls & Hws & Hls & Hviews).
  { clear Hinsert Hget. subst j.
    induction children as [|child children IHchildren]; [constructor|].
    apply Forall_cons in IH as [IHchild IH].
    apply Forall_cons in Hbelow as [Hchild Hbelow].
    constructor; [by apply IHchild|by apply IHchildren]. }
  exists (set_Children ws (set_Keyframes kfs' j)),
         (mkJoint position rotation scale rest kfs' cur ls).
  split_and!.
  - rewrite writeKeyframe_unfold. cbn [Joint_Position Joint_Rotation Joint_Scale j].
    fold j. rewrite Hinsert. cbn [mbind option_bind]. cbn [Children j].
    by rewrite Hws.
  - rewrite loadKeyframe_unfold.
    rewrite (getKeyframePose_ext _ (set_Keyframes kfs' j)) by done.
    rewrite Hget. cbn [mbind option_bind]. cbn [Children set_Children].
    by rewrite Hls.
  - rewrite !placement_children. cbn [Children Joint_properties j].
    by rewrite Hviews.
Qed.


Lemma loadRestPose_writeRestPose recursive keep j :
  loadRestPose recursive (writeRestPose recursive keep j) =
  writeRestPose recursive keep j.
Proof.
  induction j as [position rotation scale rest kfs cur children IH]
    using Joint_ind.
  destruct recursive; [|done]. simpl. f_equal.
  rewrite <- list_fmap_compose. apply list_fmap_ext.
  intros i child Hchild%list_elem_of_lookup_2.
  rewrite Forall_forall in IH. by apply IH.
Qed.

Lemma frame_ids_children j :
  frame_ids j = (Keyframes j).*1 :: (Children j ≫= frame_ids).
Proof.
  unfold frame_ids. rewrite subtree_children, fmap_cons. f_equal.
  induction (Children j) as [|child children IH]; [done|].
  by rewrite !bind_cons, fmap_app, IH.
Qed.

Lemma frame_ids_writeRestPose recursive keep j :
  frame_ids (writeRestPose recursive keep j) = frame_ids j.
Proof.
  induction j as [position rotation scale rest kfs cur children IH]
    using Joint_ind.
  rewrite !frame_ids_children. f_equal.
  - simpl. destruct keep as [[|name names]|]; try done.
    rewrite <- list_fmap_compose. done.
  - simpl. destruct recursive; [|done].
    induction children as [|child children IHchildren]; [done|].
    apply Forall_cons in IH as [IHchild IH].
    rewrite fmap_cons, !bind_cons. by rewrite IHchild, IHchildren.
Qed.

(** A [keep] that names none of position, rotation and scale is a [keep] of
    nothing. *)
Lemma Keyframes_writeRestPose_unknown recursive names j :
  "position" ∉ names → "rotation" ∉ names → "scale" ∉ names →
  Keyframes (writeRestPose recursive (Some names) j) = Keyframes j.
Proof.
  intros Hposition Hrotation Hscale.
  destruct names as [|name names]; [by destruct j|].
  rewrite Keyframes_writeRestPose.
  rewrite <- (list_fmap_id (Keyframes j)) at 2.
  apply list_fmap_ext. intros i [frame [position rotation scale]] _.
  unfold rebase. cbn [fst snd Position Rotation Scale].
  by rewrite !decide_False by done.
Qed.

Section PoseRoundTrip.
Context (Pose_SpaceInverse : vec3 → quat → vec3 → mat4).

Lemma writePose_unfold frameId recursive j :
  writePose Pose_SpaceInverse frameId recursive j =
  j' ← insertKeyframePose frameId (newKey Pose_SpaceInverse j) j;
  children ← (if recursive
              then mapM (writePose Pose_SpaceInverse frameId true) (Children j)
              else Some (Children j));
  Some (set_Children children j').
Proof. by destruct j. Qed.

(** What [loadPose] computes from the keyframe [writePose] has recorded. *)
Lemma compose_newKey j :
  invertible_at Pose_SpaceInverse j →
  let rest := RestPose j in
  let key := newKey Pose_SpaceInverse j in
  mat4_apply (Pose_Space (Position rest) (Rotation rest) (Scale rest))
    (Position key) = Joint_Position j ∧
  quat_mul (Rotation rest) (Rotation key) = Joint_Rotation j ∧
  vec3_mul (Scale rest) (Scale key) = Joint_Scale j.
Proof. by intros (? & ? & ?). Qed.

Lemma writePose_loadPose_subtree frame j :
  Forall (λ j', ascending (Keyframes j') ∧ invertible_at Pose_SpaceInverse j')
         (subtree j) →
  ∃ written loaded,
    writePose Pose_SpaceInverse frame true j = Some written ∧
    loadPose frame true written = Some loaded ∧
    placement loaded = placement j.
Proof.
  induction j as [position rotation scale rest kfs cur children IH]
    using Joint_ind.
  rewrite subtree_children. intros [[Hasc Hinv] Hbelow]%Forall_cons.
  rewrite Forall_bind in Hbelow.
  set (j := mkJoint position rotation scale rest kfs cur children) in *.
  destruct (inserted_pose_found frame (newKey Pose_SpaceInverse j) j Hasc)
    as (kfs' & Hinsert & _ & Hget).
  destruct (mapM_round_trip (writePose Pose_SpaceInverse frame true)
              (loadPose frame true) placement children)
    as (ws & ls & Hws & Hls & Hviews).
  { clear Hinsert Hget Hinv. subst j.
    induction children as [|child children IHchildren]; [constructor|].
    apply Forall_cons in IH as [IHchild IH].
    apply Forall_cons in Hbelow as [Hchild Hbelow].
    constructor; [by apply IHchild|by apply IHchildren]. }
  destruct (compose_newKey j Hinv) as (Hposition & Hrotation & Hscale).
  exists (set_Children ws (set_Keyframes kfs' j)),
         (mkJoint position rotation scale rest kfs' frame ls).
  split_and!.
  - rewrite writePose_unfold, Hinsert. cbn [mbind option_bind].
    cbn [Children j]. by rewrite Hws.
  - rewrite loadPose_unfold.
    rewrite (getKeyframePose_ext _ (set_Keyframes kfs' j)) by done.
    rewrite Hget. cbn [mbind option_bind]. cbn [Children set_Children].
    rewrite Hls. cbn [mbind option_bind].
    cbn [RestPose set_Children set_Keyframes j] in *.
    by rewrite Hposition, Hrotation, Hscale.
  - rewrite !placement_children. cbn [Children Joint_properties j].
    by rewrite Hviews.
Qed.


End PoseRoundTrip.

End RecordingProperties.

(** * Rebasing and rolling *)

Section RebasingProperties.
Context `{Glm}.

Lemma applyRestposePosition_self_at_rest position j :
  at_rest (applyRestposePosition_self position j) ∧
  Forall at_rest (Children (applyRestposePosition_self position j)).
Proof.
  destruct j as [? ? ? ? ? ? children]. split; [done|].
  unfold applyRestposePosition_self, applyPosition. simpl.
  rewrite !Forall_fmap. apply Forall_forall. by intros [] _.
Qed.

Lemma applyRestposeRotation_self_at_rest rotation j :
  at_rest (applyRestposeRotation_self rotation j) ∧
  Forall at_rest (Children (applyRestposeRotation_self rotation j)).
Proof.
  destruct j as [? ? ? ? ? ? children]. split; [done|].
  unfold applyRestposeRotation_self, applyRotation. simpl.
  rewrite !Forall_fmap. apply Forall_forall. by intros [] _.
Qed.

Lemma at_rest_set_Children children j :
  at_rest (set_Children children j) ↔ at_rest j.
Proof. by destruct j. Qed.

(** A body that leaves its joint at rest leaves, by the descent, every
    joint of the subtree at rest. *)
Lemma descend_at_rest body fuel j :
  keeps_shape body → (∀ j', at_rest (body j')) →
  (height j ≤ fuel)%nat →
  Forall at_rest (subtree (descend body fuel j)).
Proof.
  intros Hshape Hrest. revert j.
  induction fuel as [|fuel IH]; intros j Hfuel.
  - simpl. rewrite subtree_children.
    destruct (Children (body j)) as [|child children] eqn:Hchildren.
    + by repeat constructor.
    + pose proof (keeps_shape_height body j child Hshape) as Hlt.
      rewrite Hchildren in Hlt. specialize (Hlt (list_elem_of_here _ _)). lia.
  - rewrite descend_S, subtree_children. constructor.
    + by apply at_rest_set_Children.
    + rewrite Forall_bind. cbn [Children set_Children].
      rewrite Forall_fmap. apply Forall_forall. intros child Hchild. simpl.
      pose proof (keeps_shape_height body j child Hshape Hchild).
      apply IH. lia.
Qed.

(** The recursion of the source: the body, then the operation itself on each
    child as the body left it. *)
Lemma descend_children body j :
  keeps_shape body →
  descend body (height j) j =
  set_Children
    ((λ child, descend body (height child) child) <$> Children (body j))
    (body j).
Proof.
  intros Hshape. destruct (height j) as [|n] eqn:Hheight.
  - simpl. destruct (Children (body j)) as [|child children] eqn:Hchildren.
    + simpl. rewrite <- Hchildren. symmetry. apply set_Children_Children.
    + pose proof (keeps_shape_height body j child Hshape) as Hlt.
      rewrite Hchildren in Hlt. specialize (Hlt (list_elem_of_here _ _)). lia.
  - rewrite descend_S. f_equal. apply list_fmap_ext.
    intros i child Hchild%list_elem_of_lookup_2.
    pose proof (keeps_shape_height body j child Hshape Hchild).
    apply descend_fuel; [done|lia|lia].
Qed.

(** X16.  With [recursive=True], [applyRestposePosition] and
    [applyRestposeRotation] are their body on the joint followed by the
    operation itself, recursive, on each child as the body left it: the
    descent reaches every joint of the subtree. *)
Theorem applyRestpose_recursion position rotation j :
  applyRestposePosition position true j =
    set_Children
      (applyRestposePosition position true
         <$> Children (applyRestposePosition position false j))
      (applyRestposePosition position false j) ∧
  applyRestposeRotation rotation true j =
    set_Children
      (applyRestposeRotation rotation true
         <$> Children (applyRestposeRotation rotation false j))
      (applyRestposeRotation rotation false j).
Proof.
  split.
  - apply (descend_children (applyRestposePosition_self position)),
      applyRestposePosition_self_keeps_shape.
  - apply (descend_children (applyRestposeRotation_self rotation)),
      applyRestposeRotation_self_keeps_shape.
Qed.

(** After [applyRestposePosition] or [applyRestposeRotation] the joint and
    its immediate children are at rest; with [recursive=True] so is every
    joint of the subtree. *)
Lemma at_rest_after_applyRestpose position rotation recursive j :
  (at_rest (applyRestposePosition position recursive j) ∧
   Forall at_rest (Children (applyRestposePosition position recursive j)) ∧
   Forall at_rest (subtree (applyRestposePosition position true j))) ∧
  (at_rest (applyRestposeRotation rotation recursive j) ∧
   Forall at_rest (Children (applyRestposeRotation rotation recursive j)) ∧
   Forall at_rest (subtree (applyRestposeRotation rotation true j))).
Proof.
  assert (∀ body : Joint → Joint,
            keeps_shape body →
            (∀ j', at_rest (body j') ∧ Forall at_rest (Children (body j'))) →
            let result := if recursive then descend body (height j) j else body j in
            at_rest result ∧ Forall at_rest (Children result) ∧
            Forall at_rest (subtree (descend body (height j) j))) as Hbody.
  { intros body Hshape Hrest result.
    assert (Forall at_rest (subtree (descend body (height j) j))) as Hall.
    { apply descend_at_rest; [done|apply Hrest|done]. }
    split_and!; [| |done]; subst result; destruct recursive;
      try apply Hrest.
    - rewrite subtree_children in Hall. by apply Forall_cons in Hall as [? _].
    - rewrite subtree_children in Hall. apply Forall_cons in Hall as [_ Hall].
      rewrite Forall_bind in Hall. eapply Forall_impl; [exact Hall|].
      intros child Hchild. simpl in Hchild.
      rewrite subtree_children in Hchild.
      by apply Forall_cons in Hchild as [? _]. }
  split.
  - apply (Hbody (applyRestposePosition_self position)).
    + apply applyRestposePosition_self_keeps_shape.
    + apply applyRestposePosition_self_at_rest.
  - apply (Hbody (applyRestposeRotation_self rotation)).
    + apply applyRestposeRotation_self_keeps_shape.
    + apply applyRestposeRotation_self_at_rest.
Qed.

(** [applyRestposeRotation(recursive=False)] changes the positions of the
    joint's keyframes only. *)
Lemma positions_only_after_applyRestposeRotation rotation j :
  (λ k : Keyframe, (k.1, Rotation k.2, Scale k.2))
    <$> Keyframes (applyRestposeRotation rotation false j) =
  (λ k : Keyframe, (k.1, Rotation k.2, Scale k.2)) <$> Keyframes j ∧
  Keyframes <$> Children (applyRestposeRotation rotation false j) =
  Keyframes <$> Children j.
Proof.
  destruct j as [? ? ? ? kfs ? children]. split.
  - rewrite applyRestposeRotation_rebases_keyframes.
    rewrite <- list_fmap_compose. done.
  - unfold applyRestposeRotation, applyRestposeRotation_self, applyRotation.
    simpl. rewrite <- !list_fmap_compose.
    apply list_fmap_ext. by intros i [] _.
Qed.

Section Roll.
Context (angleAxis_up : float → quat) (quat_rotate : quat → vec3 → vec3).

Lemma animation_set_properties p j :
  animation (set_properties p j) = animation j.
Proof. by rewrite !animation_children. Qed.

Lemma animation_roll_from degrees recursive properties j :
  animation (roll_from angleAxis_up quat_rotate degrees recursive properties j) =
  animation j.
Proof.
  revert recursive properties.
  induction j as [position rotation scale rest kfs cur children IH]
    using Joint_ind.
  intros recursive properties. rewrite !animation_children. simpl. f_equal.
  induction children as [|child children IHchildren]; [done|].
  apply Forall_cons in IH as [IHchild IH].
  rewrite fmap_cons, !bind_cons. f_equal; [|by apply IHchildren].
  destruct recursive; [apply IHchild|apply animation_set_properties].
Qed.

(** X19.  [roll] touches neither rest poses nor keyframes, anywhere in the
    subtree; of the joint itself it changes the rotation only, and of each
    immediate child the position and the rotation: the child is turned
    back by the inverse of the change, and with [recursive=True] then
    rolled by the change itself. *)
Theorem roll_keeps_animation degrees recursive j :
  let change := angleAxis_up degrees in
  let rolled := roll angleAxis_up quat_rotate degrees recursive j in
  animation rolled = animation j ∧
  Joint_properties rolled =
    mkPose (Joint_Position j) (quat_mul (Joint_Rotation j) change) (Joint_Scale j) ∧
  Joint_properties <$> Children rolled =
    (λ child,
       mkPose (quat_rotate (quat_inverse change) (Joint_Position child))
         (if recursive
          then quat_mul (quat_mul (quat_inverse change) (Joint_Rotation child)) change
          else quat_mul (quat_inverse change) (Joint_Rotation child))
         (Joint_Scale child)) <$> Children j.
Proof.
  intros change rolled. split_and!.
  - apply animation_roll_from.
  - by destruct j.
  - subst rolled. destruct j as [? ? ? ? ? ? children]. unfold roll. simpl.
    rewrite <- list_fmap_compose. apply list_fmap_ext.
    intros i child _. simpl. destruct recursive; by destruct child.
Qed.

End Roll.

End RebasingProperties.

(** * Poses in the store *)

Section InPlaceProperties.
Context `{Glm}.

Lemma Stored_ind (P : Stored → Prop) :
  (∀ position rotation scale rest keys frame children,
      Forall P children →
      P (mkStored position rotation scale rest keys frame children)) →
  ∀ self, P self.
Proof.
  intros step.
  fix IH 1. intros [position rotation scale rest keys frame children].
  apply step. induction children as [|child children IHchildren].
  - constructor.
  - constructor; [apply IH | exact IHchildren].
Qed.

Lemma each_cons {A} (turn : A → heap → option heap) x l σ :
  each turn (x :: l) σ = turn x σ ≫= each turn l.
Proof. done. Qed.

Lemma read_Keyframes_cons σ key keys :
  read_Keyframes σ (key :: keys) =
  pose ← σ !! key.2; kfs ← read_Keyframes σ keys; Some ((key.1, pose) :: kfs).
Proof. unfold read_Keyframes. simpl. by destruct (σ !! key.2). Qed.

Lemma view_unfold σ self :
  view σ self =
  rest ← σ !! RestPose_at self;
  kfs ← read_Keyframes σ (Keyframes_at self);
  children ← mapM (view σ) (Stored_Children self);
  Some (mkJoint (Stored_Position self) (Stored_Rotation self)
          (Stored_Scale self) rest kfs (Stored_CurrentFrame self) children).
Proof. by destruct self. Qed.

Lemma addresses_unfold self :
  addresses self =
  RestPose_at self :: (Keyframes_at self).*2
    ++ mbind addresses (Stored_Children self).
Proof. by destruct self. Qed.

Lemma mapM_cons {A B} (f : A → option B) x l :
  mapM f (x :: l) = y ← f x; k ← mapM f l; Some (y :: k).
Proof. done. Qed.

Lemma mapM_agree_on {A B} (f g : A → option B) l :
  Forall (λ x, f x = g x) l → mapM f l = mapM g l.
Proof.
  induction 1 as [|x l Hx _ IH]; [done|].
  by rewrite !mapM_cons, Hx, IH.
Qed.

(** Reading depends on the store at the addresses read. *)
Lemma read_Keyframes_agree σ σ' keys :
  (∀ l, l ∈ keys.*2 → σ' !! l = σ !! l) →
  read_Keyframes σ' keys = read_Keyframes σ keys.
Proof.
  intros Hsame. apply mapM_agree_on, Forall_forall. intros key Hkey.
  rewrite Hsame; [done|]. apply list_elem_of_fmap. by exists key.
Qed.

Lemma view_agree σ σ' self :
  (∀ l, l ∈ addresses self → σ' !! l = σ !! l) →
  view σ' self = view σ self.
Proof.
  induction self as [position rotation scale rest keys frame children IH]
    using Stored_ind.
  intros Hsame. rewrite !view_unfold. cbn [RestPose_at Keyframes_at
    Stored_Children Stored_Position Stored_Rotation Stored_Scale
    Stored_CurrentFrame].
  rewrite addresses_unfold in Hsame. cbn [RestPose_at Keyframes_at
    Stored_Children] in Hsame.
  rewrite (Hsame rest) by apply list_elem_of_here.
  rewrite (read_Keyframes_agree σ σ' keys).
  2:{ intros l Hl. apply Hsame. apply list_elem_of_further, elem_of_app. by left. }
  rewrite (mapM_agree_on (view σ') (view σ) children); [done|].
  apply Forall_forall. intros child Hchild.
  rewrite Forall_forall in IH. apply (IH child Hchild).
  intros l Hl. apply Hsame. apply list_elem_of_further, elem_of_app. right.
  apply list_elem_of_bind. by exists child.
Qed.

(** The three assignments of lines 204-206 leave the properties of the
    joint in its rest pose object. *)
Lemma assign_all {A} l position rotation scale σ (next : heap → option A) :
  is_Some (σ !! l) →
  (σ ← assign_Position l position σ;
   σ ← assign_Rotation l rotation σ;
   σ ← assign_Scale l scale σ;
   next σ)
  = next (<[l := mkPose position rotation scale]> σ).
Proof.
  intros [p Hp]. unfold assign_Position, assign_Rotation, assign_Scale.
  rewrite Hp. simpl. rewrite lookup_insert_eq. simpl.
  rewrite lookup_insert_eq. simpl. by rewrite !insert_insert_eq.
Qed.

(** One turn of the loop over the keyframes, on an object that is not the
    rest pose of the joint. *)
Lemma rebase_at_separate keep self j key rest k σ :
  Joint_properties j =
    mkPose (Stored_Position self) (Stored_Rotation self) (Stored_Scale self) →
  RestPose j = rest →
  key ≠ RestPose_at self →
  σ !! RestPose_at self = Some rest →
  σ !! key = Some k →
  rebase_at keep self key σ = Some (<[key := rebase keep j k]> σ).
Proof.
  intros Hprops Hrest Hne Hlookup Hkey.
  unfold Joint_properties in Hprops. injection Hprops as Hp Hr Hs.
  unfold rebase_at, rebase, assign_Position, assign_Rotation, assign_Scale.
  rewrite Hp, Hr, Hs, Hrest.
  destruct k as [kp kr ks]. cbn [Position Rotation Scale].
  destruct (decide ("position" ∈ keep)); destruct (decide ("rotation" ∈ keep));
    destruct (decide ("scale" ∈ keep));
    repeat (rewrite ?Hlookup, ?Hkey, ?lookup_insert_eq, ?insert_insert_eq,
              ?(lookup_insert_ne _ key (RestPose_at self)) by done;
            cbn [mbind option_bind Position Rotation Scale]);
    try done.
  by rewrite insert_id.
Qed.

(** The loop over the keyframes, when no keyframe object is held twice and
    none is the rest pose: every keyframe is rebased against the rest pose
    as it was, and nothing else changes. *)
Lemma rebase_at_loop keep self j keys :
  Joint_properties j =
    mkPose (Stored_Position self) (Stored_Rotation self) (Stored_Scale self) →
  RestPose_at self ∉ keys.*2 →
  NoDup keys.*2 →
  ∀ σ kfs,
    σ !! RestPose_at self = Some (RestPose j) →
    read_Keyframes σ keys = Some kfs →
    ∃ σ',
      each (λ key : Z * nat, rebase_at keep self key.2) keys σ = Some σ' ∧
      read_Keyframes σ' keys =
        Some ((λ key : Keyframe, (key.1, rebase keep j key.2)) <$> kfs) ∧
      ∀ l, l ∉ keys.*2 → σ' !! l = σ !! l.
Proof.
  intros Hprops. induction keys as [|[frame key] keys IH];
    intros Hrest Hkeys σ kfs Hlookup Hread.
  { injection Hread as <-. by exists σ. }
  rewrite fmap_cons in Hrest, Hkeys. cbn [snd] in Hrest, Hkeys.
  apply not_elem_of_cons in Hrest as [Hne Hrest].
  apply NoDup_cons in Hkeys as [Hfresh Hkeys].
  rewrite read_Keyframes_cons in Hread. cbn [fst snd] in Hread.
  destruct (σ !! key) as [k|] eqn:Hkey; [|done].
  destruct (read_Keyframes σ keys) as [kfs'|] eqn:Hread'; [|done].
  injection Hread as <-.
  set (σ1 := <[key := rebase keep j k]> σ).
  destruct (IH Hrest Hkeys σ1 kfs') as (σ' & Hloop & Hread1 & Hframe).
  { subst σ1. by rewrite lookup_insert_ne by done. }
  { rewrite <- Hread'. apply read_Keyframes_agree. intros l Hl.
    subst σ1. rewrite lookup_insert_ne; [done|]. by intros ->. }
  exists σ'. split_and!.
  - rewrite each_cons. cbn [snd].
    rewrite (rebase_at_separate keep self j key (RestPose j) k σ)
      by (done || by intros ->).
    exact Hloop.
  - rewrite read_Keyframes_cons. cbn [fst snd].
    rewrite (Hframe key Hfresh). subst σ1. rewrite lookup_insert_eq.
    cbn [mbind option_bind]. by rewrite Hread1.
  - intros l Hl. rewrite fmap_cons in Hl. cbn [snd] in Hl.
    apply not_elem_of_cons in Hl as [Hl1 Hl2].
    rewrite (Hframe l Hl2). subst σ1. by rewrite lookup_insert_ne.
Qed.

(** A loop over the children, each of which holds objects of its own. *)
Lemma each_child (turn : Stored → heap → option heap) (change : Joint → Joint)
    (children : list Stored) :
  Forall (λ child, ∀ (σ : heap) (j : Joint),
            unshared child → view σ child = Some j →
            ∃ σ', turn child σ = Some σ' ∧
                  view σ' child = Some (change j) ∧
                  ∀ l, l ∉ addresses child → σ' !! l = σ !! l) children →
  ∀ (σ : heap) (js : list Joint),
    NoDup (mbind addresses children) →
    mapM (view σ) children = Some js →
    ∃ σ', each turn children σ = Some σ' ∧
          mapM (view σ') children = Some (change <$> js) ∧
          ∀ l, l ∉ mbind addresses children → σ' !! l = σ !! l.
Proof.
  induction 1 as [|child children Hchild _ IH]; intros σ js Hun Hviews.
  { injection Hviews as <-. by exists σ. }
  change (mbind addresses (child :: children))
    with (addresses child ++ mbind addresses children) in *.
  apply NoDup_app in Hun as (Hown & Hapart & Hothers).
  rewrite mapM_cons in Hviews.
  destruct (view σ child) as [j|] eqn:Hview; [|done].
  destruct (mapM (view σ) children) as [js'|] eqn:Hviews'; [|done].
  injection Hviews as <-.
  destruct (Hchild σ j Hown Hview) as (σ1 & Hturn & Hview1 & Hframe1).
  destruct (IH σ1 js' Hothers) as (σ' & Hloop & Hviews1 & Hframe).
  { rewrite <- Hviews'. apply mapM_agree_on, Forall_forall.
    intros other Hother. apply view_agree. intros l Hl. apply Hframe1.
    intros Hl'. apply (Hapart l Hl'). apply list_elem_of_bind. by exists other. }
  exists σ'. split_and!.
  - by rewrite each_cons, Hturn.
  - rewrite mapM_cons.
    rewrite (view_agree σ1 σ' child), Hview1, Hviews1; [done|].
    intros l Hl. apply Hframe. by apply Hapart.
  - intros l Hl. apply not_elem_of_app in Hl as [Hl1 Hl2].
    by rewrite (Hframe l Hl2), (Hframe1 l Hl1).
Qed.

Lemma writeRestPose_stored_unfold recursive keep self σ :
  writeRestPose_stored recursive keep self σ =
  σ ← match keep with
      | Some (name :: names) =>
          each (λ key : Z * nat, rebase_at (name :: names) self key.2)
            (Keyframes_at self) σ
      | _ => Some σ
      end;
  σ ← assign_Position (RestPose_at self) (Stored_Position self) σ;
  σ ← assign_Rotation (RestPose_at self) (Stored_Rotation self) σ;
  σ ← assign_Scale (RestPose_at self) (Stored_Scale self) σ;
  if recursive
  then each (writeRestPose_stored true keep) (Stored_Children self) σ
  else Some σ.
Proof. by destruct self. Qed.

Lemma writeRestPose_mkJoint recursive keep position rotation scale rest kfs
    frame children :
  let j := mkJoint position rotation scale rest kfs frame children in
  writeRestPose recursive keep j =
  mkJoint position rotation scale (mkPose position rotation scale)
    match keep with
    | Some (name :: names) =>
        (λ key : Keyframe, (key.1, rebase (name :: names) j key.2)) <$> kfs
    | _ => kfs
    end
    frame
    (if recursive then writeRestPose true keep <$> children else children).
Proof. done. Qed.

(** On a subtree that holds no [Pose] object twice, [writeRestPose] on the
    store does what [writeRestPose] does on the joint the subtree stands
    for, and leaves the rest of the store alone. *)
Lemma writeRestPose_stored_view self :
  ∀ recursive keep (σ : heap) (j : Joint),
    unshared self → view σ self = Some j →
    ∃ σ', writeRestPose_stored recursive keep self σ = Some σ' ∧
          view σ' self = Some (writeRestPose recursive keep j) ∧
          ∀ l, l ∉ addresses self → σ' !! l = σ !! l.
Proof.
  induction self as [position rotation scale rest keys frame children IH]
    using Stored_ind.
  intros recursive keep σ j Hun Hview.
  set (self := mkStored position rotation scale rest keys frame children).
  unfold unshared in Hun. rewrite addresses_unfold in Hun.
  cbn [RestPose_at Keyframes_at Stored_Children] in Hun.
  apply NoDup_cons in Hun as [Hrest Hun].
  apply not_elem_of_app in Hrest as [Hrest_keys Hrest_children].
  apply NoDup_app in Hun as (Hkeys & Hapart & Hchildren).
  rewrite view_unfold in Hview.
  cbn [RestPose_at Keyframes_at Stored_Children Stored_Position
         Stored_Rotation Stored_Scale Stored_CurrentFrame] in Hview.
  destruct (σ !! rest) as [restp|] eqn:Hlookup; [|done].
  destruct (read_Keyframes σ keys) as [kfs|] eqn:Hread; [|done].
  destruct (mapM (view σ) children) as [js|] eqn:Hviews; [|done].
  injection Hview as <-.
  set (j := mkJoint position rotation scale restp kfs frame js).
  (* the loop over the keyframes *)
  assert (∃ σ1,
    match keep with
    | Some (name :: names) =>
        each (λ key : Z * nat, rebase_at (name :: names) self key.2) keys σ
    | _ => Some σ
    end = Some σ1 ∧
    read_Keyframes σ1 keys =
      Some match keep with
           | Some (name :: names) =>
               (λ key : Keyframe, (key.1, rebase (name :: names) j key.2)) <$> kfs
           | _ => kfs
           end ∧
    ∀ l, l ∉ keys.*2 → σ1 !! l = σ !! l) as (σ1 & Hloop & Hread1 & Hframe1).
  { destruct keep as [[|name names]|]; [by exists σ| |by exists σ].
    by apply (rebase_at_loop (name :: names) self j keys). }
  (* the rest pose *)
  set (σ2 := <[rest := mkPose position rotation scale]> σ1).
  assert (∀ l, l ≠ rest → l ∉ keys.*2 → σ2 !! l = σ !! l) as Hframe2.
  { intros l Hl1 Hl2. subst σ2. rewrite lookup_insert_ne by done.
    by apply Hframe1. }
  assert (mapM (view σ2) children = Some js) as Hviews2.
  { rewrite <- Hviews. apply mapM_agree_on, Forall_forall.
    intros child Hchild. apply view_agree. intros l Hl.
    assert (l ∈ mbind addresses children) as Hl'.
    { apply list_elem_of_bind. by exists child. }
    apply Hframe2; [by intros ->|]. intros Hl''. by apply (Hapart l). }
  (* the children *)
  assert (∃ σ',
    (if recursive then each (writeRestPose_stored true keep) children σ2
     else Some σ2) = Some σ' ∧
    mapM (view σ') children =
      Some (if recursive then writeRestPose true keep <$> js else js) ∧
    ∀ l, l ∉ mbind addresses children → σ' !! l = σ2 !! l)
    as (σ' & Hchildren' & Hviews' & Hframe').
  { destruct recursive; [|by exists σ2].
    apply (each_child (writeRestPose_stored true keep)
             (writeRestPose true keep)); [|done|done].
    eapply Forall_impl; [exact IH|]. intros child Hchild σ0 j0.
    apply Hchild. }
  exists σ'. split_and!.
  - rewrite writeRestPose_stored_unfold.
    cbn [RestPose_at Keyframes_at Stored_Children Stored_Position
           Stored_Rotation Stored_Scale self].
    fold self. rewrite Hloop. cbn [mbind option_bind].
    rewrite assign_all; [exact Hchildren'|].
    rewrite (Hframe1 rest Hrest_keys), Hlookup. done.
  - rewrite view_unfold. unfold self.
    cbn [RestPose_at Keyframes_at Stored_Children Stored_Position
           Stored_Rotation Stored_Scale Stored_CurrentFrame].
    rewrite (Hframe' rest Hrest_children). subst σ2.
    rewrite lookup_insert_eq. cbn [mbind option_bind].
    rewrite (read_Keyframes_agree σ1 σ' keys), Hread1.
    2:{ intros l Hl. rewrite Hframe' by (by apply Hapart).
        rewrite lookup_insert_ne; [done|]. by intros ->. }
    cbn [mbind option_bind]. rewrite Hviews'. cbn [mbind option_bind].
    subst j. by rewrite writeRestPose_mkJoint.
  - intros l Hl. rewrite addresses_unfold in Hl.
    cbn [RestPose_at Keyframes_at Stored_Children] in Hl.
    apply not_elem_of_cons in Hl as [Hl1 Hl].
    apply not_elem_of_app in Hl as [Hl2 Hl3].
    rewrite (Hframe' l Hl3). by apply Hframe2.
Qed.

Lemma loadRestPose_stored_unfold recursive σ self :
  loadRestPose_stored recursive σ self =
  rest ← σ !! RestPose_at self;
  children ← (if recursive
              then mapM (loadRestPose_stored true σ) (Stored_Children self)
              else Some (Stored_Children self));
  Some (mkStored (Position rest) (Rotation rest) (Scale rest)
          (RestPose_at self) (Keyframes_at self) (Stored_CurrentFrame self)
          children).
Proof. by destruct self. Qed.

Lemma fmap_fixed {A} (f : A → A) (l : list A) :
  f <$> l = l → Forall (λ x, f x = x) l.
Proof.
  induction l as [|x l IH]; [constructor|].
  rewrite fmap_cons. intros [= Hx Hl]. constructor; auto.
Qed.

(** Loading the rest pose changes nothing on a subtree that stands for a
    joint on which it changes nothing. *)
Lemma loadRestPose_stored_fixed self :
  ∀ recursive (σ : heap) (j : Joint),
    view σ self = Some j → loadRestPose recursive j = j →
    loadRestPose_stored recursive σ self = Some self.
Proof.
  induction self as [position rotation scale rest keys frame children IH]
    using Stored_ind.
  intros recursive σ j Hview Hfixed.
  rewrite view_unfold in Hview.
  cbn [RestPose_at Keyframes_at Stored_Children Stored_Position
         Stored_Rotation Stored_Scale Stored_CurrentFrame] in Hview.
  destruct (σ !! rest) as [restp|] eqn:Hlookup; [|done].
  destruct (read_Keyframes σ keys) as [kfs|] eqn:Hread; [|done].
  destruct (mapM (view σ) children) as [js|] eqn:Hviews; [|done].
  injection Hview as <-.
  injection Hfixed as Hposition Hrotation Hscale Hchildren.
  rewrite loadRestPose_stored_unfold.
  cbn [RestPose_at Keyframes_at Stored_Children Stored_CurrentFrame].
  rewrite Hlookup. cbn [mbind option_bind].
  assert ((if recursive then mapM (loadRestPose_stored true σ) children
           else Some children) = Some children) as ->.
  { destruct recursive; [|done].
    apply fmap_fixed in Hchildren. apply mapM_Some_1 in Hviews.
    clear Hlookup Hread. revert IH Hchildren.
    induction Hviews as [|child jc children js Hchild _ IHchildren];
      intros IH Hfixed; [done|].
    apply Forall_cons in IH as [IHchild IH].
    apply Forall_cons in Hfixed as [Hjc Hfixed].
    rewrite mapM_cons, (IHchild true σ jc Hchild Hjc).
    cbn [mbind option_bind]. by rewrite (IHchildren IH Hfixed). }
  cbn [mbind option_bind]. by rewrite Hposition, Hrotation, Hscale.
Qed.

(** X13.  On a subtree that holds no [Pose] object twice, [writeRestPose]
    returns, whatever [keep] names; it keeps the frame ids of every joint
    of the subtree, and [loadRestPose] right after it changes nothing:
    every joint reached is at its rest pose. *)
Theorem writeRestPose_keeps_frames recursive keep self (σ : heap) (j : Joint) :
  unshared self →
  view σ self = Some j →
  ∃ σ' j',
    writeRestPose_stored recursive keep self σ = Some σ' ∧
    view σ' self = Some j' ∧
    frame_ids j' = frame_ids j ∧
    loadRestPose_stored recursive σ' self = Some self.
Proof.
  intros Hun Hview.
  destruct (writeRestPose_stored_view self recursive keep σ j Hun Hview)
    as (σ' & Hwrite & Hview' & _).
  exists σ', (writeRestPose recursive keep j).
  split_and!; [done|done|apply frame_ids_writeRestPose|].
  apply (loadRestPose_stored_fixed self recursive σ' _ Hview').
  apply loadRestPose_writeRestPose.
Qed.

(** X14.  On a subtree that holds no [Pose] object twice, a [keep] that
    names none of position, rotation and scale is a [keep] of nothing:
    [writeRestPose] leaves the keyframes of the joint as they are. *)
Theorem writeRestPose_unknown_names recursive names self (σ : heap) (j : Joint) :
  "position" ∉ names → "rotation" ∉ names → "scale" ∉ names →
  unshared self →
  view σ self = Some j →
  ∃ σ' j',
    writeRestPose_stored recursive (Some names) self σ = Some σ' ∧
    view σ' self = Some j' ∧
    Keyframes j' = Keyframes j ∧
    read_Keyframes σ' (Keyframes_at self) = read_Keyframes σ (Keyframes_at self).
Proof.
  intros Hposition Hrotation Hscale Hun Hview.
  destruct (writeRestPose_stored_view self recursive (Some names) σ j Hun Hview)
    as (σ' & Hwrite & Hview' & _).
  assert (Keyframes (writeRestPose recursive (Some names) j) = Keyframes j)
    as Hkept by by apply Keyframes_writeRestPose_unknown.
  exists σ', (writeRestPose recursive (Some names) j).
  split_and!; [done|done|done|].
  rewrite view_unfold in Hview, Hview'.
  destruct (σ !! RestPose_at self); [|done].
  destruct (σ' !! RestPose_at self); [|done].
  destruct (read_Keyframes σ (Keyframes_at self)) as [kfs|]; [|done].
  destruct (read_Keyframes σ' (Keyframes_at self)) as [kfs'|]; [|done].
  destruct (mapM (view σ) (Stored_Children self)); [|done].
  destruct (mapM (view σ') (Stored_Children self)); [|done].
  apply (f_equal (fmap (M:=option) Keyframes)) in Hview, Hview'.
  cbn [fmap option_fmap option_map Keyframes] in Hview, Hview'.
  injection Hview as Hkfs. injection Hview' as Hkfs'. congruence.
Qed.

(** ** The rebasing operations on the store *)

Lemma view_Some σ self j :
  view σ self = Some j →
  ∃ rest kfs js,
    σ !! RestPose_at self = Some rest ∧
    read_Keyframes σ (Keyframes_at self) = Some kfs ∧
    mapM (view σ) (Stored_Children self) = Some js ∧
    j = mkJoint (Stored_Position self) (Stored_Rotation self)
          (Stored_Scale self) rest kfs (Stored_CurrentFrame self) js.
Proof.
  rewrite view_unfold. intros Hview.
  destruct (σ !! RestPose_at self) as [rest|]; [|done].
  destruct (read_Keyframes σ (Keyframes_at self)) as [kfs|]; [|done].
  destruct (mapM (view σ) (Stored_Children self)) as [js|]; [|done].
  injection Hview as <-. by exists rest, kfs, js.
Qed.

Lemma view_properties σ self j :
  view σ self = Some j → Joint_properties j = Stored_properties self.
Proof. by intros (rest & kfs & js & _ & _ & _ & ->)%view_Some. Qed.

Lemma view_set_Stored_properties σ p self j :
  view σ self = Some j →
  view σ (set_Stored_properties p self) = Some (set_properties p j).
Proof.
  intros (rest & kfs & js & Hrest & Hkfs & Hjs & ->)%view_Some.
  rewrite view_unfold. unfold set_Stored_properties.
  cbn [set_Stored_properties set_Stored_Children RestPose_at Keyframes_at
         Stored_Children Stored_Position Stored_Rotation Stored_Scale
         Stored_CurrentFrame mbind option_bind].
  by rewrite Hrest, Hkfs, Hjs.
Qed.

Lemma addresses_set_Stored_properties p self :
  addresses (set_Stored_properties p self) = addresses self.
Proof. by rewrite !addresses_unfold. Qed.

Lemma addresses_set_Stored_Children cs self :
  mbind addresses cs = mbind addresses (Stored_Children self) →
  addresses (set_Stored_Children cs self) = addresses self.
Proof.
  intros Hcs. rewrite !addresses_unfold. unfold set_Stored_Children.
  cbn [RestPose_at Keyframes_at Stored_Children]. by rewrite Hcs.
Qed.

(** The children replaced, in a store that has the joint's own objects as
    they were. *)
Lemma view_set_Stored_Children σ σ' self j cs js :
  view σ self = Some j →
  σ' !! RestPose_at self = σ !! RestPose_at self →
  (∀ l, l ∈ (Keyframes_at self).*2 → σ' !! l = σ !! l) →
  mapM (view σ') cs = Some js →
  view σ' (set_Stored_Children cs self) = Some (set_Children js j).
Proof.
  intros (rest & kfs & js0 & Hrest & Hkfs & _ & ->)%view_Some Hsame Hkeys Hcs.
  rewrite view_unfold. unfold set_Stored_Children.
  cbn [set_Stored_properties set_Stored_Children RestPose_at Keyframes_at
         Stored_Children Stored_Position Stored_Rotation Stored_Scale
         Stored_CurrentFrame mbind option_bind].
  rewrite Hsame, Hrest. cbn [mbind option_bind].
  rewrite (read_Keyframes_agree σ σ') by done.
  by rewrite Hkfs, Hcs.
Qed.

Lemma loadRestPose_stored_false σ self j :
  view σ self = Some j →
  ∃ self',
    loadRestPose_stored false σ self = Some self' ∧
    view σ self' = Some (loadRestPose false j) ∧
    addresses self' = addresses self ∧
    Stored_Children self' = Stored_Children self.
Proof.
  intros Hview.
  pose proof Hview as (rest & kfs & js & Hrest & Hkfs & Hjs & ->)%view_Some.
  exists (set_Stored_properties rest self). split_and!.
  - rewrite loadRestPose_stored_unfold, Hrest. done.
  - by rewrite (view_set_Stored_properties σ rest self _ Hview).
  - apply addresses_set_Stored_properties.
  - done.
Qed.

Lemma loadRestPose_stored_children σ (children : list Stored)
    (js : list Joint) :
  mapM (view σ) children = Some js →
  ∃ children',
    mapM (loadRestPose_stored false σ) children = Some children' ∧
    mapM (view σ) children' = Some (loadRestPose false <$> js) ∧
    mbind addresses children' = mbind addresses children.
Proof.
  revert js. induction children as [|child children IH]; intros js Hviews.
  { injection Hviews as <-. by exists []. }
  rewrite mapM_cons in Hviews.
  destruct (view σ child) as [j|] eqn:Hview; [|done].
  destruct (mapM (view σ) children) as [js'|] eqn:Hviews'; [|done].
  injection Hviews as <-.
  destruct (loadRestPose_stored_false σ child j Hview)
    as (child' & Hload & Hview' & Haddresses & _).
  destruct (IH js' eq_refl) as (children' & Hloads & Hviews'' & Haddresses').
  exists (child' :: children'). split_and!.
  - by rewrite mapM_cons, Hload, Hloads.
  - by rewrite mapM_cons, Hview', Hviews''.
  - by rewrite !bind_cons, Haddresses, Haddresses'.
Qed.

(** A change of the properties of the joint and of its immediate children,
    as [Transform] makes it. *)
Lemma view_move σ (self : Stored) (j : Joint)
    (own : Pose → Pose) (child : Pose → Pose → Pose) :
  view σ self = Some j →
  let moved :=
    set_Stored_Children
      ((λ c, set_Stored_properties
               (child (Stored_properties self) (Stored_properties c)) c)
         <$> Stored_Children self)
      (set_Stored_properties (own (Stored_properties self)) self) in
  view σ moved =
    Some (set_Children
            ((λ c, set_properties
                     (child (Joint_properties j) (Joint_properties c)) c)
               <$> Children j)
            (set_properties (own (Joint_properties j)) j)) ∧
  addresses moved = addresses self.
Proof.
  intros Hview moved. rewrite (view_properties σ self j Hview).
  pose proof Hview as (rest & kfs & js & Hrest & Hkfs & Hjs & Hj)%view_Some.
  assert (Children j = js) as -> by by rewrite Hj.
  set (p := Stored_properties self) in *.
  assert (
    mapM (view σ)
      ((λ c, set_Stored_properties (child p (Stored_properties c)) c)
         <$> Stored_Children self) =
    Some ((λ c, set_properties (child p (Joint_properties c)) c) <$> js) ∧
    mbind addresses
      ((λ c, set_Stored_properties (child p (Stored_properties c)) c)
         <$> Stored_Children self) =
    mbind addresses (Stored_Children self)) as [Hmoved Haddresses].
  { clear Hview Hj moved. revert js Hjs.
    induction (Stored_Children self) as [|c cs IH]; intros js Hjs.
    { by injection Hjs as <-. }
    rewrite mapM_cons in Hjs.
    destruct (view σ c) as [jc|] eqn:Hc; [|done].
    destruct (mapM (view σ) cs) as [js'|] eqn:Hcs; [|done].
    injection Hjs as <-.
    destruct (IH js' eq_refl) as [IH1 IH2].
    rewrite !fmap_cons, mapM_cons, !bind_cons.
    rewrite (view_set_Stored_properties σ _ c jc Hc), IH1, IH2.
    rewrite (view_properties σ c jc Hc).
    by rewrite addresses_set_Stored_properties. }
  split.
  - subst moved.
    apply (view_set_Stored_Children σ σ); [|done|done|done].
    by apply view_set_Stored_properties.
  - subst moved. rewrite addresses_set_Stored_Children; [|done].
    apply addresses_set_Stored_properties.
Qed.

Lemma unshared_own self :
  unshared self →
  (RestPose_at self ∉ mbind addresses (Stored_Children self)) ∧
  (∀ l, l ∈ (Keyframes_at self).*2 →
        l ∉ mbind addresses (Stored_Children self)) ∧
  NoDup (mbind addresses (Stored_Children self)).
Proof.
  unfold unshared. rewrite addresses_unfold.
  intros [Hrest Hun]%NoDup_cons.
  apply not_elem_of_app in Hrest as [_ Hrest].
  apply NoDup_app in Hun as (_ & Hapart & Hchildren). done.
Qed.

Lemma set_Stored_Children_same self :
  set_Stored_Children (Stored_Children self) self = self.
Proof. by destruct self. Qed.

(** The body of the two operations, for any change [move] of the
    properties that assigns to no [Pose] object: on a subtree that holds no
    object twice it does on the store what the body does on the joint. *)
Lemma rebase_body_view (move : Stored → Stored) (movev : Joint → Joint) keep :
  (∀ (σ : heap) s j, view σ s = Some j →
     view σ (move s) = Some (movev j) ∧ addresses (move s) = addresses s) →
  ∀ self (σ : heap) (j : Joint),
    unshared self → view σ self = Some j →
    ∃ self' σ',
      (self ← loadRestPose_stored false σ self;
       children ← mapM (loadRestPose_stored false σ) (Stored_Children self);
       let self := move (set_Stored_Children children self) in
       σ ← writeRestPose_stored false keep self σ;
       σ ← each (writeRestPose_stored false None) (Stored_Children self) σ;
       Some (self, σ)) = Some (self', σ') ∧
      view σ' self' =
        Some (let j := loadRestPose false j in
              let j := set_Children (loadRestPose false <$> Children j) j in
              let j := movev j in
              let j := writeRestPose false keep j in
              set_Children (writeRestPose false None <$> Children j) j) ∧
      addresses self' = addresses self ∧
      ∀ l, l ∉ addresses self → σ' !! l = σ !! l.
Proof.
  intros Hmove self σ j Hun Hview.
  destruct (loadRestPose_stored_false σ self j Hview)
    as (self1 & Hload & Hview1 & Haddresses1 & Hchildren1).
  set (j1 := loadRestPose false j) in *.
  pose proof Hview1 as (rest1 & kfs1 & js1 & _ & _ & Hjs1 & Hj1)%view_Some.
  assert (Children j1 = js1) as Hjs1' by by rewrite Hj1.
  destruct (loadRestPose_stored_children σ (Stored_Children self1) js1 Hjs1)
    as (children1 & Hloads & Hviews1 & Haddresses1').
  assert (view σ (set_Stored_Children children1 self1) =
          Some (set_Children (loadRestPose false <$> Children j1) j1)) as Hview2.
  { rewrite Hjs1'. by apply (view_set_Stored_Children σ σ). }
  assert (addresses (set_Stored_Children children1 self1) = addresses self)
    as Haddresses2.
  { by rewrite addresses_set_Stored_Children. }
  destruct (Hmove σ _ _ Hview2) as [Hview3 Haddresses3].
  set (self3 := move (set_Stored_Children children1 self1)) in *.
  set (j3 := movev (set_Children (loadRestPose false <$> Children j1) j1)) in *.
  rewrite Haddresses2 in Haddresses3.
  assert (unshared self3) as Hun3.
  { unfold unshared. by rewrite Haddresses3. }
  destruct (writeRestPose_stored_view self3 false keep σ j3 Hun3 Hview3)
    as (σ1 & Hwrite & Hview4 & Hframe1).
  set (j4 := writeRestPose false keep j3) in *.
  pose proof Hview4 as (rest4 & kfs4 & js4 & _ & _ & Hjs4 & Hj4)%view_Some.
  assert (Children j4 = js4) as Hjs4' by by rewrite Hj4.
  destruct (unshared_own self3 Hun3) as (Hrest & Hkeys & Hchildren).
  destruct (each_child (writeRestPose_stored false None)
              (writeRestPose false None) (Stored_Children self3))
    with (σ := σ1) (js := js4) as (σ2 & Heach & Hviews5 & Hframe2);
    [|done|done|].
  { apply Forall_forall. intros child _ σ0 j0.
    apply writeRestPose_stored_view. }
  exists self3, σ2. split_and!.
  - rewrite Hload. cbn [mbind option_bind].
    rewrite Hloads. cbn [mbind option_bind].
    fold self3. rewrite Hwrite. cbn [mbind option_bind].
    by rewrite Heach.
  - cbn zeta. fold j1. fold j3. fold j4. rewrite Hjs4'.
    rewrite <- (set_Stored_Children_same self3).
    apply (view_set_Stored_Children σ1 σ2 self3 j4); [exact Hview4| | |done].
    + by apply Hframe2.
    + intros l Hl. by apply Hframe2, Hkeys.
  - done.
  - intros l Hl. rewrite <- Haddresses3 in Hl.
    rewrite Hframe2, Hframe1; [done|done|].
    intros Hl'. apply Hl. rewrite addresses_unfold.
    apply list_elem_of_further, elem_of_app. by right.
Qed.

Lemma thread_cons turn child children σ :
  thread turn (child :: children) σ =
  '(child', σ') ← turn child σ;
  '(children', σ'') ← thread turn children σ';
  Some (child' :: children', σ'').
Proof. done. Qed.

(** A loop over the children that changes each child and the store, each
    child holding objects of its own. *)
Lemma thread_children (turn : Stored → heap → option (Stored * heap))
    (change : Joint → Joint) :
  (∀ child (σ : heap) (j : Joint),
     unshared child → view σ child = Some j →
     ∃ child' σ',
       turn child σ = Some (child', σ') ∧
       view σ' child' = Some (change j) ∧
       addresses child' = addresses child ∧
       ∀ l, l ∉ addresses child → σ' !! l = σ !! l) →
  ∀ children (σ : heap) (js : list Joint),
    NoDup (mbind addresses children) →
    mapM (view σ) children = Some js →
    ∃ children' σ',
      thread turn children σ = Some (children', σ') ∧
      mapM (view σ') children' = Some (change <$> js) ∧
      mbind addresses children' = mbind addresses children ∧
      ∀ l, l ∉ mbind addresses children → σ' !! l = σ !! l.
Proof.
  intros Hturn. induction children as [|child children IH];
    intros σ js Hun Hviews.
  { injection Hviews as <-. by exists [], σ. }
  rewrite bind_cons in Hun.
  apply NoDup_app in Hun as (Hown & Hapart & Hothers).
  rewrite mapM_cons in Hviews.
  destruct (view σ child) as [j|] eqn:Hview; [|done].
  destruct (mapM (view σ) children) as [js'|] eqn:Hviews'; [|done].
  injection Hviews as <-.
  destruct (Hturn child σ j Hown Hview)
    as (child' & σ1 & Hchild & Hview1 & Haddresses1 & Hframe1).
  destruct (IH σ1 js' Hothers)
    as (children' & σ' & Hloop & Hviews1 & Haddresses & Hframe).
  { rewrite <- Hviews'. apply mapM_agree_on, Forall_forall.
    intros other Hother. apply view_agree. intros l Hl. apply Hframe1.
    intros Hl'. apply (Hapart l Hl'). apply list_elem_of_bind. by exists other. }
  exists (child' :: children'), σ'. split_and!.
  - rewrite thread_cons, Hchild. cbn [mbind option_bind]. by rewrite Hloop.
  - rewrite mapM_cons.
    rewrite (view_agree σ1 σ' child'), Hview1, Hviews1; [done|].
    intros l Hl. apply Hframe. rewrite Haddresses1 in Hl. by apply Hapart.
  - by rewrite !bind_cons, Haddresses1, Haddresses.
  - intros l Hl. rewrite bind_cons in Hl.
    apply not_elem_of_app in Hl as [Hl1 Hl2].
    by rewrite (Hframe l Hl2), (Hframe1 l Hl1).
Qed.

Lemma descend_stored_unfold body fuel self σ :
  descend_stored body fuel self σ =
  '(self, σ) ← body self σ;
  match fuel with
  | O => Some (self, σ)
  | S fuel' =>
      '(children, σ) ← thread (descend_stored body fuel') (Stored_Children self) σ;
      Some (set_Stored_Children children self, σ)
  end.
Proof. by destruct fuel. Qed.

(** The descent on the store does what the descent does on the joint. *)
Lemma descend_stored_view (body : Stored → heap → option (Stored * heap))
    (change : Joint → Joint) :
  (∀ self (σ : heap) (j : Joint),
     unshared self → view σ self = Some j →
     ∃ self' σ',
       body self σ = Some (self', σ') ∧
       view σ' self' = Some (change j) ∧
       addresses self' = addresses self ∧
       ∀ l, l ∉ addresses self → σ' !! l = σ !! l) →
  ∀ fuel self (σ : heap) (j : Joint),
    unshared self → view σ self = Some j →
    ∃ self' σ',
      descend_stored body fuel self σ = Some (self', σ') ∧
      view σ' self' = Some (descend change fuel j) ∧
      addresses self' = addresses self ∧
      ∀ l, l ∉ addresses self → σ' !! l = σ !! l.
Proof.
  intros Hbody. induction fuel as [|fuel IH]; intros self σ j Hun Hview.
  { destruct (Hbody self σ j Hun Hview)
      as (self1 & σ1 & Hrun & Hview1 & Haddresses1 & Hframe1).
    exists self1, σ1. split_and!; [|done|done|done].
    by rewrite descend_stored_unfold, Hrun. }
  destruct (Hbody self σ j Hun Hview)
    as (self1 & σ1 & Hrun & Hview1 & Haddresses1 & Hframe1).
  assert (unshared self1) as Hun1.
  { unfold unshared. by rewrite Haddresses1. }
  pose proof Hview1 as (rest1 & kfs1 & js1 & _ & _ & Hjs1 & Hj1)%view_Some.
  assert (Children (change j) = js1) as Hjs1' by by rewrite Hj1.
  destruct (unshared_own self1 Hun1) as (Hrest & Hkeys & Hchildren).
  destruct (thread_children (descend_stored body fuel) (descend change fuel) IH
              (Stored_Children self1) σ1 js1 Hchildren Hjs1)
    as (children' & σ' & Hloop & Hviews & Haddresses & Hframe).
  exists (set_Stored_Children children' self1), σ'. split_and!.
  - rewrite descend_stored_unfold, Hrun. cbn [mbind option_bind].
    by rewrite Hloop.
  - rewrite descend_S, Hjs1'.
    apply (view_set_Stored_Children σ1 σ' self1 (change j));
      [exact Hview1| | |done].
    + by apply Hframe.
    + intros l Hl. by apply Hframe, Hkeys.
  - by rewrite addresses_set_Stored_Children.
  - intros l Hl. rewrite Hframe, Hframe1; [done|done|].
    intros Hl'. apply Hl. rewrite <- Haddresses1, addresses_unfold.
    apply list_elem_of_further, elem_of_app. by right.
Qed.

Lemma Stored_height_children self :
  Stored_height self =
  foldr (λ child h, Nat.max (S (Stored_height child)) h) 0%nat
    (Stored_Children self).
Proof. by destruct self. Qed.

Lemma view_height self :
  ∀ (σ : heap) (j : Joint),
    view σ self = Some j → height j = Stored_height self.
Proof.
  induction self as [position rotation scale rest keys frame children IH]
    using Stored_ind.
  intros σ j (rest' & kfs & js & _ & _ & Hjs & ->)%view_Some.
  rewrite height_children, Stored_height_children.
  cbn [Children Stored_Children] in *.
  apply mapM_Some_1 in Hjs. revert IH.
  induction Hjs as [|child jc children js Hchild _ IHchildren]; intros IH;
    [done|].
  apply Forall_cons in IH as [IHchild IH]. cbn [foldr].
  by rewrite (IHchild σ jc Hchild), (IHchildren IH).
Qed.

(** On a subtree that holds no [Pose] object twice, [applyRestposePosition]
    and [applyRestposeRotation] on the store do what they do on the joint
    the subtree stands for. *)
Lemma applyRestposePosition_stored_view position recursive self
    (σ : heap) (j : Joint) :
  unshared self → view σ self = Some j →
  ∃ self' σ',
    applyRestposePosition_stored position recursive self σ = Some (self', σ') ∧
    view σ' self' = Some (applyRestposePosition position recursive j) ∧
    addresses self' = addresses self ∧
    ∀ l, l ∉ addresses self → σ' !! l = σ !! l.
Proof.
  intros Hun Hview.
  assert (∀ self (σ : heap) (j : Joint),
            unshared self → view σ self = Some j →
            ∃ self' σ',
              applyRestposePosition_self_stored position self σ
                = Some (self', σ') ∧
              view σ' self' = Some (applyRestposePosition_self position j) ∧
              addresses self' = addresses self ∧
              ∀ l, l ∉ addresses self → σ' !! l = σ !! l) as Hbody.
  { apply (rebase_body_view (applyPosition_stored position)
             (applyPosition position) None).
    intros σ0 s j0 Hs.
    apply (view_move σ0 s j0 (Transform_applyPosition_self position)
             (Transform_applyPosition_child position) Hs). }
  unfold applyRestposePosition_stored, applyRestposePosition.
  destruct recursive; [|by apply Hbody].
  rewrite (view_height self σ j Hview).
  by apply descend_stored_view.
Qed.

Lemma applyRestposeRotation_stored_view rotation recursive self
    (σ : heap) (j : Joint) :
  unshared self → view σ self = Some j →
  ∃ self' σ',
    applyRestposeRotation_stored rotation recursive self σ = Some (self', σ') ∧
    view σ' self' = Some (applyRestposeRotation rotation recursive j) ∧
    addresses self' = addresses self ∧
    ∀ l, l ∉ addresses self → σ' !! l = σ !! l.
Proof.
  intros Hun Hview.
  assert (∀ self (σ : heap) (j : Joint),
            unshared self → view σ self = Some j →
            ∃ self' σ',
              applyRestposeRotation_self_stored rotation self σ
                = Some (self', σ') ∧
              view σ' self' = Some (applyRestposeRotation_self rotation j) ∧
              addresses self' = addresses self ∧
              ∀ l, l ∉ addresses self → σ' !! l = σ !! l) as Hbody.
  { apply (rebase_body_view (applyRotation_stored rotation)
             (applyRotation rotation) (Some ["position"])).
    intros σ0 s j0 Hs.
    apply (view_move σ0 s j0 (Transform_applyRotation_self rotation)
             (Transform_applyRotation_child rotation) Hs). }
  unfold applyRestposeRotation_stored, applyRestposeRotation.
  destruct recursive; [|by apply Hbody].
  rewrite (view_height self σ j Hview).
  by apply descend_stored_view.
Qed.

(** X17.  On a subtree that holds no [Pose] object twice,
    [applyRestposePosition] and [applyRestposeRotation] return, and after
    them the joint and its immediate children are at rest: their position,
    rotation and scale are those the store has for their rest pose; with
    [recursive=True] so is every joint of the subtree. *)
Theorem applyRestpose_at_rest position rotation recursive self
    (σ : heap) (j : Joint) :
  unshared self →
  view σ self = Some j →
  (∃ self' σ' j',
     applyRestposePosition_stored position recursive self σ = Some (self', σ') ∧
     view σ' self' = Some j' ∧
     at_rest j' ∧ Forall at_rest (Children j') ∧
     (recursive = true → Forall at_rest (subtree j'))) ∧
  (∃ self' σ' j',
     applyRestposeRotation_stored rotation recursive self σ = Some (self', σ') ∧
     view σ' self' = Some j' ∧
     at_rest j' ∧ Forall at_rest (Children j') ∧
     (recursive = true → Forall at_rest (subtree j'))).
Proof.
  intros Hun Hview.
  destruct (at_rest_after_applyRestpose position rotation recursive j)
    as [(Hp1 & Hp2 & Hp3) (Hr1 & Hr2 & Hr3)].
  split.
  - destruct (applyRestposePosition_stored_view position recursive self σ j
                Hun Hview) as (self' & σ' & Hrun & Hview' & _).
    exists self', σ', (applyRestposePosition position recursive j).
    split_and!; [done|done|done|done|]. by intros ->.
  - destruct (applyRestposeRotation_stored_view rotation recursive self σ j
                Hun Hview) as (self' & σ' & Hrun & Hview' & _).
    exists self', σ', (applyRestposeRotation rotation recursive j).
    split_and!; [done|done|done|done|]. by intros ->.
Qed.

(** X18.  On a subtree that holds no [Pose] object twice,
    [applyRestposeRotation(recursive=False)] returns and changes the
    positions of the joint's keyframes only: their frame ids, rotations and
    scales stay, and the keyframes of the children stay as they are. *)
Theorem applyRestposeRotation_positions_only rotation self
    (σ : heap) (j : Joint) :
  unshared self →
  view σ self = Some j →
  ∃ self' σ' j',
    applyRestposeRotation_stored rotation false self σ = Some (self', σ') ∧
    view σ' self' = Some j' ∧
    (λ k : Keyframe, (k.1, Rotation k.2, Scale k.2)) <$> Keyframes j' =
    (λ k : Keyframe, (k.1, Rotation k.2, Scale k.2)) <$> Keyframes j ∧
    Keyframes <$> Children j' = Keyframes <$> Children j.
Proof.
  intros Hun Hview.
  destruct (positions_only_after_applyRestposeRotation rotation j)
    as [Hown Hchildren].
  destruct (applyRestposeRotation_stored_view rotation false self σ j
              Hun Hview) as (self' & σ' & Hrun & Hview' & _).
  by exists self', σ', (applyRestposeRotation rotation false j).
Qed.

(** X20.  On a subtree that holds no [Pose] object twice, the assignments of
    [writeRestPose] into the [Pose] objects of the store give what
    [writeRestPose] gives on the joint the subtree stands for, each joint
    with poses of its own; objects outside the subtree are left alone. *)
Theorem writeRestPose_stored_agrees recursive keep self (σ : heap) (j : Joint) :
  unshared self →
  view σ self = Some j →
  ∃ σ',
    writeRestPose_stored recursive keep self σ = Some σ' ∧
    view σ' self = Some (writeRestPose recursive keep j) ∧
    ∀ l, l ∉ addresses self → σ' !! l = σ !! l.
Proof. apply writeRestPose_stored_view. Qed.

(** X21.  On a subtree that holds no [Pose] object twice,
    [applyRestposePosition] and [applyRestposeRotation] on the store give
    what they give on the joint the subtree stands for; the joints keep the
    objects they hold, and objects outside the subtree are left alone. *)
Theorem applyRestpose_stored_agrees position rotation recursive self
    (σ : heap) (j : Joint) :
  unshared self →
  view σ self = Some j →
  (∃ self' σ',
     applyRestposePosition_stored position recursive self σ = Some (self', σ') ∧
     view σ' self' = Some (applyRestposePosition position recursive j) ∧
     addresses self' = addresses self ∧
     ∀ l, l ∉ addresses self → σ' !! l = σ !! l) ∧
  (∃ self' σ',
     applyRestposeRotation_stored rotation recursive self σ = Some (self', σ') ∧
     view σ' self' = Some (applyRestposeRotation rotation recursive j) ∧
     addresses self' = addresses self ∧
     ∀ l, l ∉ addresses self → σ' !! l = σ !! l).
Proof.
  intros Hun Hview. split.
  - by apply applyRestposePosition_stored_view.
  - by apply applyRestposeRotation_stored_view.
Qed.

End InPlaceProperties.
(** * The further properties on concrete joints *)

Section MoreConcrete.
Import Exact Example Sample.

Lemma getKeyframePose_never_raises_witness :
  Forall (λ k : Keyframe, 0 ≤ k.1) (Keyframes three) ∧
  ∃ pose, getKeyframePose three 5 = Some pose.
Proof.
  assert (Forall (λ k : Keyframe, 0 ≤ k.1) (Keyframes three)) as Hids.
  { repeat constructor; simpl; lia. }
  split; [exact Hids|].
  exact (proj1 (getKeyframePose_never_raises three 5 Hids)).
Defined.

Lemma loading_reads_only_witness :
  Forall (λ j', Forall (λ k : Keyframe, 0 ≤ k.1) (Keyframes j'))
         (reached true posed) ∧
  (∃ j', loadPose 5 true posed = Some j' ∧
         animation j' = animation posed ∧ CurrentFrame j' = 5) ∧
  (∃ j', loadKeyframe 5 true posed = Some j' ∧
         animation j' = animation posed ∧ CurrentFrame j' = CurrentFrame posed) ∧
  Forall (λ j', weight_in_range j' 5) (reached true posed).
Proof.
  assert (Forall (λ j', Forall (λ k : Keyframe, 0 ≤ k.1) (Keyframes j'))
            (reached true posed)) as Hids.
  { repeat constructor; simpl; lia. }
  split; [exact Hids|].
  apply (loading_reads_only 5 true posed Hids).
Defined.

Lemma getKeyframePose_stored_witness :
  ascending (Keyframes three) ∧ 0 ≤ 10 ∧ (10, at_x 2) ∈ Keyframes three ∧
  getKeyframePose three 10 = Some (at_x 2).
Proof.
  assert (ascending (Keyframes three)) as Hasc by ascending_by_computation.
  assert ((10, at_x 2) ∈ Keyframes three) as Hin
    by apply list_elem_of_further, list_elem_of_here.
  split_and!; [exact Hasc|lia|exact Hin|].
  apply (getKeyframePose_stored three 10 (at_x 2) Hasc); [lia|exact Hin].
Defined.

Lemma getKeyframePose_negative_is_last_witness :
  ascending (Keyframes three) ∧
  last (Keyframes three) = Some (20, at_x 4) ∧ -1 < 0 ∧
  getKeyframePose three (-1) = Some (at_x 4).
Proof.
  assert (ascending (Keyframes three)) as Hasc by ascending_by_computation.
  split_and!; [exact Hasc|reflexivity|lia|].
  apply (getKeyframePose_negative_is_last three (-1) (20, at_x 4) Hasc eq_refl).
  lia.
Defined.

Lemma insertKeyframePose_negative_appends_witness :
  ascending (Keyframes three) ∧ -1 < 0 ∧
  insertKeyframePose (-1) (at_x 9) three =
    Some (set_Keyframes (Keyframes three ++ [(22, at_x 9)]) three) ∧
  Forall (λ k, k.1 < 22) (Keyframes three).
Proof.
  assert (ascending (Keyframes three)) as Hasc by ascending_by_computation.
  split; [exact Hasc|]. split; [lia|].
  apply (insertKeyframePose_negative_appends (-1) (at_x 9) three Hasc). lia.
Defined.

Lemma insertKeyframePose_twice_witness :
  ascending (Keyframes three) ∧ 0 ≤ 5 ∧
  ∃ j',
    insertKeyframePose 5 (at_x 8) three = Some j' ∧
    insertKeyframePose 5 (at_x 9) j' = insertKeyframePose 5 (at_x 9) three.
Proof.
  assert (ascending (Keyframes three)) as Hasc by ascending_by_computation.
  split; [exact Hasc|]. split; [lia|].
  apply (insertKeyframePose_twice 5 (at_x 8) (at_x 9) three Hasc). lia.
Defined.

Lemma insertKeyframePose_commute_witness :
  ascending (Keyframes three) ∧ 0 ≤ 15 ∧ 0 ≤ 5 ∧ 15 ≠ 5 ∧
  is_Some (insertKeyframePose 15 (at_x 8) three ≫= insertKeyframePose 5 (at_x 9)) ∧
  insertKeyframePose 15 (at_x 8) three ≫= insertKeyframePose 5 (at_x 9) =
  insertKeyframePose 5 (at_x 9) three ≫= insertKeyframePose 15 (at_x 8).
Proof.
  assert (ascending (Keyframes three)) as Hasc by ascending_by_computation.
  split; [exact Hasc|]. split; [lia|]. split; [lia|]. split; [lia|].
  apply (insertKeyframePose_commute 15 (at_x 8) 5 (at_x 9) three Hasc); lia.
Defined.

Lemma insertKeyframePose_keeps_others_witness :
  ascending (Keyframes three) ∧ 0 ≤ 10 ∧ 10 ≠ resolved three (-3) ∧
  (10, at_x 2) ∈ Keyframes three ∧
  insertKeyframePose (-3) (at_x 9) three =
    Some (set_Keyframes (Keyframes three ++ [(24, at_x 9)]) three) ∧
  getKeyframePose (set_Keyframes (Keyframes three ++ [(24, at_x 9)]) three) 10
    = Some (at_x 2).
Proof.
  assert (ascending (Keyframes three)) as Hasc by ascending_by_computation.
  assert (10 ≠ resolved three (-3)) as Hne by (vm_compute; congruence).
  assert ((10, at_x 2) ∈ Keyframes three) as Hin
    by apply list_elem_of_further, list_elem_of_here.
  assert (insertKeyframePose (-3) (at_x 9) three =
            Some (set_Keyframes (Keyframes three ++ [(24, at_x 9)]) three))
    as Hinsert by reflexivity.
  split; [exact Hasc|]. split; [lia|]. split; [exact Hne|].
  split; [exact Hin|]. split; [exact Hinsert|].
  apply (insertKeyframePose_keeps_others (-3) (at_x 9) 10 (at_x 2) three _
           Hasc); [lia|exact Hne|exact Hin|exact Hinsert].
Defined.

Lemma removeKeyframe_filter_witness :
  ascending (Keyframes three) ∧
  Keyframes (removeKeyframe 10 false three) =
  filter (λ k : Keyframe, k.1 ≠ 10) (Keyframes three).
Proof.
  assert (ascending (Keyframes three)) as Hasc by ascending_by_computation.
  split; [exact Hasc|].
  apply (removeKeyframe_filter 10 false three Hasc).
Defined.



Lemma posed_stored_unshared : unshared posed_stored.
Proof. by apply (bool_decide_unpack _). Qed.

Lemma posed_stored_view : view store posed_stored = Some posed.
Proof. reflexivity. Qed.

(** The hypothesis is needed: a keyframe that holds the rest pose object of
    its joint is changed when [writeRestPose] writes the rest pose, with a
    [keep] that names no property. *)
Example writeRestPose_on_shared_object :
  read_Keyframes store (Keyframes_at shared_rest) = Some [(0, at_x 1)] ∧
  (σ' ← writeRestPose_stored false (Some ["Position"]) shared_rest store;
   read_Keyframes σ' (Keyframes_at shared_rest))
  = Some [(0, mkPose (5%Q, 0%Q, 0%Q) (1%Q, 0%Q, 0%Q, 0%Q) (2%Q, 2%Q, 2%Q))].
Proof. split; reflexivity. Qed.

Lemma writeRestPose_keeps_frames_witness :
  unshared posed_stored ∧ view store posed_stored = Some posed ∧
  ∃ σ' j',
    writeRestPose_stored true (Some ["position"]) posed_stored store = Some σ' ∧
    view σ' posed_stored = Some j' ∧
    frame_ids j' = frame_ids posed ∧
    loadRestPose_stored true σ' posed_stored = Some posed_stored.
Proof.
  split; [exact posed_stored_unshared|]. split; [exact posed_stored_view|].
  apply (writeRestPose_keeps_frames true (Some ["position"]) posed_stored store
           posed posed_stored_unshared posed_stored_view).
Defined.

Lemma writeRestPose_unknown_names_witness :
  ("position" ∉ ["Position"; "all"]) ∧ ("rotation" ∉ ["Position"; "all"]) ∧
  ("scale" ∉ ["Position"; "all"]) ∧
  unshared posed_stored ∧ view store posed_stored = Some posed ∧
  ∃ σ' j',
    writeRestPose_stored true (Some ["Position"; "all"]) posed_stored store
      = Some σ' ∧
    view σ' posed_stored = Some j' ∧
    Keyframes j' = Keyframes posed ∧
    read_Keyframes σ' (Keyframes_at posed_stored) =
      read_Keyframes store (Keyframes_at posed_stored).
Proof.
  assert (∀ name, name ≠ "Position" → name ≠ "all" →
                  name ∉ ["Position"; "all"]) as Hnot.
  { intros name ? ?. rewrite !elem_of_cons, elem_of_nil. tauto. }
  assert ("position" ∉ ["Position"; "all"]) as H1 by by apply Hnot.
  assert ("rotation" ∉ ["Position"; "all"]) as H2 by by apply Hnot.
  assert ("scale" ∉ ["Position"; "all"]) as H3 by by apply Hnot.
  split; [exact H1|]. split; [exact H2|]. split; [exact H3|].
  split; [exact posed_stored_unshared|]. split; [exact posed_stored_view|].
  apply (writeRestPose_unknown_names true ["Position"; "all"] posed_stored
           store posed H1 H2 H3 posed_stored_unshared posed_stored_view).
Defined.

Lemma applyRestpose_at_rest_witness :
  unshared posed_stored ∧ view store posed_stored = Some posed ∧
  (∃ self' σ' j',
     applyRestposePosition_stored None true posed_stored store
       = Some (self', σ') ∧
     view σ' self' = Some j' ∧
     at_rest j' ∧ Forall at_rest (Children j') ∧
     (true = true → Forall at_rest (subtree j'))) ∧
  (∃ self' σ' j',
     applyRestposeRotation_stored None true posed_stored store
       = Some (self', σ') ∧
     view σ' self' = Some j' ∧
     at_rest j' ∧ Forall at_rest (Children j') ∧
     (true = true → Forall at_rest (subtree j'))).
Proof.
  split; [exact posed_stored_unshared|]. split; [exact posed_stored_view|].
  apply (applyRestpose_at_rest None None true posed_stored store posed
           posed_stored_unshared posed_stored_view).
Defined.

Lemma applyRestposeRotation_positions_only_witness :
  unshared posed_stored ∧ view store posed_stored = Some posed ∧
  ∃ self' σ' j',
    applyRestposeRotation_stored None false posed_stored store
      = Some (self', σ') ∧
    view σ' self' = Some j' ∧
    (λ k : Keyframe, (k.1, Rotation k.2, Scale k.2)) <$> Keyframes j' =
    (λ k : Keyframe, (k.1, Rotation k.2, Scale k.2)) <$> Keyframes posed ∧
    Keyframes <$> Children j' = Keyframes <$> Children posed.
Proof.
  split; [exact posed_stored_unshared|]. split; [exact posed_stored_view|].
  apply (applyRestposeRotation_positions_only None posed_stored store posed
           posed_stored_unshared posed_stored_view).
Defined.

Lemma writeRestPose_stored_agrees_witness :
  unshared posed_stored ∧ view store posed_stored = Some posed ∧
  ∃ σ',
    writeRestPose_stored true (Some ["position"]) posed_stored store = Some σ' ∧
    view σ' posed_stored = Some (writeRestPose true (Some ["position"]) posed) ∧
    ∀ l, l ∉ addresses posed_stored → σ' !! l = store !! l.
Proof.
  split; [exact posed_stored_unshared|]. split; [exact posed_stored_view|].
  apply (writeRestPose_stored_agrees true (Some ["position"]) posed_stored
           store posed posed_stored_unshared posed_stored_view).
Defined.

Lemma applyRestpose_stored_agrees_witness :
  unshared posed_stored ∧ view store posed_stored = Some posed ∧
  (∃ self' σ',
     applyRestposePosition_stored None true posed_stored store
       = Some (self', σ') ∧
     view σ' self' = Some (applyRestposePosition None true posed) ∧
     addresses self' = addresses posed_stored ∧
     ∀ l, l ∉ addresses posed_stored → σ' !! l = store !! l) ∧
  (∃ self' σ',
     applyRestposeRotation_stored None true posed_stored store
       = Some (self', σ') ∧
     view σ' self' = Some (applyRestposeRotation None true posed) ∧
     addresses self' = addresses posed_stored ∧
     ∀ l, l ∉ addresses posed_stored → σ' !! l = store !! l).
Proof.
  split; [exact posed_stored_unshared|]. split; [exact posed_stored_view|].
  apply (applyRestpose_stored_agrees None None true posed_stored store posed
           posed_stored_unshared posed_stored_view).
Defined.


End MoreConcrete.
